(** * ai-examples: the 8-puzzle solver and the 8-queens solver

    A shallow embedding of [8_puzzle.py] and [8_queens.py], and the
    properties of the two programs: those that the design document
    states, and those that the code shows besides.

    Python values are embedded as follows.
    - An [int] is a [Z]; [None] in a puzzle cell is [None : option Z].
    - A list is a Rocq list.  Subscripting follows Python: an index [i]
      with [-len <= i < 0] counts from the end, any other index outside
      [0 .. len-1] raises [IndexError].
    - A computation that can raise is an [option]; [None] is the escaped
      [IndexError].  (No other exception can arise on the typed inputs.)
    - Lists are mutable objects.  Where a property is about mutation or
      sharing, rows live in a store ([gmap loc (list _)]) and a grid is the
      list of the addresses of its rows.
    - The standard output is the list of the lines printed; [str] of an
      [int] is its decimal numeral. *)

From Stdlib Require Import ZArith List Lia Permutation.
From stdpp Require Import base tactics option list numbers strings pretty
  relations gmap sets.

(** ** Python lists *)

Module PyList.

(** The position a subscript [i] denotes in a list of length [len]. *)
Definition norm_index (len : nat) (i : Z) : option nat :=
  if ((0 <=? i) && (i <? Z.of_nat len))%Z then Some (Z.to_nat i)
  else if ((- Z.of_nat len <=? i) && (i <? 0))%Z
       then Some (Z.to_nat (Z.of_nat len + i))
       else None.

(** [l[i]] *)
Definition getitem {A} (l : list A) (i : Z) : option A :=
  p ← norm_index (length l) i; l !! p.

(** [l[i] = v] *)
Definition setitem {A} (l : list A) (i : Z) (v : A) : option (list A) :=
  p ← norm_index (length l) i; Some (<[p:=v]> l).

(** [range(lo, hi)] and [range(n)] *)
Definition range2 (lo hi : Z) : list Z :=
  (λ k : nat, (lo + Z.of_nat k)%Z) <$> seq 0 (Z.to_nat (hi - lo)).
Definition range (n : Z) : list Z := range2 0 n.

(** [for x in xs: body], threading the loop's variables [s]; the body may
    raise. *)
Fixpoint for_each {X S} (xs : list X) (body : X → S → option S) (s : S)
  : option S :=
  match xs with
  | [] => Some s
  | x :: xs' => s' ← body x s; for_each xs' body s'
  end.

(** [for x in xs: body] where the body may [return] from the enclosing
    function: [Some (Some r)] is [return r], [Some None] falls through to
    the next turn, [None] is a raise. *)
Fixpoint for_return {X R} (xs : list X) (body : X → option (option R))
  : option (option R) :=
  match xs with
  | [] => Some None
  | x :: xs' =>
      r ← body x;
      match r with
      | Some v => Some (Some v)
      | None => for_return xs' body
      end
  end.

(** [l.pop()]: the last element and the list without it; [IndexError] on
    the empty list. *)
Definition pop {A} (l : list A) : option (A * list A) :=
  match reverse l with
  | [] => None
  | x :: rest => Some (x, reverse rest)
  end.

End PyList.

(** ** Python's standard output *)

Module PyOut.

(** [print(line)]: one more line. *)
Definition print (line : string) (out : list string) : list string :=
  out ++ [line].

End PyOut.

(** What a call can do.  [OutOfFuel] is not a Python behaviour: it is the
    bound of the model's loop running out. *)
Inductive outcome (A : Type) : Type :=
| Returned (a : A)
| Raised
| OutOfFuel.
Arguments Returned {A} a.
Arguments Raised {A}.
Arguments OutOfFuel {A}.

(** ** 8_puzzle.py *)

Module Puzzle.
Import PyList.
Local Open Scope Z_scope.

Definition BOARD_SIZE : Z := 3.

(** A cell holds a tile label or [None]; a state is a list of rows. *)
Abbreviation cell := (option Z).
Abbreviation state := (list (list (option Z))).

(** *** Moves, on values

    [copy.deepcopy] gives [swap] a grid of its own, so on values [swap] is
    a function from grids to grids.  [Obj.swap] below is the same code on
    the store, and [swap_refines] below relates the two. *)

Definition get_cell (s : state) (r c : Z) : option cell :=
  row ← getitem s r; getitem row c.

Definition set_cell (s : state) (r c : Z) (v : cell) : option state :=
  row ← getitem s r; row' ← setitem row c v; setitem s r row'.

Definition swap (s : state) (r1 c1 r2 c2 : Z) : option state :=
  let new_state := s in
  v2 ← get_cell s r2 c2;
  new_state ← set_cell new_state r1 c1 v2;
  v1 ← get_cell s r1 c1;
  set_cell new_state r2 c2 v1.

Definition move_right (s : state) (r c : Z) := swap s r c r (c + 1).
Definition move_left (s : state) (r c : Z) := swap s r c r (c - 1).
Definition move_up (s : state) (r c : Z) := swap s r c (r - 1) c.
Definition move_down (s : state) (r c : Z) := swap s r c (r + 1) c.

(** *** heuristic_cost *)

(** [if not value or value < 0: value = BOARD_SIZE * BOARD_SIZE] *)
Definition tile_value (value : cell) : Z :=
  match value with
  | None => BOARD_SIZE * BOARD_SIZE
  | Some v => if (v =? 0) || (v <? 0) then BOARD_SIZE * BOARD_SIZE else v
  end.

(** The body of the inner loop, lines 47-56.  [int(x / BOARD_SIZE)]
    truncates the quotient; the dividend is never negative here.  (Python
    divides in floating point, which is exact for labels below 2^53.) *)
Definition distance (row_idx col_idx : Z) (value : cell) : Z :=
  let value := tile_value value in
  let expected_row := Z.quot (value - 1) BOARD_SIZE in
  let vertical_step := Z.abs (expected_row - row_idx) in
  let expected_col := (value - BOARD_SIZE * expected_row) - 1 in
  let horizontal_step := Z.abs (expected_col - col_idx) in
  vertical_step + horizontal_step.

Definition heuristic_cost (s : state) : option Z :=
  for_each (range BOARD_SIZE) (λ row_idx result,
    for_each (range BOARD_SIZE) (λ col_idx result,
      value ← get_cell s row_idx col_idx;
      Some (result + distance row_idx col_idx value)) result) 0.

(** *** get_available_actions *)

(** The inner loop of the scan: [break] leaves it at the first [None]. *)
Fixpoint scan_row (s : state) (row_idx : Z) (cols : list Z)
    (empty : Z * Z) : option (Z * Z) :=
  match cols with
  | [] => Some empty
  | col_idx :: cols' =>
      v ← get_cell s row_idx col_idx;
      match v with
      | None => Some (row_idx, col_idx)
      | Some _ => scan_row s row_idx cols' empty
      end
  end.

(** The outer loop goes on after the [break]: the last row that holds a
    [None] decides. *)
Definition find_empty (s : state) : option (Z * Z) :=
  for_each (range BOARD_SIZE)
    (λ row_idx empty, scan_row s row_idx (range BOARD_SIZE) empty) (0, 0).

(** An action is the closure [lambda s: move_x(s, empty_row, empty_col)]. *)
Abbreviation action := (state → option state).

Definition get_available_actions (s : state) : option (list action) :=
  '(empty_row, empty_col) ← find_empty s;
  let actions := [] in
  let actions := if 0 <? empty_row
    then actions ++ [λ s, move_up s empty_row empty_col] else actions in
  let actions := if empty_row <? BOARD_SIZE - 1
    then actions ++ [λ s, move_down s empty_row empty_col] else actions in
  let actions := if 0 <? empty_col
    then actions ++ [λ s, move_left s empty_row empty_col] else actions in
  let actions := if empty_col <? BOARD_SIZE - 1
    then actions ++ [λ s, move_right s empty_row empty_col] else actions in
  Some actions.

(** [tuple(map(tuple, state))]: the same contents, now hashable. *)
Definition state_to_tuple (s : state) : state := s.

(** *** solve_puzzle *)

#[warnings="-register-all"] Inductive StateWithParent : Type :=
  Node (st : state) (parent : option StateWithParent).

Definition node_state (n : StateWithParent) : state :=
  match n with Node st _ => st end.
Definition node_parent (n : StateWithParent) : option StateWithParent :=
  match n with Node _ p => p end.

(** The states from a node back to the root, as [print_solution] collects
    them, and how many there are. *)
Fixpoint chain (n : StateWithParent) : list state :=
  match n with
  | Node st None => [st]
  | Node st (Some p) => st :: chain p
  end.
Definition path_length (n : StateWithParent) : nat := length (chain n).

(** A frontier entry: [(priority, uuid, node)].  A [UUID] is ordered by
    its 128-bit integer. *)
Abbreviation entry := (Z * Z * StateWithParent)%type.

Definition priority (e : entry) : Z := e.1.1.
Definition token (e : entry) : Z := e.1.2.
Definition entry_node (e : entry) : StateWithParent := e.2.

(** Tuple order on the first two components.  The third is reached only
    when two tokens collide. *)
Definition entry_lt (a b : entry) : bool :=
  (priority a <? priority b)
  || ((priority a =? priority b) && (token a <? token b)).

(** [PriorityQueue.put] and [PriorityQueue.get]: the queue is modelled by
    the list of its entries in insertion order, and [get] takes the least
    one out.  With pairwise distinct tokens the least entry is unique and
    this is what the heap returns; on a full tie the model takes the
    earliest inserted. *)
Definition pq_put (q : list entry) (e : entry) : list entry := q ++ [e].

Fixpoint pq_get (q : list entry) : option (entry * list entry) :=
  match q with
  | [] => None
  | e :: q' =>
      match pq_get q' with
      | None => Some (e, [])
      | Some (m, rest) =>
          if entry_lt m e then Some (m, e :: rest) else Some (e, q')
      end
  end.

Section search.
(** [uuid4 k] is the integer of the token that the [k]-th call of
    [uuid.uuid4()] returns in this run. *)
Variable uuid4 : nat → Z.

(** The variables of the [while] loop; [calls] counts the tokens drawn. *)
Record config : Type := Config {
  queue : list entry;
  visited_states : gset state;
  calls : nat
}.

(** [for state in successor_states: ...] (lines 106-117).  The
    successors are a lazy [map]: each action runs when the loop reaches
    it.  Returns the goal node, or the frontier after the pushes. *)
Fixpoint expand (actions : list action) (current : StateWithParent)
    (parent_cost : Z) (visited : gset state) (q : list entry) (k : nat)
  : option (StateWithParent + list entry * nat) :=
  match actions with
  | [] => Some (inr (q, k))
  | act :: rest =>
      st ← act (node_state current);
      if decide (state_to_tuple st ∈ visited)
      then expand rest current parent_cost visited q k
      else
        let new_state_with_parent := Node st (Some current) in
        cost ← heuristic_cost st;
        if cost =? 0 then Some (inl new_state_with_parent)
        else
          let total_cost := cost + parent_cost in
          expand rest current parent_cost visited
            (pq_put q (total_cost, uuid4 k, new_state_with_parent)) (S k)
  end.

(** One turn of the [while] loop (lines 97-117), or the end of the
    call. *)
Definition step (cfg : config)
  : config + outcome (option StateWithParent) :=
  match pq_get (queue cfg) with
  | None => inr (Returned None)
  | Some ((parent_cost, _, current_state_with_parent), q) =>
      let current_state := node_state current_state_with_parent in
      let visited := visited_states cfg ∪ {[ state_to_tuple current_state ]} in
      match get_available_actions current_state with
      | None => inr Raised
      | Some actions =>
          match expand actions current_state_with_parent parent_cost
                  visited q (calls cfg) with
          | None => inr Raised
          | Some (inl goal) => inr (Returned (Some goal))
          | Some (inr (q', k)) => inl (Config q' visited k)
          end
      end
  end.

Fixpoint loop (fuel : nat) (cfg : config)
  : outcome (option StateWithParent) :=
  match fuel with
  | O => OutOfFuel
  | S fuel' =>
      match step cfg with
      | inl cfg' => loop fuel' cfg'
      | inr out => out
      end
  end.

Definition initial_config (initial_state : state) : config :=
  Config (pq_put [] (0, uuid4 0%nat, Node initial_state None)) ∅ 1%nat.

Definition solve_puzzle (fuel : nat) (initial_state : state)
  : outcome (option StateWithParent) :=
  loop fuel (initial_config initial_state).

(** The states in the order in which the first [n] turns of the loop
    take them from the frontier and expand them. *)
Fixpoint expansions (n : nat) (cfg : config) : list state :=
  match n with
  | O => []
  | S n' =>
      match pq_get (queue cfg) with
      | None => []
      | Some (e, _) =>
          node_state (entry_node e) ::
          match step cfg with
          | inl cfg' => expansions n' cfg'
          | inr _ => []
          end
      end
  end.

End search.

(** *** is_problem_solvable and generate_random_problem *)

(** [values[i]] for [i] drawn from [range(len(values))]: always in range. *)
Definition item (values : list Z) (i : Z) : Z := default 0 (getitem values i).

Definition is_problem_solvable (values : list Z) : bool :=
  let size := Z.of_nat (length values) in
  let inv :=
    fold_left (λ inv i,
      fold_left (λ inv j,
        if negb (item values i =? size) && negb (item values j =? size)
           && (item values i >? item values j)
        then inv + 1 else inv)
        (range2 (i + 1) size) inv)
      (range size) 0 in
  inv mod 2 =? 0.

(** Lines 169-178: the nine values are laid out row by row, the largest
    label becoming [None].  ([generated_state] starts as three placeholders,
    each replaced by [[]] before it is used.) *)
Definition fill_state (available_values : list Z) : option state :=
  let max_value := BOARD_SIZE * BOARD_SIZE in
  let generated_state : state := replicate (Z.to_nat BOARD_SIZE) [] in
  r ← for_each (range BOARD_SIZE) (λ row_idx '(generated_state, values_idx),
         generated_state ← setitem generated_state row_idx [];
         for_each (range BOARD_SIZE) (λ col_idx '(generated_state, values_idx),
           value ← getitem available_values values_idx;
           let value := if value =? max_value then None else Some value in
           row ← getitem generated_state row_idx;
           generated_state ← setitem generated_state row_idx (row ++ [value]);
           Some (generated_state, values_idx + 1))
           (generated_state, values_idx))
         (generated_state, 0);
  Some r.1.

Section generator.
(** [shuffle k l] is what the [k]-th call of [random.shuffle] leaves in a
    list that held [l]. *)
Variable shuffle : nat → list Z → list Z.

(** [while not is_problem_solvable(available_values): random.shuffle(...)] *)
Fixpoint reshuffle (fuel : nat) (k : nat) (available_values : list Z)
  : outcome (list Z) :=
  if is_problem_solvable available_values then Returned available_values
  else match fuel with
       | O => OutOfFuel
       | S fuel' => reshuffle fuel' (S k) (shuffle k available_values)
       end.

Definition generate_random_problem (fuel : nat) : outcome state :=
  let max_value := BOARD_SIZE * BOARD_SIZE in
  let available_values := range2 1 (max_value + 1) in
  let available_values := shuffle 0%nat available_values in
  match reshuffle fuel 1%nat available_values with
  | Returned available_values =>
      match fill_state available_values with
      | Some generated_state => Returned generated_state
      | None => Raised
      end
  | Raised => Raised
  | OutOfFuel => OutOfFuel
  end.

End generator.

(** *** Moves, on the store

    The same [swap], with lists as objects: a grid is the list of the
    addresses of its rows, [copy.deepcopy] allocates a fresh row for every
    distinct row object (its memo keeps shared rows shared), and the two
    item assignments write into the copy. *)

Module Obj.

Abbreviation loc := positive.
Abbreviation store := (gmap positive (list (option Z))).
Abbreviation grid := (list positive).

(** The grid that [g] denotes in [h]. *)
Definition contents (h : store) (g : grid) : option state :=
  mapM (λ l : loc, h !! l) g.

Fixpoint deepcopy_rows (h : store) (memo : gmap loc loc) (rows : grid)
  : option (store * grid) :=
  match rows with
  | [] => Some (h, [])
  | l :: rest =>
      match memo !! l with
      | Some l' =>
          '(h', rest') ← deepcopy_rows h memo rest; Some (h', l' :: rest')
      | None =>
          row ← h !! l;
          let l' := fresh (dom h) in
          '(h', rest') ← deepcopy_rows (<[l':=row]> h) (<[l:=l']> memo) rest;
          Some (h', l' :: rest')
      end
  end.

Definition deepcopy (h : store) (g : grid) : option (store * grid) :=
  deepcopy_rows h ∅ g.

(** [g[r][c]] *)
Definition load (h : store) (g : grid) (r c : Z) : option cell :=
  l ← getitem g r; row ← h !! l; getitem row c.

(** [g[r][c] = v] *)
Definition assign (h : store) (g : grid) (r c : Z) (v : cell)
  : option store :=
  l ← getitem g r; row ← h !! l; row' ← setitem row c v;
  Some (<[l:=row']> h).

Definition swap (h : store) (state : grid) (r1 c1 r2 c2 : Z)
  : option (store * grid) :=
  '(h, new_state) ← deepcopy h state;
  v2 ← load h state r2 c2;
  h ← assign h new_state r1 c1 v2;
  v1 ← load h state r1 c1;
  h ← assign h new_state r2 c2 v1;
  Some (h, new_state).

Definition move_right h (state : grid) (r c : Z) := swap h state r c r (c + 1).
Definition move_left h (state : grid) (r c : Z) := swap h state r c r (c - 1).
Definition move_up h (state : grid) (r c : Z) := swap h state r c (r - 1) c.
Definition move_down h (state : grid) (r c : Z) := swap h state r c (r + 1) c.

End Obj.

(** *** print_state, print_solution and run *)

Import PyOut.

(** [str(i) if i else '_']: [None] and 0 are false. *)
Definition show_cell (i : cell) : string :=
  match i with
  | Some v => if v =? 0 then "_" else pretty v
  | None => "_"
  end.

Definition print_state (s : state) (out : list string) : list string :=
  fold_left (λ out row,
    let out := print (String.concat " " (show_cell <$> row)) out in
    print "" out) s out.

(** [while current: stack.append(current.state); current = current.parent]
    (lines 136-138).  A [StateWithParent] is a non-empty tuple, which is
    true; the loop ends at the parent [None]. *)
Fixpoint collect (current : StateWithParent) (stack : list state) : list state :=
  match current with
  | Node st parent =>
      let stack := stack ++ [st] in
      match parent with
      | Some p => collect p stack
      | None => stack
      end
  end.

(** [while len(stack) > 0: ...] (lines 144-147).  Every turn pops a
    state; [fuel] bounds the turns. *)
Fixpoint print_steps (fuel : nat) (stack : list state) (step_number : Z)
    (out : list string) : outcome (list string) :=
  match stack with
  | [] => Returned out
  | _ :: _ =>
      match fuel with
      | O => OutOfFuel
      | S fuel' =>
          let out := print ("===STEP " +:+ pretty step_number +:+ "===") out in
          match pop stack with
          | None => Raised
          | Some (st, stack) =>
              let out := print_state st out in
              print_steps fuel' stack (step_number + 1) out
          end
      end
  end.

(** The steps loop is given as many turns as the stack has states. *)
Definition print_solution (initial_state : state)
    (solution : option StateWithParent) (out : list string)
  : outcome (list string) :=
  match solution with
  | None =>
      let out := print "===NO SOLUTION===" out in
      Returned (print_state initial_state out)
  | Some solution =>
      let stack := collect solution [] in
      let out := print "===START===" out in
      match pop stack with
      | None => Raised
      | Some (st, stack) =>
          let out := print_state st out in
          let step_number := 1 in
          print_steps (length stack) stack step_number out
      end
  end.

(** [fuel] bounds the loop of the generator and the loop of the search. *)
Definition run (shuffle : nat → list Z → list Z) (uuid4 : nat → Z) (fuel : nat)
  : outcome (list string) :=
  match generate_random_problem shuffle fuel with
  | Returned generated_state =>
      match solve_puzzle uuid4 fuel generated_state with
      | Returned solution => print_solution generated_state solution []
      | Raised => Raised
      | OutOfFuel => OutOfFuel
      end
  | Raised => Raised
  | OutOfFuel => OutOfFuel
  end.

End Puzzle.

(** ** 8_queens.py *)

Module Queens.
Import PyList.
Local Open Scope Z_scope.

Definition BOARD_SIZE : Z := 8.

(** The board is mutated in place: its rows live in the store. *)
Abbreviation loc := positive.
Abbreviation store := (gmap positive (list bool)).
Abbreviation board := (list positive).

(** [board[r][c]] *)
Definition load (h : store) (b : board) (r c : Z) : option bool :=
  l ← getitem b r; row ← h !! l; getitem row c.

(** [board[r][c] = v] *)
Definition assign (h : store) (b : board) (r c : Z) (v : bool)
  : option store :=
  l ← getitem b r; row ← h !! l; row' ← setitem row c v;
  Some (<[l:=row']> h).

(** [a and b], where reading [b] may raise and is skipped when [a] is
    false. *)
Definition and_then (a : bool) (b : option bool) : option bool :=
  if a then b else Some false.

Definition is_configuration_valid (h : store) (b : board) : option bool :=
  r ← for_return (range BOARD_SIZE) (λ row_idx,
    for_return (range BOARD_SIZE) (λ col_idx,
      has_queen ← load h b row_idx col_idx;
      if has_queen : bool then
        for_return (range BOARD_SIZE) (λ i,
          same_col ← and_then (negb (i =? row_idx)) (load h b i col_idx);
          if same_col : bool then Some (Some false) else
          same_row ← and_then (negb (i =? col_idx)) (load h b row_idx i);
          if same_row : bool then Some (Some false) else
          if 0 <? i then
            let diagonal_indexes :=
              [ (row_idx - i, col_idx - i);
                (row_idx + i, col_idx + i);
                (row_idx - i, col_idx + i);
                (row_idx + i, col_idx - i) ] in
            for_return diagonal_indexes (λ '(diag_row, diag_col),
              hit ← and_then ((0 <=? diag_row) && (diag_row <? BOARD_SIZE)
                              && (0 <=? diag_col) && (diag_col <? BOARD_SIZE))
                             (load h b diag_row diag_col);
              if hit : bool then Some (Some false) else Some None)
          else Some None)
      else Some None));
  Some (default true r).

(** The loop [for row_idx in range(BOARD_SIZE)] of [backtracking] (lines
    43-61); [self] is the function itself, for the call of line 52. *)
Fixpoint place_rows (self : store → Z → outcome (bool * store))
    (b : board) (col_idx : Z) (row_idxs : list Z) (h : store)
  : outcome (bool * store) :=
  match row_idxs with
  | [] => Returned (false, h)
  | row_idx :: rest =>
      match assign h b row_idx col_idx true with
      | None => Raised
      | Some h =>
          match is_configuration_valid h b with
          | None => Raised
          | Some true =>
              let next_col_idx := col_idx + 1 in
              if next_col_idx >=? BOARD_SIZE then Returned (true, h)
              else
                match self h next_col_idx with
                | Returned (true, h) => Returned (true, h)
                | Returned (false, h) =>
                    match assign h b row_idx col_idx false with
                    | None => Raised
                    | Some h => place_rows self b col_idx rest h
                    end
                | Raised => Raised
                | OutOfFuel => OutOfFuel
                end
          | Some false =>
              match assign h b row_idx col_idx false with
              | None => Raised
              | Some h => place_rows self b col_idx rest h
              end
          end
      end
  end.

(** [fuel] bounds the depth of the recursion. *)
Fixpoint backtracking (fuel : nat) (h : store) (b : board) (col_idx : Z)
  : outcome (bool * store) :=
  match fuel with
  | O => OutOfFuel
  | S fuel' =>
      place_rows (λ h col_idx, backtracking fuel' h b col_idx)
        b col_idx (range BOARD_SIZE) h
  end.

(** [create_board]: eight fresh rows of eight [False]. *)
Fixpoint create_rows (n : nat) (h : store) : store * board :=
  match n with
  | O => (h, [])
  | S n' =>
      let l := fresh (dom h) in
      let '(h', b) :=
        create_rows n' (<[l:=replicate (Z.to_nat BOARD_SIZE) false]> h) in
      (h', l :: b)
  end.

Definition create_board (h : store) : store * board :=
  create_rows (Z.to_nat BOARD_SIZE) h.

(** *** print_board and main *)

Import PyOut.

(** ['Q' if x else '_'] *)
Definition show_queen (x : bool) : string := if x then "Q" else "_".

Definition print_board (h : store) (b : board) (out : list string)
  : option (list string) :=
  for_each (range BOARD_SIZE) (λ row_idx out,
    l ← getitem b row_idx; row ← h !! l;
    let row_str := String.concat " " (show_queen <$> row) in
    Some (print row_str out)) out.

(** The program starts with no board in the store; what [backtracking]
    returns is not looked at. *)
Definition main (fuel : nat) : outcome (list string) :=
  let '(h, board) := create_board ∅ in
  match backtracking fuel h board 0 with
  | Returned (_, h) =>
      match print_board h board [] with
      | Some out => Returned out
      | None => Raised
      end
  | Raised => Raised
  | OutOfFuel => OutOfFuel
  end.

End Queens.

(** ** The vocabulary of the design document *)

Module PuzzleSpec.
Import PyList Puzzle.
Local Open Scope Z_scope.

(** §3: a state is an N×N grid holding every label 1..N²−1 once and the
    empty marker once.  The program fixes N = 3. *)
Definition goal_cells : list cell :=
  [Some 1; Some 2; Some 3; Some 4; Some 5; Some 6; Some 7; Some 8; None].

Definition shape3 (s : state) : Prop :=
  length s = 3%nat ∧ Forall (λ row, length row = 3%nat) s.

Definition valid_state (s : state) : Prop :=
  shape3 s ∧ concat s ≡ₚ goal_cells.

Definition goal_state : state :=
  [[Some 1; Some 2; Some 3]; [Some 4; Some 5; Some 6]; [Some 7; Some 8; None]].
Definition one_move_state : state :=
  [[Some 1; Some 2; Some 3]; [Some 4; Some 5; Some 6]; [Some 7; None; Some 8]].

(** §4.2: the Manhattan distance of label [v] at row [r], column [c] to
    its goal cell, and the sum over the non-empty tiles of a grid. *)
Definition sum_cells (f : Z → Z → cell → Z) (s : state) : Z :=
  foldr Z.add 0
    (imap (λ r row,
       foldr Z.add 0 (imap (λ c x, f (Z.of_nat r) (Z.of_nat c) x) row)) s).

Definition manhattan (N : Z) (r c : Z) (v : Z) : Z :=
  Z.abs (r - (v - 1) / N) + Z.abs (c - (v - 1) mod N).

Definition manhattan_sum (N : Z) (s : state) : Z :=
  sum_cells (λ r c x, match x with
                      | Some v => manhattan N r c v
                      | None => 0
                      end) s.

(** The distance of the empty marker to the bottom right corner, the goal
    cell of the label N². *)
Definition blank_offset (N : Z) (s : state) : Z :=
  sum_cells (λ r c x, match x with
                      | None => manhattan N r c (N * N)
                      | Some _ => 0
                      end) s.

(** §4.5: a pair of positions (i<j) is an inversion when value[i] >
    value[j] and both are real tiles; [empty] is the label that stands for
    the empty marker. *)
Definition is_inversion (empty : Z) (values : list Z) (p : nat * nat) : bool :=
  match values !! p.1, values !! p.2 with
  | Some x, Some y =>
      (p.1 <? p.2)%nat && negb (x =? empty) && negb (y =? empty) && (y <? x)
  | _, _ => false
  end.

Definition inversion_count (empty : Z) (values : list Z) : nat :=
  let positions := seq 0 (length values) in
  length (List.filter (is_inversion empty values)
            (list_prod positions positions)).

(** §4.5: the generator lays a permutation out as a state, the label N²
    standing for the empty marker. *)
Definition layout (values : list Z) : list cell :=
  (λ v, if v =? BOARD_SIZE * BOARD_SIZE then None else Some v) <$> values.

(** What [available_values] holds after the [k]-th reshuffle. *)
Fixpoint draw (shuffle : nat → list Z → list Z) (k : nat) : list Z :=
  match k with
  | O => shuffle 0%nat (range2 1 (BOARD_SIZE * BOARD_SIZE + 1))
  | S k' => shuffle k (draw shuffle k')
  end.

(** §4.3: the four moves of the empty cell, the cell each one targets, and
    its inverse. *)
Inductive direction : Type := Up | Down | Left | Right.

Definition target (d : direction) (r c : Z) : Z * Z :=
  match d with
  | Up => (r - 1, c)
  | Down => (r + 1, c)
  | Left => (r, c - 1)
  | Right => (r, c + 1)
  end.

Definition inverse (d : direction) : direction :=
  match d with Up => Down | Down => Up | Left => Right | Right => Left end.

Definition move_obj (d : direction)
  : Obj.store → Obj.grid → Z → Z → option (Obj.store * Obj.grid) :=
  match d with
  | Up => Obj.move_up | Down => Obj.move_down
  | Left => Obj.move_left | Right => Obj.move_right
  end.

(** The content of the cell at row [p.1], column [p.2], if the grid has
    one there. *)
Definition cell_at (s : state) (p : nat * nat) : option cell :=
  row ← s !! p.1; row !! p.2.

Definition position (r c : Z) : nat * nat := (Z.to_nat r, Z.to_nat c).

(** A move is legal when the cell it starts from and the cell it targets
    both lie on the board. *)
Definition on_board (s : state) (r c : Z) : Prop :=
  0 ≤ r ∧ 0 ≤ c ∧ is_Some (cell_at s (position r c)).

Definition legal (s : state) (d : direction) (r c : Z) : Prop :=
  on_board s r c ∧ on_board s (target d r c).1 (target d r c).2.

(** [s'] is [s] with the contents of the cells [p] and [q] exchanged. *)
Definition exchange (p q x : nat * nat) : nat * nat :=
  if decide (x = q) then p else if decide (x = p) then q else x.

Definition swapped (s s' : state) (p q : nat * nat) : Prop :=
  length <$> s' = length <$> s
  ∧ ∀ x, cell_at s' x = cell_at s (exchange p q x).

(** A store that holds the rows of [one_move_state], and the grid made of
    them. *)
Definition example_store : Obj.store :=
  <[1%positive := [Some 1; Some 2; Some 3]]>
    (<[2%positive := [Some 4; Some 5; Some 6]]>
       (<[3%positive := [Some 7; None; Some 8]]> ∅)).
Definition example_grid : Obj.grid := [1%positive; 2%positive; 3%positive].

(** The 3×3 grids that hold the same cells as [s0], in any arrangement. *)
Definition same_tiles (s0 s : state) : Prop :=
  shape3 s ∧ concat s ≡ₚ concat s0.

(** The grid with the given nine cells, row by row. *)
Definition to_grid (cells : list cell) : state :=
  match cells with
  | [a; b; c; d; e; f; g; h; i] => [[a; b; c]; [d; e; f]; [g; h; i]]
  | _ => []
  end.

(** All of them: the finite universe in which a search from [s0] moves. *)
Definition universe (s0 : state) : gset state :=
  list_to_set (to_grid <$> permutations (concat s0)).

(** §4.5 read backwards: the permutation of the labels that a state lays
    out, the empty marker standing for the label N². *)
Definition labels (s : state) : list Z :=
  default (BOARD_SIZE * BOARD_SIZE) <$> concat s.

Definition solvable_state (s : state) : bool := is_problem_solvable (labels s).

(** The goal with the tiles 7 and 8 exchanged: one inversion. *)
Definition swapped_pair_state : state :=
  [[Some 1; Some 2; Some 3]; [Some 4; Some 5; Some 6]; [Some 8; Some 7; None]].

(** The integer of a version 4 UUID: 128 bits, of which bits 76-79 hold
    the version 4 and bits 62-63 the variant [10]. *)
Definition is_uuid4 (u : Z) : bool :=
  (0 <=? u) && (u <? 2 ^ 128)
  && (Z.land (Z.shiftr u 76) 15 =? 4) && (Z.land (Z.shiftr u 62) 3 =? 2).

(** No two calls of [uuid.uuid4()] return the same token.  (Python orders
    two entries with equal priority and equal token by comparing their
    nodes, which the model of the queue leaves out.) *)
Definition distinct_tokens (uuid4 : nat → Z) : Prop :=
  ∀ i j, uuid4 i = uuid4 j → i = j.

(** Two runs of tokens: each token above, or each below, the ones drawn
    before it. *)
Definition ascending (k : nat) : Z := 2 ^ 78 + 2 ^ 63 + Z.of_nat k.
Definition descending (k : nat) : Z := 2 ^ 78 + 2 ^ 63 + 2 ^ 48 - Z.of_nat k.

(** §4.4: the path cost [g] of a node is the number of moves from the
    root. *)
Definition moves (n : StateWithParent) : Z := Z.of_nat (path_length n) - 1.

(** The sum of the heuristic costs of the states on the path to a node,
    the root left out. *)
Fixpoint accumulated (n : StateWithParent) : option Z :=
  match n with
  | Node _ None => Some 0
  | Node st (Some p) => h ← heuristic_cost st; a ← accumulated p; Some (h + a)
  end.

(** The variables of the loop after [n] turns, if it is still running. *)
Fixpoint run (uuid4 : nat → Z) (n : nat) (cfg : config) : option config :=
  match n with
  | O => Some cfg
  | S n' =>
      match step uuid4 cfg with
      | inl cfg' => run uuid4 n' cfg'
      | inr _ => None
      end
  end.

(** Two runs order their tokens alike. *)
Definition same_order (u1 u2 : nat → Z) : Prop :=
  ∀ i j, (u1 i <? u1 j) = (u2 i <? u2 j).

Definition two_moves_state : state :=
  [[Some 1; Some 2; Some 3]; [Some 4; Some 5; Some 6]; [None; Some 7; Some 8]].
Definition detour_state : state :=
  [[Some 1; Some 2; Some 3]; [Some 4; Some 5; Some 7]; [Some 8; Some 6; None]].
Definition tie_state : state :=
  [[Some 1; Some 2; Some 3]; [Some 4; None; Some 8]; [Some 7; Some 6; Some 5]].

(** *** Notions used in the proofs *)

(** How many elements of [l] satisfy [c]; how many pairs [(i, j)] with [i]
    in [l] and [j] in [L i] satisfy [c]. *)
Definition count {A} (c : A → bool) (l : list A) : nat :=
  length (List.filter c l).

Definition count2 {A B} (c : A → B → bool) (L : A → list B) (l : list A) : nat :=
  length (flat_map (λ i, List.filter (c i) (L i)) l).

(** The condition of line 155. *)
Definition line155 (values : list Z) (size i j : Z) : bool :=
  negb (item values i =? size) && negb (item values j =? size)
  && (item values i >? item values j).

(** The count of [is_problem_solvable] by recursion on the list: [x] is
    out of order with a later [y]. *)
Definition out_of_order (empty x y : Z) : bool :=
  negb (x =? empty) && negb (y =? empty) && (x >? y).

Fixpoint inv (empty : Z) (l : list Z) : nat :=
  match l with
  | [] => 0
  | x :: l' => count (out_of_order empty x) l' + inv empty l'
  end.

Definition is_blank (x : cell) : bool := if x is None then true else false.

(** What the loop pushes for the node [cur] taken from the frontier with
    priority [pc], given the visited set [V]. *)
Definition pushed (acts : list action) (cur : StateWithParent) (pc : Z)
    (V : gset state) (e : entry) : Prop :=
  ∃ act st h, act ∈ acts ∧ act (node_state cur) = Some st ∧ (st ∉ V)
              ∧ heuristic_cost st = Some h ∧ h ≠ 0
              ∧ priority e = h + pc ∧ entry_node e = Node st (Some cur).

(** A property of the states that the moves keep holds all over the
    frontier. *)
Definition frontier_all (P : state → Prop) (cfg : config) : Prop :=
  Forall (λ e : entry, P (node_state (entry_node e))) (queue cfg).

(** The frontier stays among the arrangements of the cells of [s0]. *)
Definition frontier_in_universe (s0 : state) (cfg : config) : Prop :=
  Forall (λ e : entry, same_tiles s0 (node_state (entry_node e))) (queue cfg).

(** The two measures of the termination proof: the states of the universe
    not yet visited, and the frontier entries whose state is visited. *)
Definition is_visited (V : gset state) (e : entry) : bool :=
  bool_decide (node_state (entry_node e) ∈ V).

Definition unvisited (s0 : state) (cfg : config) : nat :=
  size (universe s0 ∖ visited_states cfg).

Definition stale (cfg : config) : nat :=
  count (is_visited (visited_states cfg)) (queue cfg).

(** Two entries pushed at the same moment of two runs. *)
Definition entry_rel (u1 u2 : nat → Z) (e1 e2 : entry) : Prop :=
  priority e1 = priority e2 ∧ entry_node e1 = entry_node e2
  ∧ ∃ i, token e1 = u1 i ∧ token e2 = u2 i.

Definition config_rel (u1 u2 : nat → Z) (c1 c2 : config) : Prop :=
  Forall2 (entry_rel u1 u2) (queue c1) (queue c2)
  ∧ visited_states c1 = visited_states c2 ∧ calls c1 = calls c2.

(** The priority of an entry is the accumulated heuristic cost of its
    node. *)
Definition accumulates (e : entry) : Prop :=
  accumulated (entry_node e) = Some (priority e).

(** *** The moves and the paths of the search *)

(** One move of the program: an action that [get_available_actions]
    offers for [s], applied to [s]. *)
Definition move (s s' : state) : Prop :=
  ∃ acts act, get_available_actions s = Some acts ∧ act ∈ acts ∧ act s = Some s'.

(** Every state of the list is one move from the state before it. *)
Fixpoint linked (p : list state) : Prop :=
  match p with
  | a :: (b :: _) as rest => move a b ∧ linked rest
  | _ => True
  end.

(** The cells next to ([r], [c]) that lie on the board, in the order up,
    down, left, right. *)
Definition neighbours (r c : Z) : list (Z * Z) :=
  List.filter
    (λ p, (0 <=? p.1) && (p.1 <? BOARD_SIZE) && (0 <=? p.2) && (p.2 <? BOARD_SIZE))
    [(r - 1, c); (r + 1, c); (r, c - 1); (r, c + 1)].

(** The actions that exchange the cell ([r], [c]) with each of its
    neighbours. *)
Definition exchanges (r c : Z) : list action :=
  (λ p s, swap s r c p.1 p.2) <$> neighbours r c.

(** A grid without [None]. *)
Definition full_state : state :=
  [[Some 1; Some 2; Some 3]; [Some 4; Some 5; Some 6]; [Some 7; Some 8; Some 9]].

(** A shuffle that permutes: the first value goes to the end. *)
Definition rotation (k : nat) (l : list Z) : list Z := rotate 1 l.

(** *** What the program prints *)

(** The lines that show a state: for every row its cells, then an empty
    line. *)
Definition state_lines (s : state) : list string :=
  s ≫= λ row, [String.concat " " (show_cell <$> row); ""].

(** The lines that show a path: the first state under the heading START,
    the [k]-th state after it under the heading STEP [k]. *)
Definition steps_lines (first : Z) (path : list state) : list string :=
  concat (imap (λ i st,
    ("===STEP " +:+ pretty (first + Z.of_nat i) +:+ "===") :: state_lines st) path).

Definition path_lines (path : list state) : list string :=
  match path with
  | [] => []
  | root :: rest => "===START===" :: state_lines root ++ steps_lines 1 rest
  end.

(** *** Notions used in the proofs about the search *)

(** The states of the frontier. *)
Definition frontier (cfg : config) : list state :=
  (λ e : entry, node_state (entry_node e)) <$> queue cfg.

(** What holds of every node of the frontier in a search from [s0] with
    the visited set [V]: its path starts at [s0], goes by moves through
    valid states without passing a state twice, and all its states but the
    last are visited. *)
Definition good (s0 : state) (V : gset state) (n : StateWithParent) : Prop :=
  last (chain n) = Some s0
  ∧ linked (reverse (chain n))
  ∧ NoDup (chain n)
  ∧ Forall valid_state (chain n)
  ∧ (∀ st, st ∈ tail (chain n) → st ∈ V).

Definition all_good (s0 : state) (cfg : config) : Prop :=
  Forall (λ e : entry, good s0 (visited_states cfg) (entry_node e)) (queue cfg).

(** Every move from a visited state leads to a visited state or to a
    state of the frontier, and [s0] is visited or in the frontier; the
    goal is neither. *)
Definition closed (s0 : state) (cfg : config) : Prop :=
  (s0 ∈ visited_states cfg ∨ s0 ∈ frontier cfg)
  ∧ (∀ v v', v ∈ visited_states cfg → move v v' →
       v' ∈ visited_states cfg ∨ v' ∈ frontier cfg)
  ∧ (goal_state ∉ visited_states cfg)
  ∧ (goal_state ∉ frontier cfg)
  ∧ Forall valid_state (frontier cfg).

End PuzzleSpec.

(** ** The vocabulary for 8_queens.py *)

Module QueensSpec.
Import PyList Queens.
Local Open Scope Z_scope.

(** A board of the store: eight rows of eight cells each. *)
Definition well_formed (h : store) (b : board) : Prop :=
  length b = 8%nat ∧ Forall (λ l, length <$> h !! l = Some 8%nat) b.

(** No queen stands in column [col] or in a column to its right. *)
Definition empty_from (h : store) (b : board) (col : Z) : Prop :=
  Forall (λ r, Forall (λ c, load h b r c = Some false) (range2 col BOARD_SIZE))
    (range BOARD_SIZE).

(** The board of [create_board] with queens put on the given cells. *)
Definition board_with (queens : list (Z * Z)) : store * board :=
  let '(h, b) := create_board ∅ in
  (foldr (λ '(r, c) h, default h (assign h b r c true)) h queens, b).

(** Two queens attack each other in column 0, a third stands in column 7. *)
Definition crowded : store * board := board_with [(0, 0); (1, 0); (3, 7)].

(** Two queens attack each other in column 0; the other columns are
    empty. *)
Definition blocked : store * board := board_with [(0, 0); (1, 0)].

(** A queen stands in the corner; the other cells are empty. *)
Definition cornered : store * board := board_with [(0, 0)].

(** *** Queens and attacks *)

(** A queen stands on the cell. *)
Definition queen (h : store) (b : board) (r c : Z) : Prop :=
  load h b r c = Some true.

(** Two different cells on a common row, column or diagonal. *)
Definition attacks (r1 c1 r2 c2 : Z) : Prop :=
  (r1, c1) ≠ (r2, c2)
  ∧ (r1 = r2 ∨ c1 = c2 ∨ Z.abs (r1 - r2) = Z.abs (c1 - c2)).

(** No two queens of the board attack each other. *)
Definition safe (h : store) (b : board) : Prop :=
  ∀ r1 c1 r2 c2, 0 ≤ r1 < 8 → 0 ≤ c1 < 8 → 0 ≤ r2 < 8 → 0 ≤ c2 < 8 →
    queen h b r1 c1 → queen h b r2 c2 → ¬ attacks r1 c1 r2 c2.

(** The board of [h'] is the board of [h] on the columns left of [col],
    and the objects outside the board are those of [h]. *)
Definition keeps_left (h : store) (b : board) (col : Z) (h' : store) : Prop :=
  well_formed h' b
  ∧ (∀ r c, 0 ≤ r < 8 → 0 ≤ c < col → load h' b r c = load h b r c)
  ∧ (∀ l, l ∉ b → h' !! l = h !! l).

(** Every column from [col] on holds a queen. *)
Definition filled_from (h : store) (b : board) (col : Z) : Prop :=
  ∀ c, col ≤ c < 8 → ∃ r, 0 ≤ r < 8 ∧ queen h b r c.

(** [h2] completes the placement of [h]: the same cells left of [col], a
    queen in every column from [col] on, and no two queens attacking each
    other. *)
Definition completes (h : store) (b : board) (col : Z) (h2 : store) : Prop :=
  well_formed h2 b ∧ safe h2 b
  ∧ (∀ r c, 0 ≤ r < 8 → 0 ≤ c < col → load h2 b r c = load h b r c)
  ∧ filled_from h2 b col.

(** *** The order of the search *)

(** [h1] and [h2] hold the same cells in the columns from [lo] up to, not
    including, [hi]. *)
Definition same_columns (h1 h2 : store) (b : board) (lo hi : Z) : Prop :=
  ∀ r c, 0 ≤ r < 8 → lo ≤ c < hi → load h1 b r c = load h2 b r c.

(** [h1] comes before [h2] in the order of the search from column [col]:
    in the first column where they differ, the queen of [h1] stands in a
    lower row. *)
Definition before (h1 h2 : store) (b : board) (col : Z) : Prop :=
  ∃ c r1 r2, col ≤ c < 8 ∧ same_columns h1 h2 b col c
             ∧ 0 ≤ r1 < 8 ∧ 0 ≤ r2 < 8
             ∧ queen h1 b r1 c ∧ queen h2 b r2 c ∧ r1 < r2.

(** [h'] is the first completion of the placement of [h]. *)
Definition first_of (h : store) (b : board) (col : Z) (h' : store) : Prop :=
  ∀ h2, completes h b col h2 →
    same_columns h' h2 b col 8 ∨ before h' h2 b col.

(** *** Notions used in the proofs *)

(** What a call of [backtracking] at [col] that returns [res] leaves. *)
Definition post (h : store) (b : board) (col : Z) (res : bool) (h' : store)
  : Prop :=
  keeps_left h b col h' ∧ (res = true → safe h' b ∧ filled_from h' b col).

(** The parts of [is_configuration_valid]: the test of one diagonal cell
    (line 37), the diagonal tests at distance [i] (lines 28-38), the
    tests at [i] (lines 22-38), the tests for one cell (lines 19-38). *)
Definition check_diag (h : store) (b : board) (p : Z * Z)
  : option (option bool) :=
  let '(diag_row, diag_col) := p in
  hit ← and_then ((0 <=? diag_row) && (diag_row <? BOARD_SIZE)
                  && (0 <=? diag_col) && (diag_col <? BOARD_SIZE))
                 (load h b diag_row diag_col);
  if hit : bool then Some (Some false) else Some None.

Definition check_diags (h : store) (b : board) (row_idx col_idx i : Z)
  : option (option bool) :=
  if 0 <? i then
    let diagonal_indexes :=
      [ (row_idx - i, col_idx - i);
        (row_idx + i, col_idx + i);
        (row_idx - i, col_idx + i);
        (row_idx + i, col_idx - i) ] in
    for_return diagonal_indexes (check_diag h b)
  else Some None.

Definition check_i (h : store) (b : board) (row_idx col_idx i : Z)
  : option (option bool) :=
  same_col ← and_then (negb (i =? row_idx)) (load h b i col_idx);
  if same_col : bool then Some (Some false) else
  same_row ← and_then (negb (i =? col_idx)) (load h b row_idx i);
  if same_row : bool then Some (Some false) else
  check_diags h b row_idx col_idx i.

Definition check_cell (h : store) (b : board) (row_idx col_idx : Z)
  : option (option bool) :=
  has_queen ← load h b row_idx col_idx;
  if has_queen : bool then
    for_return (range BOARD_SIZE) (check_i h b row_idx col_idx)
  else Some None.

End QueensSpec.

(** ** Properties of Python lists *)

Module PyListFacts.
Import PyList.
Local Open Scope Z_scope.

(** *** Python subscripts in range *)

Lemma norm_index_nat (len i : nat) :
  (i < len)%nat → norm_index len (Z.of_nat i) = Some i.
Proof.
  intros Hi. unfold norm_index.
  assert ((0 <=? Z.of_nat i) && (Z.of_nat i <? Z.of_nat len) = true) as ->
    by (apply andb_true_iff; split; [apply Z.leb_le|apply Z.ltb_lt]; lia).
  by rewrite Nat2Z.id.
Qed.

Lemma getitem_nat {A} (l : list A) (i : nat) :
  (i < length l)%nat → getitem l (Z.of_nat i) = l !! i.
Proof. intros Hi. unfold getitem. by rewrite norm_index_nat. Qed.

Lemma norm_index_lt (len : nat) (i : Z) (p : nat) :
  norm_index len i = Some p → (p < len)%nat.
Proof.
  unfold norm_index.
  destruct ((0 <=? i) && (i <? Z.of_nat len)) eqn:E1.
  - apply andb_true_iff in E1 as [?%Z.leb_le ?%Z.ltb_lt]. intros [= <-]. lia.
  - destruct ((- Z.of_nat len <=? i) && (i <? 0)) eqn:E2; [|done].
    apply andb_true_iff in E2 as [?%Z.leb_le ?%Z.ltb_lt]. intros [= <-]. lia.
Qed.

Lemma norm_index_nonneg (len : nat) (i : Z) :
  0 ≤ i → (Z.to_nat i < len)%nat → norm_index len i = Some (Z.to_nat i).
Proof.
  intros ??. rewrite <- (Z2Nat.id i) at 1 by done. by apply norm_index_nat.
Qed.

(** *** Ranges and loops *)

Lemma range2_seq (lo : Z) (n : nat) :
  range2 lo (lo + Z.of_nat n) = (λ k : nat, lo + Z.of_nat k) <$> seq 0 n.
Proof.
  unfold range2.
  by replace (lo + Z.of_nat n - lo) with (Z.of_nat n) by lia; rewrite Nat2Z.id.
Qed.

Lemma length_range2 (lo hi : Z) : length (range2 lo hi) = Z.to_nat (hi - lo).
Proof. unfold range2. by rewrite length_fmap, length_seq. Qed.

Lemma elem_of_range2 (lo hi x : Z) : x ∈ range2 lo hi ↔ lo ≤ x < hi.
Proof.
  unfold range2. rewrite list_elem_of_fmap. split.
  - intros (k & -> & Hk%list_elem_of_In%in_seq). lia.
  - intros Hx. exists (Z.to_nat (x - lo)). split; [lia|].
    apply list_elem_of_In, in_seq. lia.
Qed.

Lemma elem_of_range (n x : Z) : x ∈ range n ↔ 0 ≤ x < n.
Proof. apply elem_of_range2. Qed.

Lemma for_return_is_Some {X R} (xs : list X) (body : X → option (option R)) :
  (∀ x, x ∈ xs → is_Some (body x)) → is_Some (for_return xs body).
Proof.
  induction xs as [|x xs IH]; intros H; simpl; [by eexists|].
  destruct (H x) as [r Hr]; [by left|]. rewrite Hr. simpl.
  destruct r; [by eexists|].
  apply IH. intros y Hy. apply H. by right.
Qed.

(** *** Loops that return *)

Lemma for_return_Some_inv {X R} (xs : list X) (body : X → option (option R)) (v : R) :
  for_return xs body = Some (Some v) → ∃ x, x ∈ xs ∧ body x = Some (Some v).
Proof.
  induction xs as [|x xs IH]; simpl; [done|].
  destruct (body x) as [[w|]|] eqn:E; simpl; [| |done].
  - intros [= ->]. exists x. split; [by left|done].
  - intros (y & Hy & Hb)%IH. exists y. split; [by right|done].
Qed.

Lemma for_return_None_inv {X R} (xs : list X) (body : X → option (option R)) :
  for_return xs body = Some None → ∀ x, x ∈ xs → body x = Some None.
Proof.
  induction xs as [|x xs IH]; simpl; [by intros _ y ?%elem_of_nil|].
  destruct (body x) as [[w|]|] eqn:E; simpl; [done| |done].
  intros H y [->|Hy]%elem_of_cons; [done|by apply IH].
Qed.

(** *** pop *)

Lemma pop_snoc {A} (l : list A) (x : A) : pop (l ++ [x]) = Some (x, l).
Proof. unfold pop. rewrite reverse_snoc. by rewrite reverse_involutive. Qed.

Lemma pop_reverse_cons {A} (l : list A) (x : A) :
  pop (reverse (x :: l)) = Some (x, reverse l).
Proof. rewrite reverse_cons. apply pop_snoc. Qed.

End PyListFacts.

(** ** Properties of 8_puzzle.py *)

Module PuzzleFacts.
Import PyList PyListFacts Puzzle PuzzleSpec.
Local Open Scope Z_scope.

(** *** heuristic_cost *)

Lemma shape3_inv (s : state) :
  shape3 s → ∃ a b c d e f g h i, s = [[a; b; c]; [d; e; f]; [g; h; i]].
Proof.
  intros [Hlen Hrows].
  destruct s as [|r0 [|r1 [|r2 [|]]]]; try discriminate.
  apply Forall_cons in Hrows as [H0 Hrows].
  apply Forall_cons in Hrows as [H1 Hrows].
  apply Forall_cons in Hrows as [H2 _].
  destruct r0 as [|a [|b [|c [|]]]]; try discriminate.
  destruct r1 as [|d [|e [|f [|]]]]; try discriminate.
  destruct r2 as [|g [|h [|i [|]]]]; try discriminate.
  by exists a, b, c, d, e, f, g, h, i.
Qed.

Lemma goal_cells_NoDup : NoDup goal_cells.
Proof. apply (bool_decide_unpack _). by vm_compute. Qed.

Lemma heuristic_cost_cells (a b c d e f g h i : cell) :
  heuristic_cost [[a; b; c]; [d; e; f]; [g; h; i]] =
  Some (0 + distance 0 0 a + distance 0 1 b + distance 0 2 c
          + distance 1 0 d + distance 1 1 e + distance 1 2 f
          + distance 2 0 g + distance 2 1 h + distance 2 2 i).
Proof. reflexivity. Qed.

Lemma sum_cells_cells (F : Z → Z → cell → Z) (a b c d e f g h i : cell) :
  sum_cells F [[a; b; c]; [d; e; f]; [g; h; i]] =
  (F 0 0 a + (F 0 1 b + (F 0 2 c + 0)))
  + ((F 1 0 d + (F 1 1 e + (F 1 2 f + 0)))
     + ((F 2 0 g + (F 2 1 h + (F 2 2 i + 0))) + 0)).
Proof. reflexivity. Qed.

Lemma distance_tile (r c : Z) (v : Z) :
  1 ≤ v → distance r c (Some v) = manhattan BOARD_SIZE r c v.
Proof.
  intros Hv. unfold distance, manhattan, tile_value, BOARD_SIZE.
  assert ((v =? 0) || (v <? 0) = false) as ->
    by (apply orb_false_iff; split; [apply Z.eqb_neq|apply Z.ltb_ge]; lia).
  rewrite Z.quot_div_nonneg by lia.
  rewrite (Z.mod_eq (v - 1) 3) by lia. lia.
Qed.

Lemma distance_blank (r c : Z) :
  distance r c None = manhattan BOARD_SIZE r c (BOARD_SIZE * BOARD_SIZE).
Proof.
  unfold distance, manhattan, tile_value, BOARD_SIZE.
  change (3 * 3 - 1) with 8. change (8 ÷ 3) with 2. change (8 / 3) with 2.
  change (8 `mod` 3) with 2. lia.
Qed.

Lemma valid_state_cells (s : state) (x : cell) :
  valid_state s → x ∈ concat s → x = None ∨ ∃ v, x = Some v ∧ 1 ≤ v ≤ 8.
Proof.
  intros [_ Hp] Hx. rewrite Hp in Hx. unfold goal_cells in Hx.
  repeat (apply elem_of_cons in Hx as [->|Hx]; [right; eexists; split; [done|lia]|]).
  apply elem_of_cons in Hx as [->|Hx]; [by left|]. by apply elem_of_nil in Hx.
Qed.

Lemma cell_distance_split (r c : Z) (x : cell) :
  (x = None ∨ ∃ v, x = Some v ∧ 1 ≤ v ≤ 8) →
  distance r c x =
  match x with Some v => manhattan BOARD_SIZE r c v | None => 0 end
  + match x with
    | None => manhattan BOARD_SIZE r c (BOARD_SIZE * BOARD_SIZE)
    | Some _ => 0
    end.
Proof.
  intros [->|(v & -> & Hv)].
  - rewrite distance_blank. lia.
  - rewrite distance_tile by lia. lia.
Qed.

(** C3, counterexample.  On the valid grid that is one move from the goal
    the design document's sum is 1 (tile 8 is one column off, the empty
    marker counts 0), and [heuristic_cost] returns 2. *)
Lemma heuristic_cost_counts_the_blank :
  valid_state one_move_state
  ∧ heuristic_cost one_move_state = Some 2
  ∧ manhattan_sum BOARD_SIZE one_move_state = 1.
Proof.
  split; [|split]; [|reflexivity..].
  split; [by repeat constructor|].
  apply (bool_decide_unpack _). by vm_compute.
Qed.

(** C3, as amended.  On every valid 3×3 grid [heuristic_cost] returns the
    sum over the tiles of the Manhattan distance to the goal cell at row
    [(v-1) div 3], column [(v-1) mod 3], plus the Manhattan distance of the
    empty marker to the goal cell of label 9, the bottom right corner: the
    code replaces the empty marker by [BOARD_SIZE * BOARD_SIZE] and counts
    it as a tile. *)
Theorem heuristic_cost_manhattan (s : state) :
  valid_state s →
  heuristic_cost s
  = Some (manhattan_sum BOARD_SIZE s + blank_offset BOARD_SIZE s).
Proof.
  intros Hv. destruct (shape3_inv s (proj1 Hv)) as (a&b&c&d&e&f&g&h&i&->).
  rewrite heuristic_cost_cells. f_equal.
  assert (Forall (λ x, x = None ∨ ∃ v, x = Some v ∧ 1 ≤ v ≤ 8)
            [a; b; c; d; e; f; g; h; i]) as HF
    by (apply Forall_forall; intros x Hx; by apply (valid_state_cells _ x Hv)).
  repeat (apply Forall_cons in HF as [? HF]).
  rewrite !cell_distance_split by assumption.
  unfold manhattan_sum, blank_offset. rewrite !sum_cells_cells. lia.
Qed.

Lemma heuristic_cost_manhattan_witness :
  heuristic_cost one_move_state
  = Some (manhattan_sum BOARD_SIZE one_move_state
          + blank_offset BOARD_SIZE one_move_state).
Proof.
  apply heuristic_cost_manhattan.
  split; [by repeat constructor|].
  apply (bool_decide_unpack _). by vm_compute.
Defined.

(** *** Counting loops *)

Lemma count_app {A} (c : A → bool) (l1 l2 : list A) :
  count c (l1 ++ l2) = (count c l1 + count c l2)%nat.
Proof. unfold count. by rewrite List.filter_app, length_app. Qed.

Lemma count_fmap {A B} (c : B → bool) (f : A → B) (l : list A) :
  count c (f <$> l) = count (c ∘ f) l.
Proof.
  unfold count. induction l as [|x l IH]; [done|].
  rewrite fmap_cons. cbn [List.filter]. change ((c ∘ f) x) with (c (f x)).
  destruct (c (f x)); cbn [length]; by rewrite IH.
Qed.

Lemma count_ext {A} (c d : A → bool) (l : list A) :
  (∀ x, x ∈ l → c x = d x) → count c l = count d l.
Proof.
  intros H. unfold count. f_equal. apply List.filter_ext_in.
  intros x Hx. apply H. by apply list_elem_of_In.
Qed.

Lemma count_none {A} (c : A → bool) (l : list A) :
  (∀ x, x ∈ l → c x = false) → count c l = 0%nat.
Proof.
  intros H. rewrite (count_ext c (λ _, false)) by done.
  unfold count. clear H. induction l; simpl; auto.
Qed.

Lemma count2_cons {A B} (c : A → B → bool) (L : A → list B) x l :
  count2 c L (x :: l) = (count (c x) (L x) + count2 c L l)%nat.
Proof. unfold count2, count. simpl. by rewrite length_app. Qed.

Lemma fold_left_count {A} (c : A → bool) (l : list A) (a : Z) :
  fold_left (λ inv x, if c x then inv + 1 else inv) l a
  = a + Z.of_nat (count c l).
Proof.
  unfold count. revert a. induction l as [|x l IH]; intros a; simpl; [lia|].
  rewrite IH. destruct (c x); simpl length; lia.
Qed.

Lemma fold_left_count2 {A B} (c : A → B → bool) (L : A → list B)
    (l : list A) (a : Z) :
  fold_left (λ inv i,
    fold_left (λ inv j, if c i j then inv + 1 else inv) (L i) inv) l a
  = a + Z.of_nat (count2 c L l).
Proof.
  revert a. induction l as [|x l IH]; intros a.
  - simpl. unfold count2. simpl. lia.
  - simpl fold_left. rewrite IH, fold_left_count, count2_cons. lia.
Qed.

Lemma count_list_prod {A B} (c : A * B → bool) (l1 : list A) (l2 : list B) :
  count c (list_prod l1 l2) = count2 (λ i j, c (i, j)) (λ _, l2) l1.
Proof.
  induction l1 as [|x l1 IH]; [done|].
  simpl list_prod. rewrite count_app, count2_cons, IH. f_equal.
  apply (count_fmap c (pair x) l2).
Qed.

Lemma count2_fmap {A A' B} (c : A' → B → bool) (L : A' → list B)
    (f : A → A') (l : list A) :
  count2 c L (f <$> l) = count2 (λ i, c (f i)) (λ i, L (f i)) l.
Proof.
  induction l as [|x l IH]; [done|].
  rewrite fmap_cons, !count2_cons, IH. done.
Qed.

Lemma count2_ext {A B B'} (c : A → B → bool) (d : A → B' → bool)
    (L : A → list B) (M : A → list B') (l : list A) :
  (∀ i, i ∈ l → count (c i) (L i) = count (d i) (M i)) →
  count2 c L l = count2 d M l.
Proof.
  induction l as [|x l IH]; intros H; [done|].
  rewrite !count2_cons, IH, H; [done|left|].
  intros i Hi. apply H. by right.
Qed.

Lemma even_of_nat (n : nat) : Z.even (Z.of_nat n) = Nat.even n.
Proof.
  induction n as [|n IH]; [done|].
  rewrite Nat2Z.inj_succ, Z.even_succ, Nat.even_succ.
  by rewrite <- Z.negb_even, <- Nat.negb_even, IH.
Qed.

Lemma is_problem_solvable_count (values : list Z) :
  let size := Z.of_nat (length values) in
  is_problem_solvable values
  = Nat.even (count2 (line155 values size) (λ i, range2 (i + 1) size) (range size)).
Proof.
  intros size. unfold is_problem_solvable. fold size.
  change (fold_left _ (range size) 0)
    with (fold_left (λ inv i, fold_left (λ inv j,
            if line155 values size i j then inv + 1 else inv)
            (range2 (i + 1) size) inv) (range size) 0).
  rewrite fold_left_count2, Z.add_0_l.
  generalize (count2 (line155 values size) (λ i, range2 (i + 1) size) (range size)).
  intros n. by rewrite <- Zeven_mod, even_of_nat.
Qed.

Lemma item_nat (values : list Z) (j : nat) (y : Z) :
  values !! j = Some y → item values (Z.of_nat j) = y.
Proof.
  intros Hj. unfold item. rewrite getitem_nat, Hj; [done|].
  by eapply lookup_lt_Some.
Qed.

(** The inner loop at row [i] counts the inversions [(i, j)]. *)
Lemma count_row (values : list Z) (i : nat) :
  (i < length values)%nat →
  count (λ j, is_inversion (Z.of_nat (length values)) values (i, j))
        (seq 0 (length values))
  = count (line155 values (Z.of_nat (length values)) (Z.of_nat i))
          (range2 (Z.of_nat i + 1) (Z.of_nat (length values))).
Proof.
  intros Hi. set (n := length values) in *.
  assert (seq 0 n = seq 0 (S i) ++ seq (S i) (n - S i)) as ->
    by (rewrite <- seq_app; f_equal; lia).
  rewrite count_app, count_none, Nat.add_0_l.
  2:{ intros j Hj%list_elem_of_In%in_seq. unfold is_inversion; simpl.
      destruct (values !! i), (values !! j); try done.
      by replace (i <? j)%nat with false by (symmetry; apply Nat.ltb_ge; lia). }
  assert (range2 (Z.of_nat i + 1) (Z.of_nat n)
          = (λ k : nat, Z.of_nat i + 1 + Z.of_nat k) <$> seq 0 (n - S i)) as ->
    by (rewrite <- range2_seq; f_equal; lia).
  rewrite count_fmap.
  assert (seq (S i) (n - S i) = Nat.add (S i) <$> seq 0 (n - S i)) as ->
    by (rewrite fmap_add_seq; f_equal; lia).
  rewrite count_fmap.
  apply count_ext. intros k Hk%list_elem_of_In%in_seq.
  unfold compose, is_inversion, line155; simpl.
  destruct (lookup_lt_is_Some_2 values i) as [x Hx]; [lia|].
  destruct (lookup_lt_is_Some_2 values (S (i + k))) as [y Hy]; [lia|].
  rewrite Hx, Hy, (item_nat _ _ _ Hx).
  replace (Z.of_nat i + 1 + Z.of_nat k) with (Z.of_nat (S (i + k))) by lia.
  rewrite (item_nat _ _ _ Hy).
  replace (i <? S (i + k))%nat with true by (symmetry; apply Nat.ltb_lt; lia).
  by rewrite Z.gtb_ltb.
Qed.

Lemma is_problem_solvable_inversions (values : list Z) :
  is_problem_solvable values
  = Nat.even (inversion_count (Z.of_nat (length values)) values).
Proof.
  rewrite is_problem_solvable_count. cbv zeta. f_equal.
  unfold inversion_count. cbv zeta.
  change (length (List.filter ?c ?l)) with (count c l).
  rewrite count_list_prod.
  assert (range (Z.of_nat (length values))
          = (λ k : nat, 0 + Z.of_nat k) <$> seq 0 (length values)) as ->
    by (unfold range; rewrite <- range2_seq; f_equal; lia).
  rewrite count2_fmap.
  symmetry. apply count2_ext. intros i Hi%list_elem_of_In%in_seq.
  rewrite Z.add_0_l. apply count_row. lia.
Qed.

(** *** generate_random_problem *)

Lemma reshuffle_returned shuffle (fuel k : nat) (l v : list Z) :
  (∀ k l, shuffle k l ≡ₚ l) →
  reshuffle shuffle fuel k l = Returned v →
  is_problem_solvable v = true ∧ v ≡ₚ l.
Proof.
  intros Hsh. revert k l. induction fuel as [|fuel IH]; intros k l; simpl.
  - destruct (is_problem_solvable l) eqn:E; [|done]. by intros [= <-].
  - destruct (is_problem_solvable l) eqn:E; [by intros [= <-]|].
    intros [? ?]%IH. split; [done|]. by etrans.
Qed.

Lemma reshuffle_draw shuffle (fuel j : nat) :
  is_problem_solvable (draw shuffle (j + fuel)) = true →
  ∃ v, reshuffle shuffle fuel (S j) (draw shuffle j) = Returned v.
Proof.
  revert j. induction fuel as [|fuel IH]; intros j Hs; simpl.
  - rewrite Nat.add_0_r in Hs. rewrite Hs. eauto.
  - destruct (is_problem_solvable (draw shuffle j)); [eauto|].
    apply (IH (S j)). by rewrite Nat.add_succ_comm.
Qed.

Lemma fill_state_nine (values : list Z) :
  length values = 9%nat →
  ∃ s, fill_state values = Some s ∧ concat s = layout values ∧ shape3 s.
Proof.
  intros Hlen.
  destruct values as [|a [|b [|c [|d [|e [|f [|g [|h [|i [|]]]]]]]]]];
    try discriminate.
  eexists. split; [reflexivity|]. split; [reflexivity|].
  split; [done|]. by repeat constructor.
Qed.

(** C7.  On a permutation of the labels 1..N², [is_problem_solvable]
    answers true exactly when the number of pairs (i<j) with value[i] >
    value[j], both different from the label N² of the empty marker, is
    even.  Whatever [generate_random_problem] returns is the layout of a
    permutation of 1..9 on which [is_problem_solvable] is true, and it
    does return once some draw is solvable. *)
Theorem solvable_iff_even_inversions (N : Z) (values : list Z)
    (shuffle : nat → list Z → list Z) :
  values ≡ₚ range2 1 (N * N + 1) →
  (∀ k l, shuffle k l ≡ₚ l) →
  is_problem_solvable values = Nat.even (inversion_count (N * N) values)
  ∧ (∀ fuel s, generate_random_problem shuffle fuel = Returned s →
       ∃ perm, perm ≡ₚ range2 1 (BOARD_SIZE * BOARD_SIZE + 1)
               ∧ is_problem_solvable perm = true
               ∧ fill_state perm = Some s ∧ concat s = layout perm)
  ∧ (∀ k, is_problem_solvable (draw shuffle k) = true →
       ∃ s, generate_random_problem shuffle k = Returned s).
Proof.
  intros Hperm Hsh. split; [|split].
  - rewrite is_problem_solvable_inversions. do 2 f_equal.
    rewrite Hperm, length_range2. nia.
  - intros fuel s. unfold generate_random_problem.
    destruct (reshuffle _ _ _ _) as [v| |] eqn:Hr; try done.
    apply (reshuffle_returned _ _ _ _ _ Hsh) in Hr as [Hs Hp].
    rewrite Hsh in Hp.
    destruct (fill_state_nine v) as (s' & Hf & Hc & _);
      [by rewrite Hp, length_range2|].
    rewrite Hf. intros [= <-]. by exists v.
  - intros k Hk. unfold generate_random_problem.
    destruct (reshuffle_draw shuffle k 0 Hk) as [v Hv].
    change (draw shuffle 0) with (shuffle 0%nat (range2 1 (BOARD_SIZE * BOARD_SIZE + 1))) in Hv.
    rewrite Hv.
    pose proof (reshuffle_returned _ _ _ _ _ Hsh Hv) as [_ Hp]. rewrite Hsh in Hp.
    destruct (fill_state_nine v) as (s' & Hf & _);
      [by rewrite Hp, length_range2|].
    rewrite Hf. eauto.
Qed.

Lemma solvable_iff_even_inversions_witness :
  is_problem_solvable [1; 2; 3; 4; 5; 9; 7; 8; 6]
  = Nat.even (inversion_count (3 * 3) [1; 2; 3; 4; 5; 9; 7; 8; 6])
  ∧ (∀ fuel s, generate_random_problem (λ _ l, reverse l) fuel = Returned s →
       ∃ perm, perm ≡ₚ range2 1 (BOARD_SIZE * BOARD_SIZE + 1)
               ∧ is_problem_solvable perm = true
               ∧ fill_state perm = Some s ∧ concat s = layout perm)
  ∧ (∀ k, is_problem_solvable (draw (λ _ l, reverse l) k) = true →
       ∃ s, generate_random_problem (λ _ l, reverse l) k = Returned s).
Proof.
  apply (solvable_iff_even_inversions 3 [1; 2; 3; 4; 5; 9; 7; 8; 6]
           (λ _ l, reverse l)).
  - apply (bool_decide_unpack _). by vm_compute.
  - intros _ l. apply reverse_Permutation.
Defined.

(** *** Moves on values *)

Lemma get_cell_on_board (s : state) (r c : Z) :
  on_board s r c → get_cell s r c = cell_at s (position r c).
Proof.
  intros (Hr & Hc & [x Hx]). unfold get_cell, cell_at, getitem, position in *.
  simpl in *. destruct (s !! Z.to_nat r) as [row|] eqn:Hrow; [|done].
  simpl in Hx. rewrite norm_index_nonneg by (done || by eapply lookup_lt_Some).
  simpl. rewrite Hrow. simpl.
  rewrite norm_index_nonneg by (done || by eapply lookup_lt_Some). done.
Qed.

Lemma set_cell_on_board (s : state) (r c : Z) (v : cell) (row : list cell) :
  0 ≤ r → 0 ≤ c → s !! Z.to_nat r = Some row → (Z.to_nat c < length row)%nat →
  set_cell s r c v = Some (<[Z.to_nat r := <[Z.to_nat c := v]> row]> s).
Proof.
  intros Hr Hc Hrow Hlt. unfold set_cell, getitem, setitem.
  rewrite norm_index_nonneg by (done || by eapply lookup_lt_Some).
  simpl. rewrite Hrow. simpl. rewrite norm_index_nonneg by done. done.
Qed.

Lemma cell_at_insert (s : state) (r c : nat) (v : cell) (row : list cell) x :
  s !! r = Some row → (c < length row)%nat →
  cell_at (<[r := <[c := v]> row]> s) x
  = if decide (x = (r, c)) then Some v else cell_at s x.
Proof.
  intros Hrow Hc. destruct x as [r' c']. unfold cell_at. simpl.
  destruct (decide (r' = r)) as [->|Hne].
  - rewrite list_lookup_insert_eq by (by eapply lookup_lt_Some). simpl.
    rewrite Hrow. simpl.
    destruct (decide (c' = c)) as [->|Hne'].
    + rewrite list_lookup_insert_eq by done. by rewrite decide_True.
    + rewrite list_lookup_insert_ne by done. rewrite decide_False; [done|congruence].
  - rewrite list_lookup_insert_ne by done. rewrite decide_False; [done|congruence].
Qed.

Lemma on_board_insert (s : state) (r c : nat) (v : cell) (row : list cell) r' c' :
  s !! r = Some row → (c < length row)%nat →
  on_board s r' c' → on_board (<[r := <[c := v]> row]> s) r' c'.
Proof.
  intros Hrow Hc (? & ? & Hx). split; [done|]. split; [done|].
  rewrite cell_at_insert by done. by case_decide.
Qed.

Lemma same_shape_insert (s : state) (r c : nat) (v : cell) (row : list cell) :
  s !! r = Some row →
  length <$> <[r := <[c := v]> row]> s = length <$> s.
Proof.
  intros Hrow. rewrite list_fmap_insert, length_insert.
  apply list_insert_id. by rewrite list_lookup_fmap, Hrow.
Qed.

Lemma on_board_row (s : state) (r c : Z) :
  on_board s r c →
  ∃ row, s !! Z.to_nat r = Some row ∧ (Z.to_nat c < length row)%nat.
Proof.
  intros (_ & _ & [x Hx]). unfold cell_at, position in Hx. simpl in Hx.
  destruct (s !! Z.to_nat r) as [row|]; [|done].
  exists row. split; [done|]. by eapply lookup_lt_Some.
Qed.

Lemma swap_on_board (s : state) (r1 c1 r2 c2 : Z) :
  on_board s r1 c1 → on_board s r2 c2 →
  ∃ s', swap s r1 c1 r2 c2 = Some s'
        ∧ swapped s s' (position r1 c1) (position r2 c2).
Proof.
  intros H1 H2. unfold swap.
  pose proof H1 as (Hr1 & Hc1 & [v1 Hv1]). pose proof H2 as (Hr2 & Hc2 & [v2 Hv2]).
  destruct (on_board_row _ _ _ H1) as (row1 & Hrow1 & Hlt1).
  rewrite (get_cell_on_board _ _ _ H2), Hv2. simpl.
  rewrite (set_cell_on_board _ _ _ _ row1) by done. simpl.
  rewrite (get_cell_on_board _ _ _ H1), Hv1. simpl.
  pose proof (on_board_insert s _ _ v2 row1 r2 c2 Hrow1 Hlt1 H2) as H2'.
  destruct (on_board_row _ _ _ H2') as (row2 & Hrow2 & Hlt2).
  rewrite (set_cell_on_board _ _ _ _ row2) by done.
  eexists. split; [done|]. split.
  - by rewrite !same_shape_insert.
  - intros x. rewrite cell_at_insert by done.
    unfold exchange, position in *.
    destruct (decide (x = (Z.to_nat r2, Z.to_nat c2))) as [->|Hx2]; [done|].
    rewrite cell_at_insert by done.
    destruct (decide (x = (Z.to_nat r1, Z.to_nat c1))) as [->|Hx1]; done.
Qed.

(** *** Moves on the store *)

Lemma contents_Forall2 (h : Obj.store) (g : Obj.grid) (s : state) :
  Obj.contents h g = Some s ↔ Forall2 (λ l row, h !! l = Some row) g s.
Proof. apply mapM_Some. Qed.

Lemma contents_weaken (h h' : Obj.store) (g : Obj.grid) (s : state) :
  (∀ l, l ∈ g → h' !! l = h !! l) →
  Obj.contents h g = Some s → Obj.contents h' g = Some s.
Proof.
  rewrite !contents_Forall2. intros Hsame HF.
  induction HF as [|l row g s Hl HF IH]; constructor.
  - rewrite Hsame; [done|left].
  - apply IH. intros l' Hl'. apply Hsame. by right.
Qed.

Lemma contents_dom (h : Obj.store) (g : Obj.grid) (s : state) (l : Obj.loc) :
  Obj.contents h g = Some s → l ∈ g → l ∈ dom h.
Proof.
  rewrite contents_Forall2. intros HF Hl.
  apply list_elem_of_lookup in Hl as [i Hi].
  destruct (Forall2_lookup_l _ _ _ _ _ HF Hi) as (row & _ & Hrow).
  apply elem_of_dom. eauto.
Qed.

Lemma deepcopy_rows_spec (rows : Obj.grid) (h : Obj.store)
    (memo : gmap Obj.loc Obj.loc) (s : state) :
  Obj.contents h rows = Some s → NoDup rows →
  (∀ l, l ∈ rows → memo !! l = None) →
  ∃ h' g', Obj.deepcopy_rows h memo rows = Some (h', g')
    ∧ h ⊆ h' ∧ Obj.contents h' g' = Some s ∧ NoDup g'
    ∧ (∀ l, l ∈ g' → l ∉ dom h).
Proof.
  revert h memo s. induction rows as [|l rest IH]; intros h memo s Hc Hnd Hmemo.
  - apply contents_Forall2 in Hc. inversion Hc; subst.
    exists h, []. repeat split; try done; try constructor.
    intros l Hl. by apply elem_of_nil in Hl.
  - pose proof Hc as Hc0.
    apply contents_Forall2 in Hc. inversion Hc as [|? row ? s' Hl HF]; subst.
    apply NoDup_cons in Hnd as [Hnotin Hnd].
    simpl. rewrite Hmemo by left. rewrite Hl. simpl.
    set (l' := fresh (dom h)).
    assert (l' ∉ dom h) as Hfresh by apply is_fresh.
    assert (h !! l' = None) as Hnone by by apply not_elem_of_dom.
    destruct (IH (<[l':=row]> h) (<[l:=l']> memo) s') as (h' & g' & Hd & Hsub & Hc' & Hnd' & Hfr).
    + apply (contents_weaken h); [|by apply contents_Forall2].
      intros l0 Hl0. apply lookup_insert_ne. intros ->.
      apply Hfresh. eapply contents_dom; [exact Hc0|by right].
    + done.
    + intros l0 Hl0. rewrite lookup_insert_ne; [apply Hmemo; by right|].
      intros ->. done.
    + rewrite Hd. simpl. exists h', (l' :: g'). split; [done|].
      assert (h ⊆ h') as Hsub' by (etrans; [by apply insert_subseteq|done]).
      split; [done|]. split; [|split].
      * apply contents_Forall2. constructor; [|by apply contents_Forall2].
        eapply lookup_weaken; [|exact Hsub]. apply lookup_insert_eq.
      * apply NoDup_cons. split; [|done].
        intros Hin. apply (Hfr _ Hin). rewrite dom_insert_L. set_solver.
      * intros l0 [->|Hin]%elem_of_cons; [done|].
        intros Hd0. apply (Hfr _ Hin). rewrite dom_insert_L. set_solver.
Qed.

Lemma load_contents (h : Obj.store) (g : Obj.grid) (s : state) (r c : Z) :
  Obj.contents h g = Some s → Obj.load h g r c = get_cell s r c.
Proof.
  intros HF%contents_Forall2. unfold Obj.load, get_cell, getitem.
  rewrite (Forall2_length _ _ _ HF).
  destruct (norm_index (length s) r) as [p|] eqn:Hp; [simpl|done].
  apply norm_index_lt in Hp.
  destruct (lookup_lt_is_Some_2 s p Hp) as [row Hrow].
  destruct (Forall2_lookup_r _ _ _ _ _ HF Hrow) as (l & Hl & Hhl).
  rewrite Hl, Hrow. simpl. by rewrite Hhl.
Qed.

Lemma assign_contents (h : Obj.store) (g : Obj.grid) (s : state)
    (r c : Z) (v : cell) :
  Obj.contents h g = Some s → NoDup g →
  match set_cell s r c v with
  | Some s' => ∃ h', Obj.assign h g r c v = Some h'
                 ∧ Obj.contents h' g = Some s'
                 ∧ ∀ l, l ∉ g → h' !! l = h !! l
  | None => Obj.assign h g r c v = None
  end.
Proof.
  intros HF%contents_Forall2 Hnd. unfold Obj.assign, set_cell, getitem.
  rewrite (Forall2_length _ _ _ HF).
  destruct (norm_index (length s) r) as [p|] eqn:Hp; [simpl|done].
  pose proof (norm_index_lt _ _ _ Hp) as Hlt.
  destruct (lookup_lt_is_Some_2 s p Hlt) as [row Hrow].
  destruct (Forall2_lookup_r _ _ _ _ _ HF Hrow) as (l & Hl & Hhl).
  rewrite Hl, Hrow. simpl. rewrite Hhl. simpl.
  destruct (setitem row c v) as [row'|] eqn:Hset; [simpl|done].
  unfold setitem. rewrite Hp. simpl.
  eexists. split; [done|]. split.
  - apply contents_Forall2, Forall2_same_length_lookup. split.
    + rewrite length_insert. by eapply Forall2_length.
    + intros i l0 row0 Hl0 Hrow0. destruct (decide (i = p)) as [->|Hne].
      * rewrite list_lookup_insert_eq in Hrow0 by done.
        assert (l0 = l) as -> by congruence. injection Hrow0 as <-.
        apply lookup_insert_eq.
      * rewrite list_lookup_insert_ne in Hrow0 by done.
        rewrite lookup_insert_ne.
        { eapply Forall2_lookup_lr in HF; [|done..]. done. }
        intros <-. apply Hne. by eapply NoDup_lookup.
  - intros l0 Hl0. apply lookup_insert_ne. intros <-.
    apply Hl0. by eapply list_elem_of_lookup_2.
Qed.

(** [Obj.swap] computes [swap] on the grid its argument denotes: it raises
    when [swap] does, and otherwise leaves every object of the store as it
    was and returns a grid of fresh rows that denotes [swap]'s result. *)
Lemma swap_refines (h : Obj.store) (g : Obj.grid) (s : state)
    (r1 c1 r2 c2 : Z) :
  Obj.contents h g = Some s → NoDup g →
  match swap s r1 c1 r2 c2 with
  | Some s' => ∃ h' g', Obj.swap h g r1 c1 r2 c2 = Some (h', g')
                 ∧ h ⊆ h' ∧ Obj.contents h' g' = Some s'
                 ∧ NoDup g' ∧ ∀ l, l ∈ g' → l ∉ dom h
  | None => Obj.swap h g r1 c1 r2 c2 = None
  end.
Proof.
  intros Hc Hnd. unfold Obj.swap, Obj.deepcopy, swap.
  destruct (deepcopy_rows_spec g h ∅ s Hc Hnd) as (h0 & g0 & -> & Hsub & Hc0 & Hnd0 & Hfr).
  { intros. apply lookup_empty. }
  simpl.
  assert (∀ h', (∀ l, l ∉ g0 → h' !! l = h0 !! l) →
          Obj.contents h' g = Some s ∧ ∀ l, l ∈ dom h → h' !! l = h !! l) as Hkeep.
  { intros h' Hsame.
    assert (∀ l, l ∈ dom h → h' !! l = h !! l) as Hdom.
    { intros l Hl. rewrite Hsame by (intros Hin; by apply (Hfr l)).
      apply elem_of_dom in Hl as [row Hrow]. rewrite Hrow.
      by eapply lookup_weaken. }
    split; [|done]. apply (contents_weaken h); [|done].
    intros l Hl. apply Hdom. by eapply contents_dom. }
  destruct (Hkeep h0) as [Hcg0 _]; [done|].
  rewrite (load_contents _ _ _ _ _ Hcg0).
  destruct (get_cell s r2 c2) as [v2|]; [simpl|done].
  pose proof (assign_contents h0 g0 s r1 c1 v2 Hc0 Hnd0) as Ha1.
  destruct (set_cell s r1 c1 v2) as [s1|]; [|by rewrite Ha1].
  destruct Ha1 as (h1 & -> & Hc1 & Hsame1). simpl.
  destruct (Hkeep h1) as [Hcg1 _]; [done|].
  rewrite (load_contents _ _ _ _ _ Hcg1).
  destruct (get_cell s r1 c1) as [v1|]; [simpl|done].
  pose proof (assign_contents h1 g0 s1 r2 c2 v1 Hc1 Hnd0) as Ha2.
  destruct (set_cell s1 r2 c2 v1) as [s2|]; [|by rewrite Ha2].
  destruct Ha2 as (h2 & -> & Hc2 & Hsame2). simpl.
  exists h2, g0. split; [done|].
  destruct (Hkeep h2) as [_ Hdom2].
  { intros l Hl. by rewrite Hsame2, Hsame1. }
  split; [|done]. apply map_subseteq_spec. intros l row Hrow.
  rewrite Hdom2; [done|]. apply elem_of_dom. eauto.
Qed.

(** The rows of a grid that holds every label once are distinct objects:
    a row used twice would show its labels twice. *)
Lemma valid_rows_distinct (h : Obj.store) (g : Obj.grid) (s : state) :
  Obj.contents h g = Some s → valid_state s → NoDup g.
Proof.
  intros HF%contents_Forall2 Hv. apply NoDup_alt. intros i j l Hi Hj.
  destruct (Forall2_lookup_l _ _ _ _ _ HF Hi) as (row & Hrow & Hl).
  destruct (Forall2_lookup_l _ _ _ _ _ HF Hj) as (row' & Hrow' & Hl').
  assert (row' = row) as -> by congruence. clear HF Hi Hj Hl Hl'.
  destruct (shape3_inv s (proj1 Hv)) as (a&b&c&d&e&f&x&y&z&->).
  assert (NoDup [a; b; c; d; e; f; x; y; z]) as Hnd
    by (destruct Hv as [_ Hp]; simpl in Hp; rewrite Hp; apply goal_cells_NoDup).
  destruct i as [|[|[|i]]], j as [|[|[|j]]]; simpl in *; try done;
    simplify_eq;
    first [ by pose proof (NoDup_lookup _ 0 3 _ Hnd eq_refl eq_refl)
          | by pose proof (NoDup_lookup _ 0 6 _ Hnd eq_refl eq_refl)
          | by pose proof (NoDup_lookup _ 3 6 _ Hnd eq_refl eq_refl) ].
Qed.

Lemma cell_at_ext (s s' : state) :
  length <$> s' = length <$> s → (∀ x, cell_at s' x = cell_at s x) → s' = s.
Proof.
  intros Hshape Hcells. apply list_eq. intros i.
  pose proof (f_equal (λ l, l !! i) Hshape) as Hi. simpl in Hi.
  rewrite !list_lookup_fmap in Hi.
  destruct (s' !! i) as [row'|] eqn:Hrow', (s !! i) as [row|] eqn:Hrow;
    try done.
  f_equal. apply list_eq. intros j.
  specialize (Hcells (i, j)). unfold cell_at in Hcells. simpl in Hcells.
  by rewrite Hrow', Hrow in Hcells.
Qed.

Lemma exchange_involutive (p q x : nat * nat) :
  exchange p q (exchange q p x) = x.
Proof. unfold exchange. repeat case_decide; congruence. Qed.

Lemma swapped_on_board (s s' : state) (p q : nat * nat) (r c : Z) :
  swapped s s' p q →
  is_Some (cell_at s p) → is_Some (cell_at s q) →
  on_board s r c → on_board s' r c.
Proof.
  intros [_ Hcells] Hp Hq (? & ? & Hx). split; [done|]. split; [done|].
  rewrite Hcells. unfold exchange. by repeat case_decide.
Qed.

Lemma swap_back (s s1 : state) (r1 c1 r2 c2 : Z) :
  on_board s r1 c1 → on_board s r2 c2 →
  swap s r1 c1 r2 c2 = Some s1 → swap s1 r2 c2 r1 c1 = Some s.
Proof.
  intros H1 H2 Hs.
  destruct (swap_on_board s r1 c1 r2 c2 H1 H2) as (s1' & Hs' & Hsw).
  assert (s1' = s1) as -> by congruence.
  pose proof H1 as (_ & _ & Hp). pose proof H2 as (_ & _ & Hq).
  destruct (swap_on_board s1 r2 c2 r1 c1) as (s2 & -> & Hsw2);
    [by eapply swapped_on_board..|].
  f_equal. destruct Hsw as [Hsh Hc], Hsw2 as [Hsh2 Hc2].
  apply cell_at_ext; [congruence|].
  intros x. by rewrite Hc2, Hc, exchange_involutive.
Qed.

Lemma move_obj_swap (d : direction) h (g : Obj.grid) (r c : Z) :
  move_obj d h g r c = Obj.swap h g r c (target d r c).1 (target d r c).2.
Proof. by destruct d. Qed.

Lemma target_inverse (d : direction) (r c : Z) :
  target (inverse d) (target d r c).1 (target d r c).2 = (r, c).
Proof. destruct d; simpl; f_equal; lia. Qed.

(** C9.  A legal move on a grid of the store returns a grid made of rows
    that did not exist before; it denotes the input grid with the contents
    of the empty-marker cell and of the targeted cell exchanged; every
    object that existed before holds what it held, so the input grid still
    denotes the same state. *)
Theorem move_copies_and_swaps (h : Obj.store) (g : Obj.grid) (s : state)
    (d : direction) (r c : Z) :
  Obj.contents h g = Some s → NoDup g → legal s d r c →
  ∃ h' g' s',
    move_obj d h g r c = Some (h', g')
    ∧ Obj.contents h' g' = Some s'
    ∧ swapped s s' (position r c) (position (target d r c).1 (target d r c).2)
    ∧ (∀ l, l ∈ g' → l ∉ dom h)
    ∧ (∀ l, l ∈ dom h → h' !! l = h !! l)
    ∧ Obj.contents h' g = Some s.
Proof.
  intros Hc Hnd [H1 H2]. rewrite move_obj_swap.
  destruct (swap_on_board s r c _ _ H1 H2) as (s' & Hs & Hsw).
  pose proof (swap_refines h g s r c (target d r c).1 (target d r c).2 Hc Hnd) as Href.
  rewrite Hs in Href. destruct Href as (h' & g' & -> & Hsub & Hc' & _ & Hfr).
  exists h', g', s'. repeat split; try done; try apply Hsw.
  - intros l [row Hrow]%elem_of_dom. rewrite Hrow. by eapply lookup_weaken.
  - apply (contents_weaken h); [|done].
    intros l Hl. apply (contents_dom _ _ _ _ Hc) in Hl.
    apply elem_of_dom in Hl as [row Hrow]. rewrite Hrow. by eapply lookup_weaken.
Qed.

Lemma example_grid_legal (d : direction) :
  d = Up ∨ d = Left ∨ d = Right → legal one_move_state d 2 1.
Proof.
  intros [->|[->| ->]]; (split; (split; [done|]; split; [done|]; by eexists)).
Qed.

Lemma move_copies_and_swaps_witness :
  ∃ h' g' s',
    move_obj Right example_store example_grid 2 1 = Some (h', g')
    ∧ Obj.contents h' g' = Some s'
    ∧ swapped one_move_state s' (position 2 1) (position 2 2)
    ∧ (∀ l, l ∈ g' → l ∉ dom example_store)
    ∧ (∀ l, l ∈ dom example_store → h' !! l = example_store !! l)
    ∧ Obj.contents h' example_grid = Some one_move_state.
Proof.
  apply (move_copies_and_swaps example_store example_grid one_move_state Right 2 1).
  - reflexivity.
  - apply (bool_decide_unpack _). by vm_compute.
  - apply example_grid_legal. auto.
Defined.

(** C8.  A legal move followed by its inverse, applied where the first
    move left the empty cell, returns a grid equal to the original one, in
    each of the four directions. *)
Theorem move_then_inverse (h : Obj.store) (g : Obj.grid) (s : state)
    (d : direction) (r c : Z) :
  Obj.contents h g = Some s → NoDup g → legal s d r c →
  ∃ h1 g1 h2 g2,
    move_obj d h g r c = Some (h1, g1)
    ∧ move_obj (inverse d) h1 g1 (target d r c).1 (target d r c).2
      = Some (h2, g2)
    ∧ Obj.contents h2 g2 = Some s.
Proof.
  intros Hc Hnd [H1 H2].
  destruct (swap_on_board s r c _ _ H1 H2) as (s1 & Hs & Hsw).
  pose proof (swap_refines h g s r c (target d r c).1 (target d r c).2 Hc Hnd) as Href.
  rewrite Hs in Href. destruct Href as (h1 & g1 & Hm1 & _ & Hc1 & Hnd1 & _).
  pose proof (swap_refines h1 g1 s1 (target d r c).1 (target d r c).2 r c Hc1 Hnd1) as Href.
  rewrite (swap_back s s1 r c _ _ H1 H2 Hs) in Href.
  destruct Href as (h2 & g2 & Hm2 & _ & Hc2 & _).
  exists h1, g1, h2, g2. by rewrite !move_obj_swap, target_inverse.
Qed.

Lemma move_then_inverse_witness :
  ∃ h1 g1 h2 g2,
    move_obj Up example_store example_grid 2 1 = Some (h1, g1)
    ∧ move_obj Down h1 g1 1 1 = Some (h2, g2)
    ∧ Obj.contents h2 g2 = Some one_move_state.
Proof.
  apply (move_then_inverse example_store example_grid one_move_state Up 2 1).
  - reflexivity.
  - apply (bool_decide_unpack _). by vm_compute.
  - apply example_grid_legal. auto.
Defined.

(** *** The successors of a 3×3 grid *)

Lemma find_empty_range (s : state) :
  shape3 s →
  ∃ er ec, find_empty s = Some (er, ec) ∧ 0 ≤ er ≤ 2 ∧ 0 ≤ ec ≤ 2.
Proof.
  intros (a&b&c&d&e&f&g&h&i&->)%shape3_inv.
  destruct a, b, c, d, e, f, g, h, i;
    eexists _, _; (split; [reflexivity|lia]).
Qed.

Lemma perm_jump3 {A} (x y m1 m2 : A) (l : list A) :
  y :: m1 :: m2 :: x :: l ≡ₚ x :: m1 :: m2 :: y :: l.
Proof.
  transitivity (m1 :: m2 :: y :: x :: l).
  { etrans; [apply perm_swap|]. apply perm_skip, perm_swap. }
  transitivity (m1 :: m2 :: x :: y :: l).
  { do 2 apply perm_skip. apply perm_swap. }
  etrans; [apply perm_skip, perm_swap|]. apply perm_swap.
Qed.

Local Ltac solve_transposition :=
  repeat first
    [ reflexivity | apply perm_swap | apply perm_jump3 | apply perm_skip ].

Lemma actions_closed (s : state) :
  shape3 s →
  ∃ acts, get_available_actions s = Some acts
          ∧ Forall (λ act, ∃ s', act s = Some s' ∧ same_tiles s s') acts.
Proof.
  intros Hs. destruct (find_empty_range s Hs) as (er & ec & Hfind & Her & Hec).
  destruct (shape3_inv s Hs) as (a&b&c&d&e&f&g&h&i&->).
  unfold get_available_actions. rewrite Hfind. clear Hfind Hs.
  assert (er = 0 ∨ er = 1 ∨ er = 2) as [->|[->| ->]] by lia;
    (assert (ec = 0 ∨ ec = 1 ∨ ec = 2) as [->|[->| ->]] by lia);
    (eexists; split; [reflexivity|]);
    repeat (apply Forall_cons; split;
            [eexists; split; [reflexivity|];
             split; [split; [done|by repeat constructor]|
                     simpl; solve_transposition]|]);
    by apply Forall_nil.
Qed.

Lemma in_universe (s0 s : state) : same_tiles s0 s → s ∈ universe s0.
Proof.
  intros [Hs Hp]. unfold universe.
  apply elem_of_list_to_set, list_elem_of_fmap. exists (concat s). split.
  - by destruct (shape3_inv s Hs) as (a&b&c&d&e&f&g&h&i&->).
  - by apply permutations_Permutation.
Qed.

Lemma same_tiles_trans (s0 s s' : state) :
  same_tiles s0 s → same_tiles s s' → same_tiles s0 s'.
Proof. intros [_ H1] [H2 H3]. split; [done|]. by etrans. Qed.

Lemma heuristic_cost_is_Some (s : state) : shape3 s → is_Some (heuristic_cost s).
Proof.
  intros (a&b&c&d&e&f&g&h&i&->)%shape3_inv.
  rewrite heuristic_cost_cells. by eexists.
Qed.

(** *** The heuristic is zero on the goal only *)

Lemma distance_nonneg (r c : Z) (x : cell) : 0 ≤ distance r c x.
Proof. unfold distance. lia. Qed.

Lemma distance_zero (r c : Z) (x : cell) :
  0 ≤ r ≤ 2 → 0 ≤ c ≤ 2 →
  (x = None ∨ ∃ v, x = Some v ∧ 1 ≤ v ≤ 8) →
  distance r c x = 0 →
  x = if (r =? 2) && (c =? 2) then None else Some (3 * r + c + 1).
Proof.
  intros Hr Hc [->|(v & -> & Hv)].
  - rewrite distance_blank. unfold manhattan, BOARD_SIZE.
    change ((3 * 3 - 1) / 3) with 2. change ((3 * 3 - 1) `mod` 3) with 2.
    intros H. assert (r = 2 ∧ c = 2) as [-> ->] by lia. done.
  - rewrite distance_tile by lia. unfold manhattan, BOARD_SIZE. intros H.
    pose proof (Z.div_mod (v - 1) 3 ltac:(lia)) as Hdm.
    pose proof (Z.mod_pos_bound (v - 1) 3 ltac:(lia)) as Hm.
    assert (r = (v - 1) / 3 ∧ c = (v - 1) `mod` 3) as [Hr' Hc'] by lia.
    assert ((r =? 2) && (c =? 2) = false) as ->.
    { apply andb_false_iff.
      destruct (Z.eqb_spec r 2), (Z.eqb_spec c 2); auto. lia. }
    f_equal. lia.
Qed.

Lemma heuristic_zero_goal (s : state) :
  valid_state s → heuristic_cost s = Some 0 → s = goal_state.
Proof.
  intros Hv. destruct (shape3_inv s (proj1 Hv)) as (a&b&c&d&e&f&g&h&i&->).
  rewrite heuristic_cost_cells. intros [= H0].
  assert (Forall (λ x, x = None ∨ ∃ v, x = Some v ∧ 1 ≤ v ≤ 8)
            [a; b; c; d; e; f; g; h; i]) as HF
    by (apply Forall_forall; intros x Hx; by apply (valid_state_cells _ x Hv)).
  repeat (apply Forall_cons in HF as [? HF]).
  pose proof (distance_nonneg 0 0 a). pose proof (distance_nonneg 0 1 b).
  pose proof (distance_nonneg 0 2 c). pose proof (distance_nonneg 1 0 d).
  pose proof (distance_nonneg 1 1 e). pose proof (distance_nonneg 1 2 f).
  pose proof (distance_nonneg 2 0 g). pose proof (distance_nonneg 2 1 h).
  pose proof (distance_nonneg 2 2 i).
  rewrite (distance_zero 0 0 a), (distance_zero 0 1 b), (distance_zero 0 2 c),
    (distance_zero 1 0 d), (distance_zero 1 1 e), (distance_zero 1 2 f),
    (distance_zero 2 0 g), (distance_zero 2 1 h), (distance_zero 2 2 i)
    by (done || lia).
  reflexivity.
Qed.

(** *** Moves keep the parity of the inversions *)

Lemma count_cons {A} (c : A → bool) (x : A) (l : list A) :
  count c (x :: l) = ((if c x then 1 else 0) + count c l)%nat.
Proof. unfold count. simpl. by destruct (c x). Qed.

Lemma count_indices {A} (c : A → bool) (l : list A) (f : nat → A) :
  (∀ k y, l !! k = Some y → f k = y) →
  count (c ∘ f) (seq 0 (length l)) = count c l.
Proof.
  revert f. induction l as [|x l IH]; intros f Hf; [done|].
  simpl length. rewrite <- cons_seq, <- fmap_S_seq, !count_cons, count_fmap.
  unfold compose at 1. rewrite (Hf 0%nat x) by done. f_equal.
  apply (IH (f ∘ S)). intros k y Hk. by apply (Hf (S k)).
Qed.

Lemma count_line155 (empty : Z) (l : list Z) (i : nat) (x : Z) :
  l !! i = Some x →
  count (line155 l empty (Z.of_nat i))
        (range2 (Z.of_nat i + 1) (Z.of_nat (length l)))
  = count (out_of_order empty x) (drop (S i) l).
Proof.
  intros Hx. pose proof (lookup_lt_Some _ _ _ Hx) as Hlt.
  assert (range2 (Z.of_nat i + 1) (Z.of_nat (length l))
          = (λ k : nat, Z.of_nat i + 1 + Z.of_nat k)
              <$> seq 0 (length (drop (S i) l))) as ->
    by (rewrite length_drop, <- range2_seq; f_equal; lia).
  rewrite count_fmap.
  rewrite <- (count_indices (out_of_order empty x) (drop (S i) l)
                (λ k, item l (Z.of_nat i + 1 + Z.of_nat k))).
  - apply count_ext. intros k _. unfold compose, line155, out_of_order.
    by rewrite (item_nat _ _ _ Hx).
  - intros k y Hk. rewrite lookup_drop in Hk.
    replace (Z.of_nat i + 1 + Z.of_nat k) with (Z.of_nat (S i + k)) by lia.
    by apply item_nat.
Qed.

Lemma count2_inv (empty : Z) (l pre : list Z) :
  count2 (line155 (pre ++ l) empty)
    (λ i, range2 (i + 1) (Z.of_nat (length (pre ++ l))))
    ((λ k : nat, Z.of_nat (length pre + k)) <$> seq 0 (length l))
  = inv empty l.
Proof.
  revert pre. induction l as [|x l IH]; intros pre; [done|].
  simpl length. rewrite <- cons_seq, <- fmap_S_seq, fmap_cons, count2_cons.
  simpl inv. f_equal.
  - rewrite (count_line155 empty (pre ++ x :: l) (length pre + 0) x).
    + rewrite Nat.add_0_r, drop_app_ge by lia.
      by replace (S (length pre) - length pre)%nat with 1%nat by lia.
    + rewrite Nat.add_0_r. by rewrite list_lookup_middle.
  - rewrite <- list_fmap_compose. specialize (IH (pre ++ [x])).
    rewrite <- app_assoc in IH. simpl in IH. rewrite <- IH. f_equal.
    apply list_fmap_ext. intros _ k _. simpl. rewrite length_app. simpl. f_equal. lia.
Qed.

Lemma is_problem_solvable_inv (values : list Z) :
  is_problem_solvable values
  = Nat.even (inv (Z.of_nat (length values)) values).
Proof.
  rewrite is_problem_solvable_count. cbv zeta. f_equal.
  rewrite <- (count2_inv _ values []). simpl. f_equal.
  unfold range. rewrite <- (Z.add_0_l (Z.of_nat (length values))) at 1.
  rewrite range2_seq. apply list_fmap_ext. intros _ k _. lia.
Qed.

Lemma count_perm {A} (c : A → bool) (l l' : list A) :
  l ≡ₚ l' → count c l = count c l'.
Proof.
  unfold count. induction 1 as [|x l l' _ IH|x y l|l l' l'' _ IH1 _ IH2];
    simpl; try done.
  - destruct (c x); simpl; by rewrite IH.
  - by destruct (c x), (c y).
  - by rewrite IH1.
Qed.

Lemma inv_peel (empty x : Z) (l l' : list Z) :
  l ≡ₚ l' → Nat.even (inv empty l) = Nat.even (inv empty l') →
  Nat.even (inv empty (x :: l)) = Nat.even (inv empty (x :: l')).
Proof.
  intros Hp He. cbn [inv]. rewrite (count_perm _ _ _ Hp), !Nat.even_add.
  by rewrite He.
Qed.

Lemma out_of_order_empty_l (empty y : Z) : out_of_order empty empty y = false.
Proof. unfold out_of_order. by rewrite Z.eqb_refl. Qed.

Lemma out_of_order_empty_r (empty x : Z) : out_of_order empty x empty = false.
Proof. unfold out_of_order. rewrite Z.eqb_refl. by destruct (x =? empty). Qed.

Lemma count_empty (empty : Z) (l : list Z) :
  count (out_of_order empty empty) l = 0%nat.
Proof. apply count_none. intros. apply out_of_order_empty_l. Qed.

Lemma out_of_order_flip (empty x y : Z) :
  x ≠ empty → y ≠ empty → x ≠ y →
  out_of_order empty x y = negb (out_of_order empty y x).
Proof.
  intros Hx Hy Hxy. unfold out_of_order.
  apply Z.eqb_neq in Hx as ->. apply Z.eqb_neq in Hy as ->. simpl.
  rewrite !Z.gtb_ltb.
  destruct (Z.ltb_spec y x), (Z.ltb_spec x y); simpl; try done; lia.
Qed.

(** The empty marker changes places with its neighbour in the row. *)
Lemma inv_gap0 (empty y : Z) (q : list Z) :
  inv empty (empty :: y :: q) = inv empty (y :: empty :: q).
Proof.
  cbn [inv]. rewrite !count_empty, !count_cons, ?count_empty.
  rewrite out_of_order_empty_r. lia.
Qed.

(** The empty marker changes places with the tile three cells further:
    the tile passes two others. *)
Lemma inv_gap2 (empty y m1 m2 : Z) (q : list Z) :
  y ≠ empty → m1 ≠ empty → m2 ≠ empty → y ≠ m1 → y ≠ m2 →
  Nat.even (inv empty (empty :: m1 :: m2 :: y :: q))
  = Nat.even (inv empty (y :: m1 :: m2 :: empty :: q)).
Proof.
  intros Hy H1 H2 Hy1 Hy2. cbn [inv].
  rewrite !count_empty, !count_cons, ?count_empty, !out_of_order_empty_r.
  rewrite (out_of_order_flip empty y m1), (out_of_order_flip empty y m2) by done.
  generalize (count (out_of_order empty m1) q) (count (out_of_order empty m2) q)
    (count (out_of_order empty y) q) (inv empty q).
  intros c1 c2 cy i.
  destruct (out_of_order empty m1 m2), (out_of_order empty m1 y),
    (out_of_order empty m2 y); simpl negb; cbv iota;
    rewrite ?Nat.add_0_l, ?Nat.add_0_r, !Nat.even_add; simpl Nat.even;
    by destruct (Nat.even c1), (Nat.even c2), (Nat.even cy), (Nat.even i).
Qed.

Lemma cell_range (x : cell) (v : Z) :
  (x = None ∨ ∃ v', x = Some v' ∧ 1 ≤ v' ≤ 8) → x = Some v → 1 ≤ v ≤ 8.
Proof. intros [->|(v' & -> & ?)]; [done|]. by intros [= <-]. Qed.

Local Ltac solve_parity :=
  repeat first
    [ reflexivity
    | apply (f_equal Nat.even), inv_gap0
    | symmetry; apply (f_equal Nat.even), inv_gap0
    | apply inv_gap2; first [lia | congruence]
    | symmetry; apply inv_gap2; first [lia | congruence]
    | apply inv_peel; [solve_transposition|] ].

Lemma move_parity (s s' : state) (acts : list action) (act : action) :
  valid_state s → get_available_actions s = Some acts →
  act ∈ acts → act s = Some s' →
  solvable_state s' = solvable_state s.
Proof.
  intros Hv Hacts Hin Hact.
  destruct (shape3_inv s (proj1 Hv)) as (a&b&c&d&e&f&g&h&i&->).
  assert (count is_blank [a; b; c; d; e; f; g; h; i] = 1%nat) as Hcount
    by (by rewrite (count_perm _ _ _ (proj2 Hv))).
  assert (NoDup [a; b; c; d; e; f; g; h; i]) as Hnd
    by (destruct Hv as [_ Hp]; simpl in Hp; rewrite Hp; apply goal_cells_NoDup).
  assert (Forall (λ x, ∀ v, x = Some v → 1 ≤ v ≤ 8)
            [a; b; c; d; e; f; g; h; i]) as HF.
  { apply Forall_forall. intros x Hx v. apply cell_range.
    by apply (valid_state_cells _ x Hv). }
  clear Hv.
  destruct a as [a|], b as [b|], c as [c|], d as [d|], e as [e|],
    f as [f|], g as [g|], h as [h|], i as [i|]; try discriminate Hcount;
    clear Hcount;
    repeat (match goal with
            | H : Forall _ (_ :: _) |- _ => apply Forall_cons in H as [? H]
            | H : ∀ v, Some ?x = Some v → _ |- _ => specialize (H x eq_refl)
            | H : NoDup (_ :: _) |- _ => apply NoDup_cons in H as [? H]
            | H : _ ∉ _ :: _ |- _ => apply not_elem_of_cons in H as [? H]
            end);
    unfold get_available_actions in Hacts;
    (match type of Hacts with
     | context [find_empty ?s] =>
         let r := eval vm_compute in (find_empty s) in
         change (find_empty s) with r in Hacts
     end);
    simpl in Hacts; injection Hacts as <-;
    repeat (apply elem_of_cons in Hin as [->|Hin]);
    try (by apply elem_of_nil in Hin);
    injection Hact as <-;
    unfold solvable_state; rewrite !is_problem_solvable_inv;
    cbn [labels concat fmap list_fmap app default length Z.of_nat
           Pos.of_succ_nat Pos.succ BOARD_SIZE Z.mul Pos.mul Pos.add];
    change (Z.of_nat 9) with 9; change (BOARD_SIZE * BOARD_SIZE) with 9;
    unfold id; solve_parity.
Qed.

(** *** The frontier *)

Lemma pq_get_None (q : list entry) : pq_get q = None ↔ q = [].
Proof.
  destruct q as [|e q]; [done|]. simpl.
  destruct (pq_get q) as [[m rest]|]; [|done]. by destruct (entry_lt m e).
Qed.

Lemma pq_get_Some (q : list entry) (e : entry) (q' : list entry) :
  pq_get q = Some (e, q') → q ≡ₚ e :: q'.
Proof.
  revert e q'. induction q as [|a q IH]; intros e q'; [done|]. simpl.
  destruct (pq_get q) as [[m rest]|] eqn:E.
  - specialize (IH _ _ eq_refl).
    destruct (entry_lt m a); intros [= <- <-]; [|done].
    rewrite IH. apply perm_swap.
  - apply pq_get_None in E as ->. by intros [= <- <-].
Qed.

Section search_facts.
Variable uuid4 : nat → Z.

(** *** One turn of the loop *)

Lemma expand_inr acts cur pc V q k q' k' :
  expand uuid4 acts cur pc V q k = Some (inr (q', k')) →
  ∃ new, q' = q ++ new ∧ Forall (pushed acts cur pc V) new.
Proof.
  revert q k. induction acts as [|act acts IH]; intros q k; simpl.
  - intros [= <- <-]. exists []. by rewrite app_nil_r.
  - destruct (act (node_state cur)) as [st|] eqn:Hact; [simpl|done].
    assert (∀ new, Forall (pushed acts cur pc V) new →
                   Forall (pushed (act :: acts) cur pc V) new) as Hmono.
    { intros new Hnew. eapply Forall_impl; [exact Hnew|].
      intros e (act' & st' & h & ? & ?). exists act', st', h. split; [by right|done]. }
    case_decide as Hvis.
    + intros (new & -> & Hnew)%IH. exists new. auto.
    + destruct (heuristic_cost st) as [h|] eqn:Hh; [simpl|done].
      destruct (h =? 0) eqn:Hz; [done|]. apply Z.eqb_neq in Hz.
      intros (new & -> & Hnew)%IH. unfold pq_put. rewrite <- app_assoc.
      eexists. split; [done|]. apply Forall_cons. split; [|auto].
      exists act, st, h. repeat split; try done. by left.
Qed.

Lemma expand_inl acts cur pc V q k goal :
  expand uuid4 acts cur pc V q k = Some (inl goal) →
  ∃ act st, act ∈ acts ∧ act (node_state cur) = Some st ∧ (st ∉ V)
            ∧ heuristic_cost st = Some 0 ∧ goal = Node st (Some cur).
Proof.
  revert q k. induction acts as [|act acts IH]; intros q k; simpl; [done|].
  destruct (act (node_state cur)) as [st|] eqn:Hact; [simpl|done].
  assert (∀ q k, expand uuid4 acts cur pc V q k = Some (inl goal) →
     ∃ act0 st0, act0 ∈ act :: acts ∧ act0 (node_state cur) = Some st0 ∧ (st0 ∉ V)
            ∧ heuristic_cost st0 = Some 0 ∧ goal = Node st0 (Some cur)) as IH'.
  { intros q0 k0 (act0 & st0 & ? & ?)%IH. exists act0, st0. split; [by right|done]. }
  case_decide as Hvis; [by apply IH'|].
  destruct (heuristic_cost st) as [h|] eqn:Hh; [simpl|done].
  destruct (h =? 0) eqn:Hz; [|by apply IH'].
  apply Z.eqb_eq in Hz as ->. intros [= <-].
  exists act, st. repeat split; try done. by left.
Qed.

Lemma expand_is_Some acts cur pc V q k :
  Forall (λ act : action, ∃ st, act (node_state cur) = Some st ∧ shape3 st) acts →
  is_Some (expand uuid4 acts cur pc V q k).
Proof.
  revert q k. induction acts as [|act acts IH]; intros q k Hacts; simpl; [by eexists|].
  apply Forall_cons in Hacts as [(st & -> & Hst) Hacts]. simpl.
  case_decide; [by apply IH|].
  destruct (heuristic_cost_is_Some st Hst) as [h ->]. simpl.
  destruct (h =? 0); [by eexists|by apply IH].
Qed.

(** The three ways a turn can go, read off [step]. *)
Lemma step_exhausted cfg : queue cfg = [] → step uuid4 cfg = inr (Returned None).
Proof. intros H. unfold step. by rewrite H. Qed.

Lemma step_inv cfg :
  match step uuid4 cfg with
  | inl cfg' =>
      ∃ e q acts new,
        pq_get (queue cfg) = Some (e, q)
        ∧ get_available_actions (node_state (entry_node e)) = Some acts
        ∧ visited_states cfg' = visited_states cfg ∪ {[ node_state (entry_node e) ]}
        ∧ queue cfg' = q ++ new
        ∧ Forall (pushed acts (entry_node e) (priority e) (visited_states cfg')) new
  | inr (Returned (Some goal)) =>
      ∃ e q acts act st,
        pq_get (queue cfg) = Some (e, q)
        ∧ get_available_actions (node_state (entry_node e)) = Some acts
        ∧ act ∈ acts ∧ act (node_state (entry_node e)) = Some st
        ∧ (st ∉ visited_states cfg ∪ {[ node_state (entry_node e) ]})
        ∧ heuristic_cost st = Some 0
        ∧ goal = Node st (Some (entry_node e))
  | inr (Returned None) => queue cfg = []
  | inr Raised =>
      ∃ e q, pq_get (queue cfg) = Some (e, q)
        ∧ match get_available_actions (node_state (entry_node e)) with
          | None => True
          | Some acts =>
              expand uuid4 acts (entry_node e) (priority e)
                (visited_states cfg ∪ {[ node_state (entry_node e) ]}) q (calls cfg)
              = None
          end
  | inr OutOfFuel => False
  end.
Proof.
  unfold step.
  destruct (pq_get (queue cfg)) as [[[[pc tok] cur] q]|] eqn:Hget;
    [|by apply pq_get_None].
  destruct (get_available_actions (node_state cur)) as [acts|] eqn:Hacts.
  2:{ exists (pc, tok, cur), q. simpl. by rewrite Hacts. }
  destruct (expand _ _ _ _ _ _ _) as [[goal|[q' k']]|] eqn:Hexp.
  - apply expand_inl in Hexp as (act & st & ? & ? & ? & ? & ->).
    by exists (pc, tok, cur), q, acts, act, st.
  - apply expand_inr in Hexp as (new & -> & Hnew).
    by exists (pc, tok, cur), q, acts, new.
  - exists (pc, tok, cur), q. simpl. by rewrite Hacts.
Qed.

(** *** Termination

    The search moves inside the finite universe of [s0].  A turn that
    takes an unvisited state from the frontier shrinks the unvisited part
    of the universe; a turn that takes a visited state leaves the visited
    set alone and only pushes unvisited states, so the frontier holds one
    visited entry fewer. *)

Variable s0 : state.

Local Abbreviation frontier_in_universe := (PuzzleSpec.frontier_in_universe s0).
Local Abbreviation unvisited := (PuzzleSpec.unvisited s0).

Lemma pushed_same_tiles acts cur pc V e :
  same_tiles s0 (node_state cur) →
  get_available_actions (node_state cur) = Some acts →
  pushed acts cur pc V e →
  same_tiles s0 (node_state (entry_node e)) ∧ node_state (entry_node e) ∉ V.
Proof.
  intros Hcur Hacts (act & st & h & Hin & Hact & Hvis & _ & _ & _ & ->). simpl.
  split; [|done].
  destruct (actions_closed (node_state cur) (proj1 Hcur)) as (acts' & Hacts' & Hall).
  assert (acts' = acts) as -> by congruence.
  rewrite Forall_forall in Hall. destruct (Hall act Hin) as (st' & Hst' & Hsame).
  assert (st' = st) as -> by congruence. by eapply same_tiles_trans.
Qed.

Lemma step_progress cfg :
  frontier_in_universe cfg →
  (∃ cfg', step uuid4 cfg = inl cfg') ∨ (∃ r, step uuid4 cfg = inr (Returned r)).
Proof.
  intros Hinv. pose proof (step_inv cfg) as Hstep.
  destruct (step uuid4 cfg) as [cfg'|[r| |]]; [eauto|eauto| |done].
  exfalso. destruct Hstep as (e & q & Hget & Hraise).
  assert (same_tiles s0 (node_state (entry_node e))) as [Hshape _].
  { unfold frontier_in_universe in Hinv. rewrite Forall_forall in Hinv.
    apply Hinv. rewrite (pq_get_Some _ _ _ Hget). by left. }
  destruct (actions_closed _ Hshape) as (acts & Hacts & Hall).
  rewrite Hacts in Hraise. eapply is_Some_None. rewrite <- Hraise.
  apply expand_is_Some. eapply Forall_impl; [exact Hall|].
  intros act (st & ? & [? _]). eauto.
Qed.

Lemma step_decreases cfg cfg' :
  frontier_in_universe cfg → step uuid4 cfg = inl cfg' →
  frontier_in_universe cfg'
  ∧ ((unvisited cfg' < unvisited cfg)%nat
     ∨ (unvisited cfg' = unvisited cfg ∧ (stale cfg' < stale cfg)%nat)).
Proof.
  intros Hinv Hstep. pose proof (step_inv cfg) as Hs. rewrite Hstep in Hs.
  destruct Hs as (e & q & acts & new & Hget & Hacts & HV & Hq & Hnew).
  apply pq_get_Some in Hget.
  unfold frontier_in_universe in *. rewrite Hget in Hinv.
  apply Forall_cons in Hinv as [He Hinv].
  assert (Forall (λ e', same_tiles s0 (node_state (entry_node e'))
                        ∧ node_state (entry_node e') ∉ visited_states cfg') new) as Hnew'.
  { eapply Forall_impl; [exact Hnew|]. intros e'. by apply pushed_same_tiles. }
  split.
  - rewrite Hq. apply Forall_app. split; [done|].
    eapply Forall_impl; [exact Hnew'|]. by intros ? [? _].
  - assert (count (is_visited (visited_states cfg')) new = 0%nat) as Hzero.
    { apply count_none. intros e' He'. rewrite Forall_forall in Hnew'.
      apply bool_decide_eq_false. by apply Hnew'. }
    unfold unvisited, stale. rewrite Hq, count_app, Hzero, Nat.add_0_r.
    rewrite (count_perm _ _ _ Hget).
    destruct (decide (node_state (entry_node e) ∈ visited_states cfg)) as [Hin|Hnotin].
    + right. assert (visited_states cfg' = visited_states cfg) as ->
        by (rewrite HV, (comm_L (∪));
          apply subseteq_union_1_L, singleton_subseteq_l, Hin).
      split; [done|]. rewrite (count_app _ [e] q). unfold count at 2. simpl.
      unfold is_visited at 2. rewrite bool_decide_eq_true_2 by done. simpl. lia.
    + left. apply subset_size. rewrite HV.
      pose proof (in_universe _ _ He) as HU. split.
      * intros x [Hx Hnx]%elem_of_difference. apply elem_of_difference.
        split; [done|]. intros Hxv. apply Hnx, elem_of_union. by left.
      * intros Hsub. specialize (Hsub (node_state (entry_node e))).
        rewrite !elem_of_difference, elem_of_union, elem_of_singleton in Hsub.
        destruct Hsub as [_ Hsub]; [done|]. apply Hsub. by right.
Qed.

Lemma loop_terminates_aux (n1 n2 : nat) cfg :
  frontier_in_universe cfg →
  (unvisited cfg ≤ n1)%nat → (stale cfg ≤ n2)%nat →
  ∃ fuel r, loop uuid4 fuel cfg = Returned r.
Proof.
  revert n2 cfg. induction n1 as [n1 IH1] using lt_wf_ind. intros n2.
  induction n2 as [n2 IH2] using lt_wf_ind. intros cfg Hinv H1 H2.
  destruct (step_progress cfg Hinv) as [[cfg' Hstep]|[r Hstep]];
    [|exists 1%nat, r; simpl; by rewrite Hstep].
  destruct (step_decreases cfg cfg' Hinv Hstep) as [Hinv' [Hlt|[Heq Hlt]]].
  - destruct (IH1 (unvisited cfg') ltac:(lia) (stale cfg') cfg')
      as (fuel & r & Hr); [done..|].
    exists (S fuel), r. simpl. by rewrite Hstep.
  - destruct (IH2 (stale cfg') ltac:(lia) cfg') as (fuel & r & Hr);
      [done|lia|done|].
    exists (S fuel), r. simpl. by rewrite Hstep.
Qed.

Lemma loop_terminates cfg :
  frontier_in_universe cfg → ∃ fuel r, loop uuid4 fuel cfg = Returned r.
Proof. intros. by eapply loop_terminates_aux. Qed.

End search_facts.

Lemma frontier_all_step uuid4 (P : state → Prop) cfg cfg' :
  (∀ s acts act s', P s → get_available_actions s = Some acts →
     act ∈ acts → act s = Some s' → P s') →
  frontier_all P cfg → step uuid4 cfg = inl cfg' → frontier_all P cfg'.
Proof.
  intros Hmove Hall Hstep. pose proof (step_inv uuid4 cfg) as Hs.
  rewrite Hstep in Hs.
  destruct Hs as (e & q & acts & new & Hget & Hacts & _ & Hq & Hnew).
  apply pq_get_Some in Hget. unfold frontier_all in *.
  rewrite Hget in Hall. apply Forall_cons in Hall as [He Hall].
  rewrite Hq. apply Forall_app. split; [done|].
  eapply Forall_impl; [exact Hnew|].
  intros e' (act & st & h & Hin & Hact & _ & _ & _ & _ & ->). simpl.
  by eapply Hmove.
Qed.

Lemma valid_state_move (s s' : state) (acts : list action) (act : action) :
  valid_state s → get_available_actions s = Some acts →
  act ∈ acts → act s = Some s' → valid_state s'.
Proof.
  intros [Hs Hp] Hacts Hin Hact.
  destruct (actions_closed s Hs) as (acts' & Hacts' & Hall).
  assert (acts' = acts) as -> by congruence.
  rewrite Forall_forall in Hall. destruct (Hall act Hin) as (st & Hst & Hs' & Hp').
  assert (st = s') as -> by congruence. split; [done|]. by etrans.
Qed.

(** A property of the configurations that every turn keeps decides what
    the loop can return. *)
Lemma loop_invariant uuid4 (I : config → Prop) (Q : option StateWithParent → Prop) :
  (∀ cfg cfg', I cfg → step uuid4 cfg = inl cfg' → I cfg') →
  (∀ cfg r, I cfg → step uuid4 cfg = inr (Returned r) → Q r) →
  ∀ fuel cfg r, I cfg → loop uuid4 fuel cfg = Returned r → Q r.
Proof.
  intros Hkeep Hend. induction fuel as [|fuel IH]; intros cfg r HI; [done|].
  simpl. destruct (step uuid4 cfg) as [cfg'|out] eqn:Hstep.
  - apply IH. by eapply Hkeep.
  - intros ->. by eapply Hend.
Qed.

Lemma loop_initial_terminates uuid4 (s : state) :
  shape3 s → ∃ fuel r, solve_puzzle uuid4 fuel s = Returned r.
Proof.
  intros Hs. apply (loop_terminates uuid4 s).
  unfold frontier_in_universe, initial_config, pq_put. simpl.
  apply Forall_cons. split; [|by apply Forall_nil]. by split.
Qed.

Lemma ascending_distinct : distinct_tokens ascending.
Proof. intros i j. unfold ascending. lia. Qed.

Lemma descending_distinct : distinct_tokens descending.
Proof. intros i j. unfold descending. lia. Qed.

(** *** Unsolvable states *)

Lemma fill_state_valid (values : list Z) (s : state) :
  values ≡ₚ range2 1 (BOARD_SIZE * BOARD_SIZE + 1) →
  fill_state values = Some s →
  valid_state s ∧ labels s = values.
Proof.
  intros Hp Hfill.
  destruct (fill_state_nine values) as (s' & Hs' & Hc & Hshape).
  { by rewrite Hp, length_range2. }
  assert (s' = s) as -> by congruence. split; [split; [done|]|].
  - rewrite Hc. unfold layout. by rewrite Hp.
  - unfold labels. rewrite Hc. unfold layout. rewrite <- list_fmap_compose.
    rewrite <- (list_fmap_id values) at 2. apply list_fmap_ext.
    intros _ v _. simpl. by destruct (Z.eqb_spec v (BOARD_SIZE * BOARD_SIZE)).
Qed.

(** C6.  From a valid 3×3 state whose labels, read row by row, have an odd
    number of inversions, [solve_puzzle] ends after finitely many turns of
    its loop and returns [None], whatever distinct tokens [uuid4] draws. *)
Theorem unsolvable_is_exhausted (uuid4 : nat → Z) (s : state) :
  distinct_tokens uuid4 →
  valid_state s →
  Nat.odd (inversion_count (BOARD_SIZE * BOARD_SIZE) (labels s)) = true →
  ∃ fuel, solve_puzzle uuid4 fuel s = Returned None.
Proof.
  intros _ Hv Hodd.
  assert (solvable_state s = false) as Hs.
  { unfold solvable_state. rewrite is_problem_solvable_inversions.
    destruct (shape3_inv s (proj1 Hv)) as (a&b&c&d&e&f&g&h&i&->).
    change (Z.of_nat (length _)) with (BOARD_SIZE * BOARD_SIZE).
    by rewrite <- Nat.negb_odd, Hodd. }
  destruct (loop_initial_terminates uuid4 s (proj1 Hv)) as (fuel & r & Hr).
  exists fuel. rewrite Hr. do 2 f_equal.
  set (P := λ s', valid_state s' ∧ solvable_state s' = false).
  assert (∀ s1 acts act s2, P s1 → get_available_actions s1 = Some acts →
            act ∈ acts → act s1 = Some s2 → P s2) as Hmove.
  { intros s1 acts act s2 [Hv1 Hs1] Hacts Hin Hact. split.
    - by eapply valid_state_move.
    - by rewrite (move_parity s1 s2 acts act). }
  apply (loop_invariant uuid4 (frontier_all P) (λ r, r = None)) in Hr; [done|..].
  - intros cfg cfg'. by apply frontier_all_step.
  - intros cfg [goal|] Hall Hstep; [exfalso|done].
    pose proof (step_inv uuid4 cfg) as Hst. rewrite Hstep in Hst.
    destruct Hst as (e & q & acts & act & st & Hget & Hacts & Hin & Hact & _ & Hzero & _).
    apply pq_get_Some in Hget. unfold frontier_all in Hall. rewrite Hget in Hall.
    apply Forall_cons in Hall as [He _].
    destruct (Hmove _ _ _ _ He Hacts Hin Hact) as [Hvst Hsst].
    rewrite (heuristic_zero_goal st Hvst Hzero) in Hsst. done.
  - apply Forall_cons. split; [|by apply Forall_nil]. by split.
Qed.

Lemma unsolvable_is_exhausted_witness :
  ∃ fuel, solve_puzzle ascending fuel swapped_pair_state = Returned None.
Proof.
  apply (unsolvable_is_exhausted ascending swapped_pair_state).
  - apply ascending_distinct.
  - split; [split; [done|by repeat constructor]|].
    apply (bool_decide_unpack _). by vm_compute.
  - by vm_compute.
Defined.

(** *** The goal state as input *)

(** C1.  The root is pushed and expanded without being tested: from the
    goal state the search visits the goal first, can then never return it,
    and ends with [None]; no path of length 1 is returned.  From the state
    one move away it returns the path of length 2. *)
Theorem goal_state_is_not_recognised (uuid4 : nat → Z) :
  distinct_tokens uuid4 →
  (∃ fuel, solve_puzzle uuid4 fuel goal_state = Returned None)
  ∧ (∀ fuel,
       solve_puzzle uuid4 (S fuel) one_move_state
       = Returned (Some (Node goal_state (Some (Node one_move_state None))))).
Proof.
  intros _. split; [|intros fuel; by vm_compute].
  assert (valid_state goal_state) as Hgoal.
  { split; [split; [done|by repeat constructor]|done]. }
  destruct (loop_initial_terminates uuid4 goal_state (proj1 Hgoal)) as (fuel & r & Hr).
  exists fuel. rewrite Hr. do 2 f_equal.
  set (I := λ cfg, frontier_all valid_state cfg
                   ∧ (goal_state ∈ visited_states cfg
                      ∨ frontier_all (λ s, s = goal_state) cfg)).
  assert (∀ cfg e q, I cfg → pq_get (queue cfg) = Some (e, q) →
            valid_state (node_state (entry_node e))
            ∧ goal_state ∈ visited_states cfg ∪ {[ node_state (entry_node e) ]})
    as Hpop.
  { intros cfg e q [Hall [Hin|Hroot]] Hget%pq_get_Some;
      unfold frontier_all in *; rewrite Hget in Hall;
      apply Forall_cons in Hall as [He _]; (split; [done|]).
    - apply elem_of_union. by left.
    - rewrite Hget in Hroot. apply Forall_cons in Hroot as [-> _].
      apply elem_of_union. right. by apply elem_of_singleton. }
  apply (loop_invariant uuid4 I (λ r, r = None)) in Hr; [done|..].
  - intros cfg cfg' HI Hstep. split.
    + destruct HI as [Hall _]. revert Hall Hstep. apply frontier_all_step.
      intros s acts act s'. apply valid_state_move.
    + left. pose proof (step_inv uuid4 cfg) as Hs. rewrite Hstep in Hs.
      destruct Hs as (e & q & acts & new & Hget & _ & -> & _).
      by apply (Hpop cfg e q).
  - intros cfg [goal|] HI Hstep; [exfalso|done].
    pose proof (step_inv uuid4 cfg) as Hs. rewrite Hstep in Hs.
    destruct Hs as (e & q & acts & act & st & Hget & Hacts & Hin & Hact & Hnew & Hzero & _).
    destruct (Hpop cfg e q HI Hget) as [He Hvis].
    pose proof (valid_state_move _ _ _ _ He Hacts Hin Hact) as Hvst.
    rewrite (heuristic_zero_goal st Hvst Hzero) in Hnew. done.
  - split; [|right]; unfold frontier_all, initial_config, pq_put; simpl;
      (apply Forall_cons; split; [done|by apply Forall_nil]).
Qed.

Lemma goal_state_is_not_recognised_witness :
  (∃ fuel, solve_puzzle ascending fuel goal_state = Returned None)
  ∧ (∀ fuel,
       solve_puzzle ascending (S fuel) one_move_state
       = Returned (Some (Node goal_state (Some (Node one_move_state None))))).
Proof. apply (goal_state_is_not_recognised ascending), ascending_distinct. Defined.

(** *** Tokens *)

Section same_order.
Variables u1 u2 : nat → Z.
Hypothesis Horder : same_order u1 u2.

Local Abbreviation entry_rel := (PuzzleSpec.entry_rel u1 u2).
Local Abbreviation config_rel := (PuzzleSpec.config_rel u1 u2).

Lemma entry_lt_rel (a1 a2 b1 b2 : entry) :
  entry_rel a1 a2 → entry_rel b1 b2 → entry_lt a1 b1 = entry_lt a2 b2.
Proof.
  intros (Hp & _ & i & Hi1 & Hi2) (Hq & _ & j & Hj1 & Hj2). unfold entry_lt.
  by rewrite Hp, Hq, Hi1, Hi2, Hj1, Hj2, (Horder i j).
Qed.

Lemma pq_get_rel (q1 q2 : list entry) :
  Forall2 entry_rel q1 q2 →
  match pq_get q1, pq_get q2 with
  | Some (e1, r1), Some (e2, r2) => entry_rel e1 e2 ∧ Forall2 entry_rel r1 r2
  | None, None => True
  | _, _ => False
  end.
Proof.
  induction 1 as [|a1 a2 q1 q2 Ha Hq IH]; [done|]. simpl.
  destruct (pq_get q1) as [[m1 r1]|], (pq_get q2) as [[m2 r2]|]; try done.
  destruct IH as [Hm Hr]. rewrite (entry_lt_rel m1 m2 a1 a2 Hm Ha).
  destruct (entry_lt m2 a2); split; try done. by constructor.
Qed.

Lemma expand_rel acts cur pc V (q1 q2 : list entry) k :
  Forall2 entry_rel q1 q2 →
  match expand u1 acts cur pc V q1 k, expand u2 acts cur pc V q2 k with
  | Some (inl g1), Some (inl g2) => g1 = g2
  | Some (inr (r1, k1)), Some (inr (r2, k2)) =>
      Forall2 entry_rel r1 r2 ∧ k1 = k2
  | None, None => True
  | _, _ => False
  end.
Proof.
  revert q1 q2 k. induction acts as [|act acts IH]; intros q1 q2 k Hq; simpl.
  - done.
  - destruct (act (node_state cur)) as [st|]; [simpl|done].
    case_decide; [by apply IH|].
    destruct (heuristic_cost st) as [h|]; [simpl|done].
    destruct (h =? 0); [done|]. apply IH. unfold pq_put.
    apply Forall2_app; [done|]. constructor; [|constructor].
    split; [done|]. split; [done|]. by exists k.
Qed.

Lemma step_rel (c1 c2 : config) :
  config_rel c1 c2 →
  match step u1 c1, step u2 c2 with
  | inl c1', inl c2' => config_rel c1' c2'
  | inr o1, inr o2 => o1 = o2
  | _, _ => False
  end
  ∧ match pq_get (queue c1), pq_get (queue c2) with
    | Some (e1, _), Some (e2, _) => entry_node e1 = entry_node e2
    | None, None => True
    | _, _ => False
    end.
Proof.
  intros (Hq & HV & Hk). unfold step. pose proof (pq_get_rel _ _ Hq) as Hget.
  destruct (pq_get (queue c1)) as [[[[pc1 t1] n1] r1]|],
    (pq_get (queue c2)) as [[[[pc2 t2] n2] r2]|]; try done.
  destruct Hget as [(Hp & Hn & _) Hr].
  unfold priority, entry_node in Hp, Hn. simpl in Hp, Hn. subst pc2 n2.
  split; [|done]. rewrite <- HV, <- Hk.
  destruct (get_available_actions (node_state n1)) as [acts|]; [|done].
  pose proof (expand_rel acts n1 pc1
                (visited_states c1 ∪ {[state_to_tuple (node_state n1)]})
                r1 r2 (calls c1) Hr) as Hexp.
  destruct (expand u1 _ _ _ _ _ _) as [[g1|[q1' k1]]|],
    (expand u2 _ _ _ _ _ _) as [[g2|[q2' k2]]|]; try done.
  - by subst.
  - destruct Hexp as [? ->]. by repeat split.
Qed.

Lemma loop_rel (fuel : nat) (c1 c2 : config) :
  config_rel c1 c2 → loop u1 fuel c1 = loop u2 fuel c2.
Proof.
  revert c1 c2. induction fuel as [|fuel IH]; intros c1 c2 Hrel; [done|].
  simpl. destruct (step_rel c1 c2 Hrel) as [Hstep _].
  destruct (step u1 c1), (step u2 c2); try done. by apply IH.
Qed.

Lemma expansions_rel (n : nat) (c1 c2 : config) :
  config_rel c1 c2 → expansions u1 n c1 = expansions u2 n c2.
Proof.
  revert c1 c2. induction n as [|n IH]; intros c1 c2 Hrel; [done|].
  simpl. destruct (step_rel c1 c2 Hrel) as [Hstep Hpop].
  destruct (pq_get (queue c1)) as [[e1 r1]|], (pq_get (queue c2)) as [[e2 r2]|];
    try done.
  rewrite Hpop. f_equal.
  destruct (step u1 c1), (step u2 c2); try done. by apply IH.
Qed.

End same_order.

(** C5, counterexample.  Two runs on the same initial state, with tokens
    that are all version 4 UUIDs: one draws them in ascending order, the
    other in descending order.  The second state they expand differs, and
    so does the path they return. *)
Lemma tokens_decide_the_run :
  distinct_tokens ascending ∧ distinct_tokens descending
  ∧ (∀ k, (k < 64)%nat → is_uuid4 (ascending k) = true
                         ∧ is_uuid4 (descending k) = true)
  ∧ expansions ascending 2 (initial_config ascending tie_state)
    ≠ expansions descending 2 (initial_config descending tie_state)
  ∧ ∃ n1 n2,
      solve_puzzle ascending 18 tie_state = Returned (Some n1)
      ∧ solve_puzzle descending 14 tie_state = Returned (Some n2)
      ∧ chain n1 ≠ chain n2.
Proof.
  split; [apply ascending_distinct|]. split; [apply descending_distinct|].
  split; [|split].
  - intros k Hk.
    assert (forallb (λ k, is_uuid4 (ascending k) && is_uuid4 (descending k))
              (seq 0 64) = true) as Hall by (by vm_compute).
    rewrite forallb_forall in Hall. apply andb_true_iff, Hall, in_seq. lia.
  - by vm_compute.
  - eexists _, _. split; [by vm_compute|]. split; [by vm_compute|]. by vm_compute.
Qed.

(** C5, as amended.  The tie-break key is a fresh random token, and it
    decides the order of equal-priority entries only through the way the
    tokens compare: two runs on the same initial state whose tokens are
    distinct and ordered alike (the i-th below the j-th in one run exactly
    when it is in the other) expand the same states in the same order and
    return the same result. *)
Theorem runs_agree_on_token_order (u1 u2 : nat → Z) (s : state) (n : nat) :
  distinct_tokens u1 → distinct_tokens u2 → same_order u1 u2 →
  expansions u1 n (initial_config u1 s) = expansions u2 n (initial_config u2 s)
  ∧ solve_puzzle u1 n s = solve_puzzle u2 n s.
Proof.
  intros _ _ Horder.
  assert (config_rel u1 u2 (initial_config u1 s) (initial_config u2 s)) as Hrel.
  { split; [|done]. constructor; [|constructor].
    split; [done|]. split; [done|]. by exists 0%nat. }
  split; [by apply expansions_rel|by apply loop_rel].
Qed.

Lemma runs_agree_on_token_order_witness :
  expansions ascending 20 (initial_config ascending tie_state)
  = expansions (λ k, Z.of_nat k) 20 (initial_config (λ k, Z.of_nat k) tie_state)
  ∧ solve_puzzle ascending 20 tie_state
    = solve_puzzle (λ k, Z.of_nat k) 20 tie_state.
Proof.
  apply (runs_agree_on_token_order ascending (λ k, Z.of_nat k) tie_state 20).
  { apply ascending_distinct. }
  { intros i j. lia. }
  intros i j. unfold ascending.
  destruct (Z.ltb_spec (2 ^ 78 + 2 ^ 63 + Z.of_nat i) (2 ^ 78 + 2 ^ 63 + Z.of_nat j)),
    (Z.ltb_spec (Z.of_nat i) (Z.of_nat j)); (done || lia).
Defined.

(** *** Priorities *)

Lemma step_accumulates uuid4 cfg cfg' :
  Forall accumulates (queue cfg) → step uuid4 cfg = inl cfg' →
  Forall accumulates (queue cfg').
Proof.
  intros Hall Hstep. pose proof (step_inv uuid4 cfg) as Hs.
  rewrite Hstep in Hs.
  destruct Hs as (e & q & acts & new & Hget & _ & _ & Hq & Hnew).
  apply pq_get_Some in Hget. rewrite Hget in Hall.
  apply Forall_cons in Hall as [He Hall].
  rewrite Hq. apply Forall_app. split; [done|].
  eapply Forall_impl; [exact Hnew|].
  intros e' (act & st & h & _ & _ & _ & Hh & _ & Hprio & Hnode).
  unfold accumulates in *. rewrite Hnode, Hprio. simpl.
  rewrite Hh. simpl. by rewrite He.
Qed.

Lemma run_accumulates uuid4 (n : nat) cfg cfg' :
  Forall accumulates (queue cfg) → run uuid4 n cfg = Some cfg' →
  Forall accumulates (queue cfg').
Proof.
  revert cfg. induction n as [|n IH]; intros cfg Hall; simpl.
  - by intros [= <-].
  - destruct (step uuid4 cfg) as [cfg1|] eqn:Hstep; [|done].
    apply IH. by eapply step_accumulates.
Qed.

(** C2.  What the code pushes: the priority of a frontier entry is the sum
    of the heuristic costs of the states on its path, the root left out;
    the number of moves is not part of it.  After the first turn from the
    state two moves from the goal the frontier holds a node one move from
    the root with heuristic cost 2 and priority 2, not 3; after six turns
    from [tie_state] it holds a node three moves from the root with
    heuristic cost 4 and priority 14, not 7. *)
Theorem priority_accumulates_heuristics (uuid4 : nat → Z) :
  distinct_tokens uuid4 →
  (∀ n s, match run uuid4 n (initial_config uuid4 s) with
          | Some cfg => Forall accumulates (queue cfg)
          | None => True
          end)
  ∧ (∃ cfg e,
       run uuid4 1 (initial_config uuid4 two_moves_state) = Some cfg
       ∧ e ∈ queue cfg ∧ moves (entry_node e) = 1
       ∧ heuristic_cost (node_state (entry_node e)) = Some 2
       ∧ priority e = 2)
  ∧ (∃ cfg e,
       run ascending 6 (initial_config ascending tie_state) = Some cfg
       ∧ e ∈ queue cfg ∧ moves (entry_node e) = 3
       ∧ heuristic_cost (node_state (entry_node e)) = Some 4
       ∧ priority e = 14).
Proof.
  intros _. split; [|split].
  - intros n s.
    destruct (run uuid4 n (initial_config uuid4 s)) as [cfg|] eqn:Hrun; [|done].
    eapply run_accumulates; [|exact Hrun].
    apply Forall_cons. split; [done|by apply Forall_nil].
  - eexists _, _. split; [by vm_compute|].
    split; [right; left|]. by vm_compute.
  - eexists _, _. split; [by vm_compute|].
    split; [do 7 right; left|]. by vm_compute.
Qed.

Lemma priority_accumulates_heuristics_witness :
  (∀ n s, match run ascending n (initial_config ascending s) with
          | Some cfg => Forall accumulates (queue cfg)
          | None => True
          end)
  ∧ (∃ cfg e,
       run ascending 1 (initial_config ascending two_moves_state) = Some cfg
       ∧ e ∈ queue cfg ∧ moves (entry_node e) = 1
       ∧ heuristic_cost (node_state (entry_node e)) = Some 2
       ∧ priority e = 2)
  ∧ (∃ cfg e,
       run ascending 6 (initial_config ascending tie_state) = Some cfg
       ∧ e ∈ queue cfg ∧ moves (entry_node e) = 3
       ∧ heuristic_cost (node_state (entry_node e)) = Some 4
       ∧ priority e = 14).
Proof. apply (priority_accumulates_heuristics ascending), ascending_distinct. Defined.

(** *** Expansions *)

(** C4.  A run that expands a state twice.  From [detour_state], with
    tokens in ascending order, the turns 37 and 38 of the loop both take
    the same state from the frontier and expand it: two entries for it
    were pushed before either was taken, and nothing is tested when an
    entry is taken.  The run goes on to return a solution. *)
Theorem state_expanded_twice :
  valid_state detour_state
  ∧ (∃ s, expansions ascending 38 (initial_config ascending detour_state)
            !! 36%nat = Some s
          ∧ expansions ascending 38 (initial_config ascending detour_state)
              !! 37%nat = Some s)
  ∧ (∃ n, solve_puzzle ascending 160 detour_state = Returned (Some n)
          ∧ path_length n = 13%nat).
Proof.
  split; [|split].
  - split; [split; [done|by repeat constructor]|].
    apply (bool_decide_unpack _). by vm_compute.
  - eexists. split; by vm_compute.
  - eexists. split; by vm_compute.
Qed.

Import PyOut.

(** *** get_available_actions *)

Local Ltac split_cells :=
  repeat match goal with
         | H : Some ?x ≠ Some None |- _ =>
             destruct x; [clear H|by destruct H]
         | H : Some ?x = Some None |- _ => injection H as ->
         end.

Local Ltac case_cells :=
  repeat match goal with x : option Z |- _ => destruct x end.

(** X1.  The scan of [get_available_actions] leaves the inner loop at the
    first [None] of a row and goes on with the next row: on a 3×3 grid
    the actions it returns exchange the first [None] of the last row that
    holds one with its neighbours on the board, in the order up, down,
    left, right. *)
Theorem actions_at_last_blank (s : state) (r c : Z) :
  shape3 s → 0 ≤ r < 3 → 0 ≤ c < 3 →
  get_cell s r c = Some None →
  (∀ c', 0 ≤ c' < c → get_cell s r c' ≠ Some None) →
  (∀ r' c', r < r' < 3 → 0 ≤ c' < 3 → get_cell s r' c' ≠ Some None) →
  get_available_actions s = Some (exchanges r c).
Proof.
  intros (x0&x1&x2&x3&x4&x5&x6&x7&x8&->)%shape3_inv Hr Hc Hblank Hrow Hrows.
  assert (r = 0 ∨ r = 1 ∨ r = 2) as [->|[->| ->]] by lia;
    (assert (c = 0 ∨ c = 1 ∨ c = 2) as [->|[->| ->]] by lia);
    pose proof (Hrow 0) as Hc0; pose proof (Hrow 1) as Hc1;
    pose proof (Hrows 1 0) as H10; pose proof (Hrows 1 1) as H11;
    pose proof (Hrows 1 2) as H12; pose proof (Hrows 2 0) as H20;
    pose proof (Hrows 2 1) as H21; pose proof (Hrows 2 2) as H22;
    clear Hrow Hrows;
    repeat match goal with
           | H : ?a ≤ ?b < ?c → _ |- _ =>
               first [ specialize (H ltac:(lia)) | clear H ]
           | H : ?a < ?b < ?c → _ |- _ =>
               first [ specialize (H ltac:(lia)) | clear H ]
           end;
    repeat match goal with
           | H : context [get_cell ?s ?r ?c] |- _ =>
               let v := eval vm_compute in (get_cell s r c) in
               change (get_cell s r c) with v in H
           end;
    split_cells; case_cells; reflexivity.
Qed.

Lemma actions_at_last_blank_witness :
  get_available_actions one_move_state = Some (exchanges 2 1).
Proof.
  apply (actions_at_last_blank one_move_state 2 1).
  - split; [done|by repeat constructor].
  - lia.
  - lia.
  - reflexivity.
  - intros c' Hc'. assert (c' = 0) as -> by lia. done.
  - intros r' c' Hr'. lia.
Defined.

(** X2.  A grid without [None] is not refused: the scan leaves its
    initial position, and the actions returned are those of the top left
    cell, down and right. *)
Theorem actions_without_blank (s : state) :
  shape3 s → None ∉ concat s →
  get_available_actions s = Some (exchanges 0 0).
Proof.
  intros (x0&x1&x2&x3&x4&x5&x6&x7&x8&->)%shape3_inv Hnone. simpl in Hnone.
  repeat (apply not_elem_of_cons in Hnone as [? Hnone]).
  destruct x0, x1, x2, x3, x4, x5, x6, x7, x8; done.
Qed.

Lemma actions_without_blank_witness :
  get_available_actions full_state = Some (exchanges 0 0).
Proof.
  apply actions_without_blank.
  - split; [done|by repeat constructor].
  - apply (bool_decide_unpack _). by vm_compute.
Defined.

(** *** The moves at the edge of the board *)

(** X3.  The moves themselves do not test the bounds.  To the right of
    the last column and below the last row the subscript is out of range
    and the move raises [IndexError]; left of the first column and above
    the first row the subscript is -1, which Python takes from the end:
    the move exchanges the cell with the one at the other end of its row
    or column. *)
Theorem moves_at_the_edge (s : state) (r c : Z) :
  shape3 s → 0 ≤ r < 3 → 0 ≤ c < 3 →
  move_right s r 2 = None
  ∧ move_down s 2 c = None
  ∧ move_left s r 0 = swap s r 0 r 2
  ∧ move_up s 0 c = swap s 0 c 2 c
  ∧ is_Some (move_left s r 0)
  ∧ is_Some (move_up s 0 c).
Proof.
  intros (x0&x1&x2&x3&x4&x5&x6&x7&x8&->)%shape3_inv Hr Hc.
  assert (r = 0 ∨ r = 1 ∨ r = 2) as [->|[->| ->]] by lia;
    (assert (c = 0 ∨ c = 1 ∨ c = 2) as [->|[->| ->]] by lia);
    repeat split; by eexists.
Qed.

Lemma moves_at_the_edge_witness :
  move_right goal_state 1 2 = None
  ∧ move_down goal_state 2 1 = None
  ∧ move_left goal_state 1 0 = swap goal_state 1 0 1 2
  ∧ move_up goal_state 0 1 = swap goal_state 0 1 2 1
  ∧ is_Some (move_left goal_state 1 0)
  ∧ is_Some (move_up goal_state 0 1).
Proof.
  apply (moves_at_the_edge goal_state 1 1).
  - split; [done|by repeat constructor].
  - lia.
  - lia.
Defined.

(** *** heuristic_cost *)

(** X4.  On a valid state [heuristic_cost] is 0 on the goal and on the
    goal only: the test [cost == 0] of [solve_puzzle] is a goal test. *)
Theorem heuristic_zero_iff_goal (s : state) :
  valid_state s → heuristic_cost s = Some 0 ↔ s = goal_state.
Proof.
  intros Hv. split; [by apply heuristic_zero_goal|]. by intros ->.
Qed.

Lemma heuristic_zero_iff_goal_witness :
  heuristic_cost one_move_state = Some 0 ↔ one_move_state = goal_state.
Proof.
  apply heuristic_zero_iff_goal.
  split; [split; [done|by repeat constructor]|].
  apply (bool_decide_unpack _). by vm_compute.
Defined.

(** Moving a cell by one place changes its distance by one. *)
Lemma distance_step (x : cell) (r c r' c' : Z) :
  Z.abs (r - r') + Z.abs (c - c') = 1 →
  distance r' c' x = distance r c x + 1 ∨ distance r' c' x = distance r c x - 1.
Proof.
  unfold distance. generalize (tile_value x). intros v.
  generalize ((v - 1) ÷ BOARD_SIZE). intros q. unfold BOARD_SIZE. lia.
Qed.

Lemma valid_state_one_blank (s : state) :
  valid_state s → count is_blank (concat s) = 1%nat.
Proof. intros [_ Hp]. by rewrite (count_perm _ _ _ Hp). Qed.

(** X5.  A move changes the heuristic cost by 2 or not at all: the tile
    and the empty cell, which is counted like a tile, each move by one
    place. *)
Theorem heuristic_cost_step (s s' : state) :
  valid_state s → move s s' →
  ∃ h h', heuristic_cost s = Some h ∧ heuristic_cost s' = Some h'
          ∧ (h' = h - 2 ∨ h' = h ∨ h' = h + 2).
Proof.
  intros Hv (acts & act & Hacts & Hin & Hact).
  pose proof (valid_state_one_blank s Hv) as Hcount.
  destruct (shape3_inv s (proj1 Hv)) as (x0&x1&x2&x3&x4&x5&x6&x7&x8&->).
  clear Hv. simpl in Hcount.
  destruct x0 as [x0|], x1 as [x1|], x2 as [x2|], x3 as [x3|], x4 as [x4|],
    x5 as [x5|], x6 as [x6|], x7 as [x7|], x8 as [x8|];
    try discriminate Hcount; clear Hcount;
    injection Hacts as <-;
    repeat (apply elem_of_cons in Hin as [->|Hin]);
    try (by apply elem_of_nil in Hin);
    injection Hact as <-;
    rewrite !heuristic_cost_cells; eexists _, _;
    (split; [reflexivity|]); (split; [reflexivity|]);
    match goal with
    | |- context [distance ?r ?c None] =>
        match goal with
        | |- context [distance ?r' ?c' None] =>
            lazymatch r' with r => fail | _ => idtac end;
            pose proof (distance_step None r c r' c' ltac:(lia))
        | |- context [distance ?r' ?c' None] =>
            lazymatch c' with c => fail | _ => idtac end;
            pose proof (distance_step None r c r' c' ltac:(lia))
        end
    end;
    match goal with
    | |- context [distance ?r ?c (Some ?v)] =>
        match goal with
        | |- context [distance ?r' ?c' (Some v)] =>
            lazymatch r' with r => fail | _ => idtac end;
            pose proof (distance_step (Some v) r c r' c' ltac:(lia))
        | |- context [distance ?r' ?c' (Some v)] =>
            lazymatch c' with c => fail | _ => idtac end;
            pose proof (distance_step (Some v) r c r' c' ltac:(lia))
        end
    end;
    lia.
Qed.

Lemma heuristic_cost_step_witness :
  ∃ h h', heuristic_cost one_move_state = Some h
          ∧ heuristic_cost goal_state = Some h'
          ∧ (h' = h - 2 ∨ h' = h ∨ h' = h + 2).
Proof.
  apply (heuristic_cost_step one_move_state goal_state).
  - split; [split; [done|by repeat constructor]|].
    apply (bool_decide_unpack _). by vm_compute.
  - eexists _, _. split; [reflexivity|]. split; [do 2 right; left|reflexivity].
Defined.

(** *** The moves of a valid state *)

Local Ltac one_blank Hv :=
  let Hcount := fresh "Hcount" in
  pose proof (valid_state_one_blank _ Hv) as Hcount;
  simpl in Hcount;
  repeat match goal with
         | x : option Z |- _ => destruct x
         end;
  try discriminate Hcount; clear Hcount.

Lemma move_cases (s s' : state) :
  valid_state s → move s s' →
  s' ≠ s ∧ move s' s
  ∧ ∃ acts, get_available_actions s = Some acts ∧ (2 ≤ length acts ≤ 4)%nat.
Proof.
  intros Hv (acts & act & Hacts & Hin & Hact).
  destruct (shape3_inv s (proj1 Hv)) as (x0&x1&x2&x3&x4&x5&x6&x7&x8&->).
  one_blank Hv; clear Hv;
    injection Hacts as <-;
    repeat (apply elem_of_cons in Hin as [->|Hin]);
    try (by apply elem_of_nil in Hin);
    injection Hact as <-;
    (split; [by intros [=]|]);
    (split; [|eexists; split; [reflexivity|simpl; lia]]);
    eexists _, _; (split; [reflexivity|]);
    first [ split; [left|reflexivity]
          | split; [right; left|reflexivity]
          | split; [do 2 right; left|reflexivity]
          | split; [do 3 right; left|reflexivity] ].
Qed.

(** X6.  The moves of the program go both ways: if an action offered for
    a valid state leads to a state, an action offered for that state
    leads back. *)
Theorem move_symmetric (s s' : state) :
  valid_state s → move s s' → move s' s.
Proof. intros Hv Hm. by destruct (move_cases s s' Hv Hm) as (_ & ? & _). Qed.

Lemma move_symmetric_witness : move goal_state one_move_state.
Proof.
  apply (move_symmetric one_move_state goal_state).
  - split; [split; [done|by repeat constructor]|].
    apply (bool_decide_unpack _). by vm_compute.
  - eexists _, _. split; [reflexivity|]. split; [do 2 right; left|reflexivity].
Defined.

(** X7.  For a valid state [get_available_actions] returns two, three or
    four actions; each of them, applied to the state, raises nothing and
    returns another valid state, on which [is_problem_solvable] answers as
    on the first. *)
Theorem actions_keep_validity_and_parity (s : state) :
  valid_state s →
  ∃ acts, get_available_actions s = Some acts
    ∧ (2 ≤ length acts ≤ 4)%nat
    ∧ ∀ act, act ∈ acts →
        ∃ s', act s = Some s' ∧ valid_state s' ∧ s' ≠ s
              ∧ solvable_state s' = solvable_state s.
Proof.
  intros Hv. destruct (actions_closed s (proj1 Hv)) as (acts & Hacts & Hall).
  rewrite Forall_forall in Hall.
  assert (∀ act, act ∈ acts → ∃ s', act s = Some s' ∧ move s s') as Hmove.
  { intros act Hin. destruct (Hall act Hin) as (s' & Hact & _).
    exists s'. split; [done|]. by exists acts, act. }
  exists acts. split; [done|]. split.
  - destruct acts as [|act acts'].
    + exfalso. destruct (shape3_inv s (proj1 Hv)) as (x0&x1&x2&x3&x4&x5&x6&x7&x8&->).
      one_blank Hv; discriminate Hacts.
    + destruct (Hmove act) as (s' & _ & Hm); [by left|].
      destruct (move_cases s s' Hv Hm) as (_ & _ & acts0 & Hacts0 & Hlen).
      congruence.
  - intros act Hin. destruct (Hmove act Hin) as (s' & Hact & Hm).
    exists s'. split; [done|]. split; [by eapply valid_state_move|].
    split; [by destruct (move_cases s s' Hv Hm)|by eapply move_parity].
Qed.

Lemma actions_keep_validity_and_parity_witness :
  ∃ acts, get_available_actions tie_state = Some acts
    ∧ (2 ≤ length acts ≤ 4)%nat
    ∧ ∀ act, act ∈ acts →
        ∃ s', act tie_state = Some s' ∧ valid_state s' ∧ s' ≠ tie_state
              ∧ solvable_state s' = solvable_state tie_state.
Proof.
  apply (actions_keep_validity_and_parity tie_state).
  split; [split; [done|by repeat constructor]|].
  apply (bool_decide_unpack _). by vm_compute.
Defined.

(** *** heuristic_cost outside the 3×3 grids *)



(** *** The path that solve_puzzle returns *)

Lemma chain_head (n : StateWithParent) :
  ∃ rest, chain n = node_state n :: rest.
Proof. destruct n as [st [p|]]; simpl; eauto. Qed.

Lemma chain_child (st : state) (p : StateWithParent) :
  chain (Node st (Some p)) = st :: chain p.
Proof. done. Qed.

Lemma linked_snoc (p : list state) (a b : state) :
  linked (p ++ [a]) → move a b → linked ((p ++ [a]) ++ [b]).
Proof.
  induction p as [|x p IH]; simpl; [done|].
  destruct (p ++ [a]) as [|y l] eqn:E; [by destruct p|].
  simpl. intros [Hxy Hl] Hab. split; [done|]. by apply IH.
Qed.

Lemma good_child (s0 : state) (V : gset state) (cur : StateWithParent) (st : state) :
  good s0 V cur → node_state cur ∈ V → st ∉ V →
  move (node_state cur) st → valid_state st →
  good s0 V (Node st (Some cur)).
Proof.
  intros (Hlast & Hlink & Hnd & Hval & Hvis) Hcur Hst Hmove Hvst.
  destruct (chain_head cur) as [rest Hchain].
  assert (∀ x, x ∈ chain cur → x ∈ V) as Hall.
  { intros x. rewrite Hchain. intros [->|Hx]%elem_of_cons; [done|].
    apply Hvis. by rewrite Hchain. }
  unfold good. rewrite chain_child. split; [|split; [|split; [|split]]].
  - rewrite Hchain in *. done.
  - rewrite reverse_cons. rewrite Hchain in *. rewrite reverse_cons in *.
    by apply linked_snoc.
  - constructor; [|done]. intros Hin. by apply Hst, Hall.
  - by constructor.
  - done.
Qed.

Lemma good_mono (s0 : state) (V V' : gset state) (n : StateWithParent) :
  V ⊆ V' → good s0 V n → good s0 V' n.
Proof.
  intros Hsub (? & ? & ? & ? & Hvis). repeat split; try done.
  intros st Hst. by apply Hsub, Hvis.
Qed.

Section soundness.
Variable uuid4 : nat → Z.
Variable s0 : state.

Local Abbreviation all_good := (PuzzleSpec.all_good s0).

Lemma good_node_valid V n : good s0 V n → valid_state (node_state n).
Proof.
  intros (_ & _ & _ & Hval & _). destruct (chain_head n) as [rest Hchain].
  rewrite Hchain in Hval. by apply Forall_cons in Hval as [? _].
Qed.

Lemma all_good_step cfg cfg' :
  all_good cfg → step uuid4 cfg = inl cfg' → all_good cfg'.
Proof.
  intros Hall Hstep. pose proof (step_inv uuid4 cfg) as Hs. rewrite Hstep in Hs.
  destruct Hs as (e & q & acts & new & Hget & Hacts & HV & Hq & Hnew).
  apply pq_get_Some in Hget. unfold all_good in *. rewrite Hget in Hall.
  apply Forall_cons in Hall as [He Hall].
  assert (visited_states cfg ⊆ visited_states cfg') as Hsub
    by (rewrite HV; apply union_subseteq_l).
  rewrite Hq. apply Forall_app. split.
  - eapply Forall_impl; [exact Hall|]. intros e'. by apply good_mono.
  - eapply Forall_impl; [exact Hnew|].
    intros e' (act & st & h & Hin & Hact & Hvis & _ & _ & _ & ->).
    apply good_child; [by eapply good_mono| |done| |].
    + rewrite HV. apply elem_of_union. right. by apply elem_of_singleton.
    + by exists acts, act.
    + eapply valid_state_move; [|done..]. by eapply good_node_valid.
Qed.

Lemma all_good_result cfg goal :
  all_good cfg → step uuid4 cfg = inr (Returned (Some goal)) →
  (∃ V, good s0 V goal)
  ∧ node_state goal = goal_state
  ∧ is_Some (node_parent goal).
Proof.
  intros Hall Hstep. pose proof (step_inv uuid4 cfg) as Hs. rewrite Hstep in Hs.
  destruct Hs as (e & q & acts & act & st & Hget & Hacts & Hin & Hact & Hvis & Hzero & ->).
  apply pq_get_Some in Hget. unfold all_good in *. rewrite Hget in Hall.
  apply Forall_cons in Hall as [He _].
  pose proof (good_node_valid _ _ He) as Hvcur.
  pose proof (valid_state_move _ _ _ _ Hvcur Hacts Hin Hact) as Hvst.
  simpl. split; [|split; [by apply heuristic_zero_goal|by eexists]].
  exists (visited_states cfg ∪ {[ node_state (entry_node e) ]}).
  apply good_child; try done.
  - eapply good_mono; [|exact He]. apply union_subseteq_l.
  - apply elem_of_union. right. by apply elem_of_singleton.
  - by exists acts, act.
Qed.

End soundness.

(** What the invariant says of a node that is returned. *)
Lemma solution_is_a_path_aux (uuid4 : nat → Z) (s : state) (fuel : nat)
    (n : StateWithParent) :
  valid_state s →
  solve_puzzle uuid4 fuel s = Returned (Some n) →
  head (reverse (chain n)) = Some s
  ∧ last (reverse (chain n)) = Some goal_state
  ∧ linked (reverse (chain n))
  ∧ NoDup (reverse (chain n))
  ∧ (2 ≤ path_length n)%nat.
Proof.
  intros Hv Hrun.
  set (Q := λ r : option StateWithParent, ∀ n, r = Some n →
              (∃ V, good s V n) ∧ node_state n = goal_state
              ∧ is_Some (node_parent n)).
  assert (Q (Some n)) as Hres.
  { eapply (loop_invariant uuid4 (all_good s) Q); [| | |exact Hrun].
    - intros cfg cfg'. apply all_good_step.
    - intros cfg r Hall Hstep. unfold Q. intros n' ->.
      by apply (all_good_result uuid4 s cfg n' Hall Hstep).
    - apply Forall_cons. split; [|by apply Forall_nil].
      simpl. repeat split; try done.
      + apply NoDup_singleton.
      + by apply Forall_singleton.
      + by intros st ?%elem_of_nil. }
  destruct (Hres n eq_refl) as ([V (Hlast & Hlink & Hnd & _)] & Hgoal & [p Hp]).
  destruct (chain_head n) as [rest Hchain].
  split; [|split; [|split; [|split]]].
  - by rewrite head_reverse.
  - rewrite last_reverse, Hchain. simpl. by rewrite Hgoal.
  - done.
  - by rewrite reverse_Permutation.
  - unfold path_length. destruct n as [st [p'|]]; [|done].
    simpl. destruct (chain_head p') as [rest' ->]. simpl. lia.
Qed.

(** X9.  A node that [solve_puzzle] returns for a valid state is a
    solution: read from the root, its states start with the initial state
    and end with the goal, each is one move of the empty cell from the one
    before, and no state occurs twice. *)
Theorem solution_is_a_path (uuid4 : nat → Z) (s : state) (fuel : nat)
    (n : StateWithParent) :
  distinct_tokens uuid4 → valid_state s →
  solve_puzzle uuid4 fuel s = Returned (Some n) →
  head (reverse (chain n)) = Some s
  ∧ last (reverse (chain n)) = Some goal_state
  ∧ linked (reverse (chain n))
  ∧ NoDup (reverse (chain n))
  ∧ (2 ≤ path_length n)%nat.
Proof. intros _. apply solution_is_a_path_aux. Qed.

Lemma solution_is_a_path_witness :
  ∃ n, solve_puzzle ascending 18 tie_state = Returned (Some n)
       ∧ head (reverse (chain n)) = Some tie_state
       ∧ last (reverse (chain n)) = Some goal_state
       ∧ linked (reverse (chain n))
       ∧ NoDup (reverse (chain n))
       ∧ (2 ≤ path_length n)%nat.
Proof.
  eexists. split; [by vm_compute|].
  apply (solution_is_a_path ascending tie_state 18).
  - apply ascending_distinct.
  - split; [split; [done|by repeat constructor]|].
    apply (bool_decide_unpack _). by vm_compute.
  - by vm_compute.
Defined.

(** *** Termination and completeness *)

Section completeness.
Variable uuid4 : nat → Z.

Lemma expand_covers acts cur pc V q k q' k' :
  expand uuid4 acts cur pc V q k = Some (inr (q', k')) →
  ∀ act st, act ∈ acts → act (node_state cur) = Some st →
    st ∈ V ∨ ∃ e, e ∈ q' ∧ node_state (entry_node e) = st.
Proof.
  revert q k. induction acts as [|a acts IH]; intros q k Hexp act st Hin Hact.
  { by apply elem_of_nil in Hin. }
  simpl in Hexp.
  destruct (a (node_state cur)) as [st0|] eqn:Ha; [simpl in Hexp|done].
  case_decide as Hvis; unfold state_to_tuple in Hvis.
  - apply elem_of_cons in Hin as [->|Hin]; [left; congruence|by eapply IH].
  - destruct (heuristic_cost st0) as [h|]; [simpl in Hexp|done].
    destruct (h =? 0); [done|].
    apply elem_of_cons in Hin as [->|Hin]; [|by eapply IH].
    right. apply expand_inr in Hexp as (new & -> & _).
    exists (h + pc, uuid4 k, Node st0 (Some cur)). split.
    + unfold pq_put. apply elem_of_app. left. apply elem_of_app. right. by left.
    + simpl. congruence.
Qed.

Lemma step_covers cfg cfg' :
  step uuid4 cfg = inl cfg' →
  ∃ e q acts,
    pq_get (queue cfg) = Some (e, q)
    ∧ get_available_actions (node_state (entry_node e)) = Some acts
    ∧ ∀ act st, act ∈ acts → act (node_state (entry_node e)) = Some st →
        st ∈ visited_states cfg' ∨ st ∈ frontier cfg'.
Proof.
  unfold step.
  destruct (pq_get (queue cfg)) as [[[[pc tok] cur] q]|] eqn:Hget; [|done].
  destruct (get_available_actions (node_state cur)) as [acts|] eqn:Hacts; [|done].
  destruct (expand _ _ _ _ _ _ _) as [[goal|[q' k']]|] eqn:Hexp; try done.
  intros [= <-]. exists (pc, tok, cur), q, acts. split; [done|]. split; [done|].
  intros act st Hin Hact.
  destruct (expand_covers _ _ _ _ _ _ _ _ Hexp act st Hin Hact) as [?|(e & He & Hst)];
    [by left|right].
  unfold frontier. simpl. apply list_elem_of_fmap. by exists e.
Qed.

Variable s0 : state.

Lemma closed_step cfg cfg' :
  closed s0 cfg → step uuid4 cfg = inl cfg' → closed s0 cfg'.
Proof.
  intros (Hroot & Hclosed & HgV & HgF & Hval) Hstep.
  destruct (step_covers cfg cfg' Hstep) as (e & q & acts & Hget & Hacts & Hcov).
  pose proof (step_inv uuid4 cfg) as Hs. rewrite Hstep in Hs.
  destruct Hs as (e' & q' & acts' & new & Hget' & Hacts' & HV & Hq & Hnew).
  assert (e' = e ∧ q' = q) as [-> ->] by (split; congruence).
  assert (acts' = acts) as -> by congruence. clear Hget' Hacts'.
  apply pq_get_Some in Hget.
  assert (frontier cfg ≡ₚ node_state (entry_node e) :: frontier (Config q ∅ 0))
    as Hfr by (unfold frontier; simpl; by rewrite Hget).
  assert (frontier cfg' = frontier (Config q ∅ 0) ++ frontier (Config new ∅ 0))
    as Hfr' by (unfold frontier; simpl; by rewrite Hq, fmap_app).
  assert (∀ x, x ∈ visited_states cfg ∨ x ∈ frontier cfg →
               x ∈ visited_states cfg' ∨ x ∈ frontier cfg') as Hkeep.
  { intros x [Hx|Hx]; [left; rewrite HV; apply elem_of_union; by left|].
    rewrite Hfr in Hx. apply elem_of_cons in Hx as [->|Hx].
    - left. rewrite HV. apply elem_of_union. right. by apply elem_of_singleton.
    - right. rewrite Hfr'. apply elem_of_app. by left. }
  rewrite Hfr in Hval, HgF. apply Forall_cons in Hval as [Hve Hvq].
  apply not_elem_of_cons in HgF as [Hge Hgq].
  split; [by apply Hkeep|]. split; [|split; [|split]].
  - intros v v'. rewrite HV at 1. intros [Hv|Hv%elem_of_singleton]%elem_of_union Hmove.
    + by apply Hkeep, (Hclosed v).
    + subst v. destruct Hmove as (acts0 & act & Hacts0 & Hin & Hact).
      assert (acts0 = acts) as -> by congruence. by eapply Hcov.
  - rewrite HV. intros [?|?%elem_of_singleton]%elem_of_union; [done|]. done.
  - rewrite Hfr'. intros [?|Hin]%elem_of_app; [done|].
    unfold frontier in Hin. simpl in Hin.
    apply list_elem_of_fmap in Hin as (e2 & Hst & He2).
    rewrite Forall_forall in Hnew.
    destruct (Hnew e2 He2) as (act & st & h & _ & _ & _ & Hh & Hne & _ & Hnode).
    cbv beta in Hst. rewrite Hnode in Hst. simpl in Hst. subst st.
    apply Hne. by vm_compute in Hh; injection Hh as <-.
  - rewrite Hfr'. apply Forall_app. split; [done|].
    unfold frontier. simpl. apply Forall_fmap.
    eapply Forall_impl; [exact Hnew|].
    intros e2 (act & st & h & Hin & Hact & _ & _ & _ & _ & Hnode).
    unfold compose. rewrite Hnode. simpl. by eapply valid_state_move.
Qed.

Lemma closed_reach cfg :
  closed s0 cfg → queue cfg = [] → ∀ s, rtc move s0 s → s ∈ visited_states cfg.
Proof.
  intros (Hroot & Hclosed & _) Hq.
  assert (∀ x, x ∈ visited_states cfg ∨ x ∈ frontier cfg → x ∈ visited_states cfg)
    as Hin.
  { intros x [?|Hx]; [done|]. unfold frontier in Hx. rewrite Hq in Hx.
    by apply elem_of_nil in Hx. }
  apply (rtc_ind_r (λ s, s ∈ visited_states cfg)).
  - by apply Hin.
  - intros s1 s2 _ Hmove IH. by apply Hin, (Hclosed s1).
Qed.

End completeness.

(** X10.  On a valid state [solve_puzzle] ends after finitely many turns
    of its loop and returns: it raises nothing. *)
Theorem solve_puzzle_terminates (uuid4 : nat → Z) (s : state) :
  distinct_tokens uuid4 → valid_state s →
  ∃ fuel r, solve_puzzle uuid4 fuel s = Returned r.
Proof. intros _ [Hs _]. by apply loop_initial_terminates. Qed.

Lemma solve_puzzle_terminates_witness :
  ∃ fuel r, solve_puzzle ascending fuel tie_state = Returned r.
Proof.
  apply (solve_puzzle_terminates ascending tie_state).
  - apply ascending_distinct.
  - split; [split; [done|by repeat constructor]|].
    apply (bool_decide_unpack _). by vm_compute.
Defined.

(** X11.  The search is complete but for the root: from a valid state
    other than the goal, from which moves of the program lead to the goal,
    [solve_puzzle] returns a node, and the state of the node is the goal. *)
Theorem reachable_goal_is_found (uuid4 : nat → Z) (s : state) :
  distinct_tokens uuid4 → valid_state s → s ≠ goal_state →
  rtc move s goal_state →
  ∃ fuel n, solve_puzzle uuid4 fuel s = Returned (Some n)
            ∧ node_state n = goal_state.
Proof.
  intros Hd Hv Hne Hreach.
  destruct (loop_initial_terminates uuid4 s (proj1 Hv)) as (fuel & r & Hr).
  exists fuel. destruct r as [n|].
  - exists n. split; [done|].
    pose proof (solution_is_a_path_aux uuid4 s fuel n Hv Hr) as (_ & Hlast & _).
    rewrite last_reverse in Hlast. destruct (chain_head n) as [rest Hchain].
    rewrite Hchain in Hlast. by injection Hlast.
  - exfalso.
    set (Q := λ r : option StateWithParent, r ≠ None).
    assert (Q None) as Hres; [|done].
    eapply (loop_invariant uuid4 (closed s) Q); [| | |exact Hr].
    + intros cfg cfg'. apply closed_step.
    + intros cfg r Hclosed Hstep. unfold Q. intros ->.
      pose proof (step_inv uuid4 cfg) as Hs. rewrite Hstep in Hs.
      destruct Hclosed as (? & ? & HgV & ?).
      apply HgV. eapply (closed_reach s cfg); done.
    + unfold closed, frontier, initial_config, pq_put. simpl.
      split; [right; by left|]. split; [intros v v' ?%elem_of_empty; done|].
      split; [apply not_elem_of_empty|]. split.
      * intros [?|?%elem_of_nil]%elem_of_cons; done.
      * by apply Forall_singleton.
Qed.

Lemma reachable_goal_is_found_witness :
  ∃ fuel n, solve_puzzle ascending fuel one_move_state = Returned (Some n)
            ∧ node_state n = goal_state.
Proof.
  apply (reachable_goal_is_found ascending one_move_state).
  - apply ascending_distinct.
  - split; [split; [done|by repeat constructor]|].
    apply (bool_decide_unpack _). by vm_compute.
  - done.
  - apply rtc_once. eexists _, _. split; [reflexivity|].
    split; [do 2 right; left|reflexivity].
Defined.

(** *** is_problem_solvable *)

Lemma inv_swap_head (empty x y : Z) (q : list Z) :
  x ≠ empty → y ≠ empty → x ≠ y →
  Nat.even (inv empty (y :: x :: q)) = negb (Nat.even (inv empty (x :: y :: q))).
Proof.
  intros Hx Hy Hxy. cbn [inv]. rewrite !count_cons.
  rewrite (out_of_order_flip empty y x) by (done || congruence).
  generalize (count (out_of_order empty x) q) (count (out_of_order empty y) q)
    (inv empty q).
  intros cx cy i.
  rewrite !Nat.even_add.
  destruct (out_of_order empty x y); simpl;
    by destruct (Nat.even cx), (Nat.even cy), (Nat.even i).
Qed.

Lemma inv_swap (empty x y : Z) (p q : list Z) :
  x ≠ empty → y ≠ empty → x ≠ y →
  Nat.even (inv empty (p ++ y :: x :: q))
  = negb (Nat.even (inv empty (p ++ x :: y :: q))).
Proof.
  intros Hx Hy Hxy. induction p as [|a p IH]; [by apply inv_swap_head|].
  cbn [app inv].
  rewrite (count_perm _ (p ++ y :: x :: q) (p ++ x :: y :: q))
    by (apply Permutation_app_head, perm_swap).
  rewrite !Nat.even_add, IH.
  by destruct (Nat.even (count _ _)), (Nat.even (inv empty (p ++ x :: y :: q))).
Qed.

(** X12.  Exchanging two neighbours of the list, different from each other
    and from the label that stands for the empty cell (the length of the
    list), turns the answer of [is_problem_solvable] into its opposite. *)
Theorem adjacent_swap_flips (p q : list Z) (x y : Z) :
  x ≠ Z.of_nat (length p + length q + 2) →
  y ≠ Z.of_nat (length p + length q + 2) →
  x ≠ y →
  is_problem_solvable (p ++ y :: x :: q)
  = negb (is_problem_solvable (p ++ x :: y :: q)).
Proof.
  intros Hx Hy Hxy. rewrite !is_problem_solvable_inv.
  assert (∀ a b, length (p ++ a :: b :: q) = (length p + length q + 2)%nat) as Hlen
    by (intros; rewrite length_app; simpl; lia).
  rewrite !Hlen. by apply inv_swap.
Qed.

Lemma adjacent_swap_flips_witness :
  is_problem_solvable ([1; 2; 3; 4; 5; 6] ++ 8 :: 7 :: [9])
  = negb (is_problem_solvable ([1; 2; 3; 4; 5; 6] ++ 7 :: 8 :: [9])).
Proof. apply (adjacent_swap_flips [1; 2; 3; 4; 5; 6] [9] 7 8); simpl; lia. Defined.

Lemma inv_sorted (empty : Z) (values : list Z) :
  (∀ i j x y, (i < j)%nat → values !! i = Some x → values !! j = Some y → x ≤ y) →
  inv empty values = 0%nat.
Proof.
  induction values as [|x l IH]; intros Hs; [done|]. cbn [inv].
  rewrite IH, Nat.add_0_r.
  - apply count_none. intros y Hy. apply list_elem_of_lookup in Hy as [j Hj].
    pose proof (Hs 0%nat (S j) x y ltac:(lia) eq_refl Hj) as Hle.
    unfold out_of_order. rewrite Z.gtb_ltb.
    destruct (Z.ltb_spec y x); [lia|]. by rewrite andb_false_r.
  - intros i j a b Hij Ha Hb. apply (Hs (S i) (S j) a b); [lia|done..].
Qed.

(** X13.  A list in ascending order is solvable, whatever its length and
    its values: the empty list and the lists of one value are. *)
Theorem sorted_is_solvable (values : list Z) :
  (∀ i j x y, (i < j)%nat → values !! i = Some x → values !! j = Some y → x ≤ y) →
  is_problem_solvable values = true.
Proof. intros Hs. by rewrite is_problem_solvable_inv, inv_sorted. Qed.

Lemma sorted_is_solvable_witness : is_problem_solvable [2; 4; 4; 7] = true.
Proof.
  apply (sorted_is_solvable [2; 4; 4; 7]).
  intros i j x y Hij Hx Hy.
  destruct i as [|[|[|[|i]]]], j as [|[|[|[|j]]]]; simplify_eq/=; lia.
Defined.

(** *** generate_random_problem *)

(** X14.  The layout loop of [generate_random_problem] reads the first
    nine values: with fewer it raises [IndexError], with nine or more it
    builds a 3×3 grid whose cells, the empty one read as 9, are those
    nine values in order. *)
Theorem fill_state_reads_nine (values : list Z) :
  (fill_state values = None ↔ (length values < 9)%nat)
  ∧ ∀ s, fill_state values = Some s →
      shape3 s ∧ labels s = take 9 values ∧ concat s = layout (take 9 values).
Proof.
  destruct values as [|a [|b [|c [|d [|e [|f [|g [|h [|i rest]]]]]]]]];
    try (split; [split; [simpl; lia|done]|done]).
  set (get := getitem (a :: b :: c :: d :: e :: f :: g :: h :: i :: rest)).
  assert (get 0 = Some a ∧ get 1 = Some b ∧ get 2 = Some c ∧ get 3 = Some d
          ∧ get 4 = Some e ∧ get 5 = Some f ∧ get 6 = Some g ∧ get 7 = Some h
          ∧ get 8 = Some i) as (H0 & H1 & H2 & H3 & H4 & H5 & H6 & H7 & H8).
  { unfold get, getitem. repeat split;
      (rewrite norm_index_nonneg by (simpl; lia)); done. }
  assert (fill_state (a :: b :: c :: d :: e :: f :: g :: h :: i :: rest)
          = Some (to_grid (layout [a; b; c; d; e; f; g; h; i]))) as Hfill.
  { unfold fill_state. fold get. clearbody get. vm_compute.
    rewrite H0; cbv beta iota. rewrite H1; cbv beta iota.
    rewrite H2; cbv beta iota. rewrite H3; cbv beta iota.
    rewrite H4; cbv beta iota. rewrite H5; cbv beta iota.
    rewrite H6; cbv beta iota. rewrite H7; cbv beta iota.
    rewrite H8; cbv beta iota. reflexivity. }
  rewrite Hfill. split; [split; [done|simpl; lia]|].
  intros s [= <-]. split; [split; [done|by repeat constructor]|]. split; [|done].
  unfold labels, layout. cbn [take to_grid concat app fmap list_fmap].
  repeat match goal with
         | |- context [?v =? BOARD_SIZE * BOARD_SIZE] =>
             destruct (Z.eqb_spec v (BOARD_SIZE * BOARD_SIZE)) as [->|?]
         end; done.
Qed.

Lemma rotation_perm (k : nat) (l : list Z) : rotation k l ≡ₚ l.
Proof.
  unfold rotation, rotate. rewrite Permutation_app_comm. by rewrite take_drop.
Qed.

Lemma reshuffle_first shuffle (fuel j k : nat) :
  (j ≤ k)%nat →
  (∀ i, (j ≤ i < k)%nat → is_problem_solvable (draw shuffle i) = false) →
  is_problem_solvable (draw shuffle k) = true →
  reshuffle shuffle fuel (S j) (draw shuffle j)
  = if decide (k - j ≤ fuel)%nat then Returned (draw shuffle k) else OutOfFuel.
Proof.
  revert j. induction fuel as [|fuel IH]; intros j Hjk Hno Hyes; simpl.
  - destruct (decide (j = k)) as [->|Hne].
    + rewrite Hyes. by rewrite decide_True by lia.
    + rewrite Hno by lia. by rewrite decide_False by lia.
  - destruct (decide (j = k)) as [->|Hne].
    + rewrite Hyes. by rewrite decide_True by lia.
    + rewrite Hno by lia. change (shuffle (S j) (draw shuffle j)) with (draw shuffle (S j)).
      rewrite IH; [|lia|intros; apply Hno; lia|done].
      destruct (decide (k - S j ≤ fuel)%nat), (decide (k - j ≤ S fuel)%nat);
        (done || lia).
Qed.

Lemma draw_perm shuffle (k : nat) :
  (∀ j l, shuffle j l ≡ₚ l) →
  draw shuffle k ≡ₚ range2 1 (BOARD_SIZE * BOARD_SIZE + 1).
Proof.
  intros Hsh. induction k as [|k IH]; simpl; [apply Hsh|].
  by rewrite Hsh.
Qed.

(** X15.  [generate_random_problem] returns the layout of the first draw
    that [is_problem_solvable] accepts, a valid state; as long as no draw
    is accepted it goes on shuffling. *)
Theorem generator_returns_first_solvable (shuffle : nat → list Z → list Z)
    (k : nat) :
  (∀ j l, shuffle j l ≡ₚ l) →
  is_problem_solvable (draw shuffle k) = true →
  (∀ j, (j < k)%nat → is_problem_solvable (draw shuffle j) = false) →
  ∃ s, valid_state s ∧ labels s = draw shuffle k
       ∧ (∀ fuel, (k ≤ fuel)%nat →
            generate_random_problem shuffle fuel = Returned s)
       ∧ (∀ fuel, (fuel < k)%nat →
            generate_random_problem shuffle fuel = OutOfFuel).
Proof.
  intros Hsh Hyes Hno.
  destruct (fill_state_nine (draw shuffle k)) as (s & Hfill & _).
  { by rewrite (draw_perm shuffle k Hsh), length_range2. }
  destruct (fill_state_valid (draw shuffle k) s (draw_perm shuffle k Hsh) Hfill)
    as [Hv Hl].
  exists s. split; [done|]. split; [done|].
  assert (∀ fuel, generate_random_problem shuffle fuel
                  = if decide (k ≤ fuel)%nat then Returned s else OutOfFuel) as Hgen.
  { intros fuel. unfold generate_random_problem.
    change (shuffle 0%nat (range2 1 (BOARD_SIZE * BOARD_SIZE + 1)))
      with (draw shuffle 0).
    rewrite (reshuffle_first shuffle fuel 0 k); [|lia|intros; apply Hno; lia|done].
    rewrite Nat.sub_0_r. destruct (decide (k ≤ fuel)%nat); [|done].
    by rewrite Hfill. }
  split; intros fuel Hfuel; rewrite Hgen.
  - by rewrite decide_True.
  - by rewrite decide_False by lia.
Qed.

Lemma generator_returns_first_solvable_witness :
  ∃ s, valid_state s ∧ labels s = draw rotation 1
       ∧ (∀ fuel, (1 ≤ fuel)%nat →
            generate_random_problem rotation fuel = Returned s)
       ∧ (∀ fuel, (fuel < 1)%nat →
            generate_random_problem rotation fuel = OutOfFuel).
Proof.
  apply (generator_returns_first_solvable rotation 1).
  - apply rotation_perm.
  - by vm_compute.
  - intros j Hj. assert (j = 0%nat) as -> by lia. by vm_compute.
Defined.

(** X16.  With a shuffle that permutes, [generate_random_problem] raises
    nothing, and a state it returns is valid and passes the test it was
    drawn for: its cells, read row by row with the empty one as 9, are
    accepted by [is_problem_solvable]. *)
Theorem generated_state_is_valid (shuffle : nat → list Z → list Z) (fuel : nat) :
  (∀ j l, shuffle j l ≡ₚ l) →
  generate_random_problem shuffle fuel ≠ Raised
  ∧ ∀ s, generate_random_problem shuffle fuel = Returned s →
      valid_state s ∧ solvable_state s = true.
Proof.
  intros Hsh. unfold generate_random_problem.
  destruct (reshuffle _ _ _ _) as [v| |] eqn:Hr.
  - apply (reshuffle_returned _ _ _ _ _ Hsh) in Hr as [Hs Hp].
    rewrite Hsh in Hp.
    destruct (fill_state_nine v) as (s' & Hf & _);
      [by rewrite Hp, length_range2|].
    rewrite Hf. split; [done|]. intros s [= <-].
    destruct (fill_state_valid v s' Hp Hf) as [Hv Hl].
    split; [done|]. unfold solvable_state. by rewrite Hl.
  - exfalso. revert Hr. generalize 1%nat.
    generalize (shuffle 0%nat (range2 1 (BOARD_SIZE * BOARD_SIZE + 1))).
    induction fuel as [|fuel IH]; intros l n; simpl;
      destruct (is_problem_solvable l); try done. apply IH.
  - done.
Qed.

Lemma generated_state_is_valid_witness :
  generate_random_problem rotation 1 ≠ Raised
  ∧ ∀ s, generate_random_problem rotation 1 = Returned s →
      valid_state s ∧ solvable_state s = true.
Proof.
  apply (generated_state_is_valid rotation 1).
  apply rotation_perm.
Defined.

(** *** print_state and print_solution *)

Lemma print_state_lines (s : state) (out : list string) :
  print_state s out = out ++ state_lines s.
Proof.
  unfold print_state, state_lines, print. revert out.
  induction s as [|row s IH]; intros out; simpl; [by rewrite app_nil_r|].
  rewrite IH, <- !app_assoc. done.
Qed.

Lemma node_ind (P : StateWithParent → Prop) :
  (∀ st, P (Node st None)) →
  (∀ st p, P p → P (Node st (Some p))) →
  ∀ n, P n.
Proof.
  intros Hroot Hchild. fix IH 1. intros [st [p|]].
  - apply Hchild, IH.
  - apply Hroot.
Qed.

Lemma collect_chain (n : StateWithParent) (stack : list state) :
  collect n stack = stack ++ chain n.
Proof.
  revert stack. induction n as [st|st p IH] using node_ind; intros stack.
  - done.
  - simpl. rewrite IH, <- app_assoc. done.
Qed.

Lemma steps_lines_cons (first : Z) (st : state) (path : list state) :
  steps_lines first (st :: path)
  = ("===STEP " +:+ pretty first +:+ "===") :: state_lines st
    ++ steps_lines (first + 1) path.
Proof.
  unfold steps_lines. rewrite imap_cons. cbn [concat app Z.of_nat].
  rewrite Z.add_0_r. do 3 f_equal.
  apply imap_ext. intros i x _. unfold compose.
  replace (first + Z.of_nat (S i)) with (first + 1 + Z.of_nat i) by lia. done.
Qed.

(** The loop prints the states of the stack from its top. *)
Lemma print_steps_lines (path : list state) (fuel : nat) (step_number : Z)
    (out : list string) :
  (length path ≤ fuel)%nat →
  print_steps fuel (reverse path) step_number out
  = Returned (out ++ steps_lines step_number path).
Proof.
  revert fuel step_number out.
  induction path as [|st path IH]; intros fuel step_number out Hfuel.
  - destruct fuel; simpl; by rewrite app_nil_r.
  - destruct fuel as [|fuel]; [simpl in Hfuel; lia|].
    rewrite steps_lines_cons. cbn [print_steps].
    destruct (reverse (st :: path)) as [|y l] eqn:E.
    { apply (f_equal length) in E. rewrite length_reverse in E. done. }
    rewrite <- E, pop_reverse_cons. rewrite IH by (simpl in Hfuel; lia).
    rewrite print_state_lines. unfold print. by rewrite <- !app_assoc.
Qed.

Lemma print_solution_aux (initial_state : state) (out : list string) :
  (∀ n, print_solution initial_state (Some n) out
        = Returned (out ++ path_lines (reverse (chain n))))
  ∧ print_solution initial_state None out
    = Returned (out ++ "===NO SOLUTION===" :: state_lines initial_state).
Proof.
  split.
  - intros n. unfold print_solution. rewrite collect_chain, app_nil_l.
    destruct (chain_head n) as [rest Hchain].
    assert (chain n = reverse (reverse (chain n))) as Hrev
      by (by rewrite reverse_involutive).
    destruct (reverse (chain n)) as [|root path] eqn:E.
    { apply (f_equal length) in E. rewrite length_reverse, Hchain in E. done. }
    rewrite Hrev, pop_reverse_cons. cbv zeta. rewrite length_reverse.
    rewrite print_steps_lines by done.
    rewrite print_state_lines. unfold print, path_lines.
    by rewrite <- !app_assoc.
  - unfold print_solution, print. rewrite print_state_lines.
    by rewrite <- app_assoc.
Qed.

(** X17.  [print_solution] prints the path that a node stands for from its
    root: the root under the heading START, then every later state under
    the heading STEP with its number, counted from 1; each state is shown
    by its rows, each followed by an empty line.  Without a node it
    prints NO SOLUTION and the initial state.  (The steps loop ends: it
    never lacks a turn, and its [pop] never fails.) *)
Theorem print_solution_prints_path (initial_state : state) (out : list string) :
  (∀ n, print_solution initial_state (Some n) out
        = Returned (out ++ path_lines (reverse (chain n))))
  ∧ print_solution initial_state None out
    = Returned (out ++ "===NO SOLUTION===" :: state_lines initial_state).
Proof. apply print_solution_aux. Qed.

(** *** run *)

Lemma loop_fuel_mono uuid4 (fuel m : nat) cfg r :
  loop uuid4 fuel cfg = Returned r → loop uuid4 (fuel + m) cfg = Returned r.
Proof.
  revert cfg. induction fuel as [|fuel IH]; intros cfg; [done|]. simpl.
  destruct (step uuid4 cfg); [apply IH|done].
Qed.

Lemma first_true (P : nat → bool) (n : nat) :
  (∀ j, (j < n)%nat → P j = false)
  ∨ ∃ k0, (k0 < n)%nat ∧ P k0 = true ∧ ∀ j, (j < k0)%nat → P j = false.
Proof.
  induction n as [|n [IH|IH]].
  - left. intros j Hj. lia.
  - destruct (P n) eqn:Hn.
    + right. exists n. split; [lia|]. split; [done|]. done.
    + left. intros j Hj. destruct (decide (j = n)) as [->|]; [done|].
      apply IH. lia.
  - right. destruct IH as (k0 & ? & ? & ?). exists k0. split; [lia|done].
Qed.

(** X18.  [run] composes the three parts.  Once a draw of the generator
    is solvable, the program returns, having printed either NO SOLUTION
    and the generated state, or a path that starts with the generated
    state, goes by moves of the empty cell, and ends with the goal. *)
Theorem run_prints (shuffle : nat → list Z → list Z) (uuid4 : nat → Z)
    (k : nat) :
  (∀ j l, shuffle j l ≡ₚ l) → distinct_tokens uuid4 →
  is_problem_solvable (draw shuffle k) = true →
  ∃ fuel s out,
    generate_random_problem shuffle fuel = Returned s
    ∧ Puzzle.run shuffle uuid4 fuel = Returned out
    ∧ (out = "===NO SOLUTION===" :: state_lines s
       ∨ ∃ path, out = path_lines path ∧ head path = Some s
                 ∧ last path = Some goal_state ∧ linked path).
Proof.
  intros Hsh Hd Hk.
  destruct (first_true (λ j, is_problem_solvable (draw shuffle j)) (S k))
    as [Hno|(k0 & Hk0 & Hyes & Hno)].
  { rewrite Hno in Hk by lia. done. }
  destruct (fill_state_nine (draw shuffle k0)) as (s & Hfill & _).
  { by rewrite (draw_perm shuffle k0 Hsh), length_range2. }
  destruct (fill_state_valid (draw shuffle k0) s (draw_perm shuffle k0 Hsh) Hfill)
    as [Hv _].
  assert (∀ fuel, (k0 ≤ fuel)%nat →
            generate_random_problem shuffle fuel = Returned s) as Hgen.
  { intros fuel Hfuel. unfold generate_random_problem.
    change (shuffle 0%nat (range2 1 (BOARD_SIZE * BOARD_SIZE + 1)))
      with (draw shuffle 0).
    rewrite (reshuffle_first shuffle fuel 0 k0); [|lia|intros; apply Hno; lia|done].
    rewrite decide_True by lia. by rewrite Hfill. }
  destruct (loop_initial_terminates uuid4 s (proj1 Hv)) as (fuel & r & Hr).
  assert (solve_puzzle uuid4 (fuel + k0) s = Returned r) as Hr'
    by (by apply loop_fuel_mono).
  exists (fuel + k0)%nat, s.
  assert (∃ out, print_solution s r [] = Returned out
            ∧ (out = "===NO SOLUTION===" :: state_lines s
               ∨ ∃ path, out = path_lines path ∧ head path = Some s
                         ∧ last path = Some goal_state ∧ linked path))
    as (out & Hout & Hshape).
  { destruct (print_solution_aux s []) as [Hsome Hnone]. destruct r as [n|].
    - eexists. split; [apply Hsome|]. right. exists (reverse (chain n)).
      split; [done|].
      by destruct (solution_is_a_path_aux uuid4 s fuel n Hv Hr) as (? & ? & ? & _).
    - eexists. split; [apply Hnone|]. by left. }
  exists out. split; [apply Hgen; lia|]. split; [|done].
  unfold Puzzle.run. rewrite Hgen by lia. by rewrite Hr'.
Qed.

Lemma run_prints_witness :
  ∃ fuel s out,
    generate_random_problem rotation fuel = Returned s
    ∧ Puzzle.run rotation ascending fuel = Returned out
    ∧ (out = "===NO SOLUTION===" :: state_lines s
       ∨ ∃ path, out = path_lines path ∧ head path = Some s
                 ∧ last path = Some goal_state ∧ linked path).
Proof.
  apply (run_prints rotation ascending 1).
  - apply rotation_perm.
  - apply ascending_distinct.
  - by vm_compute.
Defined.

End PuzzleFacts.

(** ** Properties of 8_queens.py *)

Module QueensFacts.
Import PyList PyListFacts Queens QueensSpec.
Local Open Scope Z_scope.

(** Reduce a bind whose first computation is a value. *)
Local Ltac bind_step := cbv beta iota delta [mbind option_bind].

(** *** Reading and writing cells of a well-formed board *)

Lemma well_formed_row (h : store) (b : board) (r : Z) :
  well_formed h b → 0 ≤ r < 8 →
  ∃ l row, b !! Z.to_nat r = Some l ∧ getitem b r = Some l
           ∧ h !! l = Some row ∧ length row = 8%nat.
Proof.
  intros [Hlen Hrows] Hr.
  destruct (lookup_lt_is_Some_2 b (Z.to_nat r)) as [l Hl]; [lia|].
  pose proof (proj1 (Forall_lookup _ _) Hrows _ _ Hl) as Hrow.
  simpl in Hrow. destruct (h !! l) as [row|] eqn:Hh; [|done].
  injection Hrow as Hrow.
  exists l, row. repeat split; try done.
  unfold getitem. rewrite norm_index_nonneg by lia. done.
Qed.

Lemma load_in_range (h : store) (b : board) (r c : Z) :
  well_formed h b → 0 ≤ r < 8 → 0 ≤ c < 8 →
  ∃ l row v, b !! Z.to_nat r = Some l ∧ h !! l = Some row
             ∧ row !! Z.to_nat c = Some v ∧ load h b r c = Some v.
Proof.
  intros Hwf Hr Hc.
  destruct (well_formed_row h b r Hwf Hr) as (l & row & Hl & Hg & Hh & Hlen).
  destruct (lookup_lt_is_Some_2 row (Z.to_nat c)) as [v Hv]; [lia|].
  exists l, row, v. repeat split; try done.
  unfold load. rewrite Hg. simpl. rewrite Hh. simpl.
  unfold getitem. rewrite norm_index_nonneg by lia. done.
Qed.

Lemma assign_in_range (h : store) (b : board) (r c : Z) (v : bool) :
  well_formed h b → 0 ≤ r < 8 → 0 ≤ c < 8 →
  ∃ l row, b !! Z.to_nat r = Some l ∧ h !! l = Some row ∧ length row = 8%nat
           ∧ assign h b r c v = Some (<[l := <[Z.to_nat c := v]> row]> h).
Proof.
  intros Hwf Hr Hc.
  destruct (well_formed_row h b r Hwf Hr) as (l & row & Hl & Hg & Hh & Hlen).
  exists l, row. repeat split; try done.
  unfold assign. rewrite Hg. simpl. rewrite Hh. simpl.
  unfold setitem. rewrite norm_index_nonneg by lia. done.
Qed.

Lemma well_formed_insert (h : store) (b : board) (l : loc) (row : list bool) :
  well_formed h b → length row = 8%nat → well_formed (<[l := row]> h) b.
Proof.
  intros [Hlen Hrows] Hrow. split; [done|].
  eapply Forall_impl; [exact Hrows|]. intros l' Hl'. simpl in *.
  destruct (decide (l = l')) as [->|Hne].
  - rewrite lookup_insert_eq. simpl. by rewrite Hrow.
  - by rewrite lookup_insert_ne.
Qed.

Lemma is_configuration_valid_is_Some (h : store) (b : board) :
  well_formed h b → is_Some (is_configuration_valid h b).
Proof.
  intros Hwf. unfold is_configuration_valid.
  assert (∀ r c, 0 ≤ r < 8 → 0 ≤ c < 8 → is_Some (load h b r c)) as Hload.
  { intros r c Hr Hc.
    destruct (load_in_range h b r c Hwf Hr Hc) as (?&?&v&?&?&?&->). by eexists. }
  assert (∀ (a : bool) r c, (a = true → 0 ≤ r < 8 ∧ 0 ≤ c < 8) →
            is_Some (and_then a (load h b r c))) as Hand.
  { intros [] r c Hrc; simpl; [|by eexists]. by apply Hload; apply Hrc. }
  destruct (for_return (range BOARD_SIZE) _) as [r|] eqn:E; [by eexists|].
  exfalso. eapply is_Some_None. rewrite <- E. clear E.
  apply for_return_is_Some. intros row_idx Hrow%elem_of_range.
  apply for_return_is_Some. intros col_idx Hcol%elem_of_range.
  destruct (Hload row_idx col_idx Hrow Hcol) as [[] ->]; bind_step;
    [|by eexists].
  apply for_return_is_Some. intros i Hi%elem_of_range.
  destruct (Hand (negb (i =? row_idx)) i col_idx) as [[] ->]; [done|bind_step..];
    [by eexists|].
  destruct (Hand (negb (i =? col_idx)) row_idx i) as [[] ->]; [done|bind_step..];
    [by eexists|].
  destruct (0 <? i); [|by eexists].
  apply for_return_is_Some. intros [diag_row diag_col] Hd.
  destruct (Hand ((0 <=? diag_row) && (diag_row <? BOARD_SIZE)
                  && (0 <=? diag_col) && (diag_col <? BOARD_SIZE))
                 diag_row diag_col) as [[] ->]; [|by eexists..].
  unfold BOARD_SIZE. intros H.
  repeat (apply andb_true_iff in H as [H ?]). lia.
Qed.

Lemma empty_from_load (h : store) (b : board) (col r c : Z) :
  empty_from h b col → 0 ≤ r < 8 → col ≤ c < 8 → load h b r c = Some false.
Proof.
  intros He Hr Hc. unfold empty_from in He.
  rewrite Forall_forall in He. specialize (He r).
  rewrite Forall_forall in He. apply He.
  - by apply elem_of_range.
  - by apply elem_of_range2.
Qed.

Lemma empty_from_intro (h : store) (b : board) (col : Z) :
  (∀ r c, 0 ≤ r < 8 → col ≤ c < 8 → load h b r c = Some false) →
  empty_from h b col.
Proof.
  intros H. apply Forall_forall. intros r Hr%elem_of_range.
  apply Forall_forall. intros c Hc%elem_of_range2. by apply H.
Qed.

(** Placing a queen on an empty cell and taking it off again. *)
Lemma assign_revert (h : store) (b : board) (r c : Z) :
  well_formed h b → 0 ≤ r < 8 → 0 ≤ c < 8 → load h b r c = Some false →
  ∃ h1, assign h b r c true = Some h1
        ∧ well_formed h1 b
        ∧ assign h1 b r c false = Some h
        ∧ ∀ r' c', 0 ≤ r' < 8 → 0 ≤ c' < 8 → c' ≠ c →
            load h1 b r' c' = load h b r' c'.
Proof.
  intros Hwf Hr Hc Hload.
  destruct (assign_in_range h b r c true Hwf Hr Hc) as (l & row & Hl & Hh & Hlen & Ha).
  destruct (load_in_range h b r c Hwf Hr Hc) as (l0 & row0 & v & Hl0 & Hh0 & Hv & Hload').
  assert (l0 = l) as -> by congruence. assert (row0 = row) as -> by congruence.
  assert (v = false) as -> by congruence.
  set (row1 := <[Z.to_nat c := true]> row) in *.
  assert (well_formed (<[l:=row1]> h) b) as Hwf1
    by (apply well_formed_insert; [done|]; unfold row1; by rewrite length_insert).
  exists (<[l:=row1]> h). split; [done|]. split; [done|]. split.
  - destruct (assign_in_range (<[l:=row1]> h) b r c false Hwf1 Hr Hc)
      as (l' & row' & Hl' & Hh' & _ & ->).
    assert (l' = l) as -> by congruence.
    rewrite lookup_insert_eq in Hh'. injection Hh' as <-.
    f_equal. rewrite insert_insert_eq. apply insert_id.
    rewrite Hh. f_equal. unfold row1.
    rewrite list_insert_insert_eq. symmetry. by apply list_insert_id.
  - intros r' c' Hr' Hc' Hne.
    destruct (load_in_range h b r' c' Hwf Hr' Hc') as (l2 & row2 & v2 & Hl2 & Hh2 & Hv2 & ->).
    destruct (load_in_range _ b r' c' Hwf1 Hr' Hc') as (l3 & row3 & v3 & Hl3 & Hh3 & Hv3 & ->).
    assert (l3 = l2) as -> by congruence.
    destruct (decide (l = l2)) as [->|Hll].
    + rewrite lookup_insert_eq in Hh3. injection Hh3 as <-.
      unfold row1 in Hv3. rewrite list_lookup_insert_ne in Hv3 by lia. congruence.
    + rewrite lookup_insert_ne in Hh3 by done. congruence.
Qed.

Section place_rows.
Variable b : board.
Variable self : store → Z → outcome (bool * store).
Variable col : Z.
Hypothesis col_range : 0 ≤ col < 8.

(** If the call of line 52 restores the board whenever it fails, so does
    the loop around it. *)
Lemma place_rows_restores (rs : list Z) (h h' : store) :
  (col + 1 < 8 → ∀ h1 h1', well_formed h1 b → empty_from h1 b (col + 1) →
     self h1 (col + 1) = Returned (false, h1') → h1' = h1) →
  (∀ r, r ∈ rs → 0 ≤ r < 8) →
  well_formed h b → empty_from h b col →
  place_rows self b col rs h = Returned (false, h') → h' = h.
Proof.
  intros Hself. induction rs as [|r rs IH]; intros Hrs Hwf He; simpl.
  - by intros [= <-].
  - assert (0 ≤ r < 8) as Hr by (apply Hrs; by left).
    destruct (assign_revert h b r col Hwf Hr col_range) as (h1 & -> & Hwf1 & Hback & Hsame).
    { apply (empty_from_load h b col); [done|done|lia]. }
    assert (empty_from h1 b (col + 1)) as He1.
    { apply empty_from_intro. intros r' c' Hr' Hc'.
      rewrite Hsame by lia. apply (empty_from_load h b col); [done|done|lia]. }
    assert (∀ r', r' ∈ rs → 0 ≤ r' < 8) as Hrs' by (intros; apply Hrs; by right).
    destruct (is_configuration_valid h1 b) as [[]|]; [| |done].
    + destruct (col + 1 >=? BOARD_SIZE) eqn:Hnext; [done|].
      rewrite Z.geb_leb in Hnext. apply Z.leb_gt in Hnext.
      unfold BOARD_SIZE in Hnext.
      destruct (self h1 (col + 1)) as [[[] h2]| |] eqn:Hs; try done.
      apply Hself in Hs as ->; [|done..]. rewrite Hback. by apply IH.
    + rewrite Hback. by apply IH.
Qed.

(** If the call of line 52 returns, on a well-formed board, with a
    well-formed board, so does the loop. *)
Lemma place_rows_returns (rs : list Z) (h : store) :
  (col + 1 < 8 → ∀ h1, well_formed h1 b →
     ∃ r h1', self h1 (col + 1) = Returned (r, h1') ∧ well_formed h1' b) →
  (∀ r, r ∈ rs → 0 ≤ r < 8) →
  well_formed h b →
  ∃ r h', place_rows self b col rs h = Returned (r, h') ∧ well_formed h' b.
Proof.
  intros Hself. revert h. induction rs as [|r rs IH]; intros h Hrs Hwf; simpl.
  - by exists false, h.
  - assert (0 ≤ r < 8) as Hr by (apply Hrs; by left).
    assert (∀ r', r' ∈ rs → 0 ≤ r' < 8) as Hrs' by (intros; apply Hrs; by right).
    assert (∀ h0 v, well_formed h0 b →
              ∃ h1, assign h0 b r col v = Some h1 ∧ well_formed h1 b) as Hassign.
    { intros h0 v Hwf0.
      destruct (assign_in_range h0 b r col v Hwf0 Hr col_range) as (l & row & _ & _ & Hlen & ->).
      eexists. split; [done|]. apply well_formed_insert; [done|].
      by rewrite length_insert. }
    destruct (Hassign h true Hwf) as (h1 & -> & Hwf1).
    destruct (is_configuration_valid_is_Some h1 b Hwf1) as [[] ->].
    + destruct (col + 1 >=? BOARD_SIZE) eqn:Hnext; [by exists true, h1|].
      destruct (Hself) with (h1 := h1) as (res & h2 & -> & Hwf2); [|done|].
      { rewrite Z.geb_leb in Hnext. apply Z.leb_gt in Hnext.
        unfold BOARD_SIZE in Hnext. lia. }
      destruct res; [by exists true, h2|].
      destruct (Hassign h2 false Hwf2) as (h3 & -> & Hwf3). by apply IH.
    + destruct (Hassign h1 false Hwf1) as (h3 & -> & Hwf3). by apply IH.
Qed.

End place_rows.

Lemma range_board (r : Z) : r ∈ range BOARD_SIZE → 0 ≤ r < 8.
Proof. by intros ?%elem_of_range. Qed.

Lemma backtracking_S (fuel : nat) (h : store) (b : board) (col : Z) :
  backtracking (S fuel) h b col
  = place_rows (λ h col_idx, backtracking fuel h b col_idx) b col
      (range BOARD_SIZE) h.
Proof. reflexivity. Qed.

Lemma backtracking_restores (fuel : nat) (b : board) (col : Z) (h h' : store) :
  0 ≤ col < 8 → well_formed h b → empty_from h b col →
  backtracking fuel h b col = Returned (false, h') → h' = h.
Proof.
  revert col h h'. induction fuel as [|fuel IH]; intros col h h' Hcol Hwf He; [done|].
  rewrite backtracking_S. apply place_rows_restores; try done; [|apply range_board].
  intros Hlt h1 h1' Hwf1 He1 Hs. apply (IH (col + 1)) in Hs; [done|lia|done..].
Qed.

Lemma backtracking_returns (fuel : nat) (b : board) (col : Z) (h : store) :
  0 ≤ col < 8 → 8 - col ≤ Z.of_nat fuel → well_formed h b →
  ∃ r h', backtracking fuel h b col = Returned (r, h') ∧ well_formed h' b.
Proof.
  revert col h. induction fuel as [|fuel IH]; intros col h Hcol Hfuel Hwf; [lia|].
  rewrite backtracking_S. apply place_rows_returns; try done; [|apply range_board].
  intros Hlt h1 Hwf1. apply IH; [lia|lia|done].
Qed.

(** C10, counterexample.  On a board that holds a queen in column 7,
    [backtracking] at column 7 fails and returns with that queen gone: a
    reverted attempt writes [False], not the value the cell had. *)
Lemma backtracking_failure_clears_queen :
  well_formed crowded.1 crowded.2
  ∧ ∃ h', backtracking 1 crowded.1 crowded.2 7 = Returned (false, h')
          ∧ load crowded.1 crowded.2 3 7 = Some true
          ∧ load h' crowded.2 3 7 = Some false.
Proof.
  split; [apply (bool_decide_unpack _); by vm_compute|].
  eexists. split; [by vm_compute|]. split; by vm_compute.
Qed.

(** C10, as amended.  On a board that holds no queen in column [col_idx]
    or to its right, for a column index of the board, [backtracking]
    returns, and if it returns [False] the store is the one it had on
    entry: every attempt of the failed search is reverted. *)
Theorem backtracking_failure_restores (h : store) (b : board) (col_idx : Z) :
  well_formed h b → 0 ≤ col_idx < BOARD_SIZE → empty_from h b col_idx →
  (∃ r h', backtracking (Z.to_nat (BOARD_SIZE - col_idx)) h b col_idx
           = Returned (r, h'))
  ∧ ∀ fuel h', backtracking fuel h b col_idx = Returned (false, h') → h' = h.
Proof.
  unfold BOARD_SIZE. intros Hwf Hcol He. split.
  - destruct (backtracking_returns (Z.to_nat (8 - col_idx)) b col_idx h)
      as (r & h' & Hr & _); [done|lia|done|]. by exists r, h'.
  - intros fuel h'. by apply backtracking_restores.
Qed.

Lemma backtracking_failure_restores_witness :
  (∃ r h', backtracking 7 blocked.1 blocked.2 1 = Returned (r, h'))
  ∧ ∀ fuel h', backtracking fuel blocked.1 blocked.2 1 = Returned (false, h') →
      h' = blocked.1.
Proof.
  apply (backtracking_failure_restores blocked.1 blocked.2 1).
  - apply (bool_decide_unpack _). by vm_compute.
  - unfold BOARD_SIZE. lia.
  - apply (bool_decide_unpack _). by vm_compute.
Defined.

(** The failure of the witness is real: the search at column 1 of
    [blocked] returns [False]. *)
Lemma backtracking_blocked_fails :
  backtracking 7 blocked.1 blocked.2 1 = Returned (false, blocked.1).
Proof. by vm_compute. Qed.
Import PyOut.

(** *** The checks of is_configuration_valid *)

Section checks.
Variables (h : store) (b : board).
Hypothesis Hwf : well_formed h b.

Local Abbreviation check_diag := (QueensSpec.check_diag h b).
Local Abbreviation check_diags := (QueensSpec.check_diags h b).
Local Abbreviation check_i := (QueensSpec.check_i h b).
Local Abbreviation check_cell := (QueensSpec.check_cell h b).

Lemma is_configuration_valid_checks :
  is_configuration_valid h b
  = (r ← for_return (range BOARD_SIZE) (λ row_idx,
           for_return (range BOARD_SIZE) (check_cell row_idx));
     Some (default true r)).
Proof. reflexivity. Qed.

Lemma load_total (r c : Z) : 0 ≤ r < 8 → 0 ≤ c < 8 → ∃ v, load h b r c = Some v.
Proof.
  intros Hr Hc. destruct (load_in_range h b r c Hwf Hr Hc) as (?&?&v&?&?&?&->).
  by exists v.
Qed.

Lemma on_board_spec (r c : Z) :
  (0 <=? r) && (r <? BOARD_SIZE) && (0 <=? c) && (c <? BOARD_SIZE) = true
  ↔ 0 ≤ r < 8 ∧ 0 ≤ c < 8.
Proof. unfold BOARD_SIZE. rewrite !andb_true_iff. lia. Qed.

Lemma check_diag_cases (dr dc : Z) :
  (check_diag (dr, dc) = Some (Some false)
   ∧ 0 ≤ dr < 8 ∧ 0 ≤ dc < 8 ∧ queen h b dr dc)
  ∨ (check_diag (dr, dc) = Some None
     ∧ (0 ≤ dr < 8 → 0 ≤ dc < 8 → load h b dr dc = Some false)).
Proof.
  unfold check_diag.
  destruct ((0 <=? dr) && (dr <? BOARD_SIZE) && (0 <=? dc) && (dc <? BOARD_SIZE))
    eqn:Hon.
  - apply on_board_spec in Hon as [Hr Hc].
    destruct (load_total dr dc Hr Hc) as [[] Hl]; unfold and_then; rewrite Hl;
      bind_step; [left|right]; done.
  - right. split; [done|]. intros Hr Hc.
    assert (0 ≤ dr < 8 ∧ 0 ≤ dc < 8) as Hon'%on_board_spec by done. congruence.
Qed.

(** The diagonal checks: one that returns has found a queen on a diagonal
    of ([r], [c]); if none returns, the four cells at distance [i] hold no
    queen. *)
Lemma check_diags_cases (r c i : Z) :
  (check_diags r c i = Some (Some false)
   ∧ ∃ dr dc, 0 ≤ dr < 8 ∧ 0 ≤ dc < 8 ∧ queen h b dr dc
              ∧ 0 < i ∧ Z.abs (r - dr) = i ∧ Z.abs (c - dc) = i)
  ∨ (check_diags r c i = Some None
     ∧ (0 < i → ∀ dr dc, 0 ≤ dr < 8 → 0 ≤ dc < 8 →
          Z.abs (r - dr) = i → Z.abs (c - dc) = i → load h b dr dc = Some false)).
Proof.
  unfold check_diags. destruct (Z.ltb_spec 0 i) as [Hi|Hi]; [|right; split; [done|lia]].
  cbv zeta. cbn [for_return].
  destruct (check_diag_cases (r - i) (c - i)) as [(-> & ? & ? & ?)|[-> H1]]; bind_step.
  { left. split; [done|]. exists (r - i), (c - i). repeat split; try done; lia. }
  destruct (check_diag_cases (r + i) (c + i)) as [(-> & ? & ? & ?)|[-> H2]]; bind_step.
  { left. split; [done|]. exists (r + i), (c + i). repeat split; try done; lia. }
  destruct (check_diag_cases (r - i) (c + i)) as [(-> & ? & ? & ?)|[-> H3]]; bind_step.
  { left. split; [done|]. exists (r - i), (c + i). repeat split; try done; lia. }
  destruct (check_diag_cases (r + i) (c - i)) as [(-> & ? & ? & ?)|[-> H4]]; bind_step.
  { left. split; [done|]. exists (r + i), (c - i). repeat split; try done; lia. }
  right. split; [done|]. intros _ dr dc Hdr Hdc Hr Hc.
  assert ((dr = r - i ∨ dr = r + i) ∧ (dc = c - i ∨ dc = c + i))
    as [[-> | ->] [-> | ->]] by lia; auto.
Qed.

(** The checks at distance [i] from the queen on ([r], [c]). *)
Lemma check_i_cases (r c i : Z) :
  0 ≤ r < 8 → 0 ≤ c < 8 → 0 ≤ i < 8 →
  (check_i r c i = Some (Some false)
   ∧ ∃ r2 c2, 0 ≤ r2 < 8 ∧ 0 ≤ c2 < 8 ∧ queen h b r2 c2 ∧ attacks r c r2 c2)
  ∨ (check_i r c i = Some None
     ∧ (i ≠ r → load h b i c = Some false)
     ∧ (i ≠ c → load h b r i = Some false)
     ∧ (0 < i → ∀ dr dc, 0 ≤ dr < 8 → 0 ≤ dc < 8 →
          Z.abs (r - dr) = i → Z.abs (c - dc) = i → load h b dr dc = Some false)).
Proof.
  intros Hr Hc Hi. unfold check_i.
  assert (and_then (negb (i =? r)) (load h b i c) = Some true
            ∧ i ≠ r ∧ queen h b i c
          ∨ and_then (negb (i =? r)) (load h b i c) = Some false
            ∧ (i ≠ r → load h b i c = Some false)) as [(-> & Hir & Hq)|[-> Hcol]].
  { destruct (Z.eqb_spec i r) as [->|Hir]; [right; by split|].
    destruct (load_total i c Hi Hc) as [[] Hl]; unfold and_then, negb; rewrite Hl;
      [left|right]; done. }
  { bind_step. left. split; [done|]. exists i, c.
    split; [lia|]. split; [lia|]. split; [done|].
    split; [intros [=]; lia|]. right. by left. }
  bind_step.
  assert (and_then (negb (i =? c)) (load h b r i) = Some true
            ∧ i ≠ c ∧ queen h b r i
          ∨ and_then (negb (i =? c)) (load h b r i) = Some false
            ∧ (i ≠ c → load h b r i = Some false)) as [(-> & Hic & Hq)|[-> Hrow]].
  { destruct (Z.eqb_spec i c) as [->|Hic]; [right; by split|].
    destruct (load_total r i Hr Hi) as [[] Hl]; unfold and_then, negb; rewrite Hl;
      [left|right]; done. }
  { bind_step. left. split; [done|]. exists r, i.
    split; [lia|]. split; [lia|]. split; [done|].
    split; [intros [=]; lia|]. by left. }
  bind_step.
  destruct (check_diags_cases r c i)
    as [(-> & dr & dc & Hdr & Hdc & Hq & Hpos & Hdr' & Hdc')|[-> Hd]].
  - left. split; [done|]. exists dr, dc.
    split; [lia|]. split; [lia|]. split; [done|].
    split; [intros [=]; lia|]. right. right. lia.
  - right. done.
Qed.

(** The checks for one cell: they fall through when the cell holds no
    queen, or when no queen attacks the one it holds. *)
Lemma check_cell_cases (r c : Z) :
  0 ≤ r < 8 → 0 ≤ c < 8 →
  (check_cell r c = Some (Some false)
   ∧ queen h b r c
   ∧ ∃ r2 c2, 0 ≤ r2 < 8 ∧ 0 ≤ c2 < 8 ∧ queen h b r2 c2 ∧ attacks r c r2 c2)
  ∨ (check_cell r c = Some None
     ∧ (queen h b r c →
        ∀ r2 c2, 0 ≤ r2 < 8 → 0 ≤ c2 < 8 → queen h b r2 c2 → ¬ attacks r c r2 c2)).
Proof.
  intros Hr Hc. unfold check_cell.
  destruct (load_total r c Hr Hc) as [[] Hl]; rewrite Hl; bind_step;
    [|right; split; [done|]; unfold queen; congruence].
  assert (is_Some (for_return (range BOARD_SIZE) (check_i r c))) as [res Hres].
  { apply for_return_is_Some. intros i Hi%elem_of_range. unfold BOARD_SIZE in Hi.
    destruct (check_i_cases r c i Hr Hc Hi) as [[-> _]|[-> _]]; by eexists. }
  rewrite Hres. destruct res as [v|].
  - apply for_return_Some_inv in Hres as (i & Hi%elem_of_range & Hb).
    unfold BOARD_SIZE in Hi.
    destruct (check_i_cases r c i Hr Hc Hi) as [[Hb' Hatt]|[Hb' _]]; [|congruence].
    left. split; [congruence|]. by split.
  - right. split; [done|]. intros _ r2 c2 Hr2 Hc2 Hq [Hne Hatt].
    pose proof (for_return_None_inv _ _ Hres) as Hall. unfold queen in Hq.
    assert (∀ i, 0 ≤ i < 8 →
              (i ≠ r → load h b i c = Some false)
              ∧ (i ≠ c → load h b r i = Some false)
              ∧ (0 < i → ∀ dr dc, 0 ≤ dr < 8 → 0 ≤ dc < 8 →
                   Z.abs (r - dr) = i → Z.abs (c - dc) = i →
                   load h b dr dc = Some false)) as Hmiss.
    { intros i Hi. specialize (Hall i (proj2 (elem_of_range _ _) Hi)).
      destruct (check_i_cases r c i Hr Hc Hi) as [[Hb' _]|[_ Hm]]; [congruence|done]. }
    assert (r ≠ r2 ∨ c ≠ c2) as Hne'.
    { destruct (decide (r = r2)) as [->|]; [right|by left]. congruence. }
    destruct Hatt as [->|[->|Hdiag]].
    + destruct (Hmiss c2 Hc2) as (_ & Hrow & _).
      rewrite Hrow in Hq; [done|congruence].
    + destruct (Hmiss r2 Hr2) as (Hcol & _ & _).
      rewrite Hcol in Hq; [done|congruence].
    + destruct (Hmiss (Z.abs (r - r2)) ltac:(lia)) as (_ & _ & Hd).
      rewrite (Hd ltac:(lia) r2 c2) in Hq; try done; lia.
Qed.

End checks.

(** [is_configuration_valid] returns, with [True] exactly on the boards
    where no two queens attack each other. *)
Lemma is_configuration_valid_safe (h : store) (b : board) :
  well_formed h b →
  ∃ v : bool, is_configuration_valid h b = Some v ∧ (v = true ↔ safe h b).
Proof.
  intros Hwf. rewrite is_configuration_valid_checks.
  assert (∀ r, 0 ≤ r < 8 →
            is_Some (for_return (range BOARD_SIZE) (check_cell h b r))) as Hrow.
  { intros r Hr. apply for_return_is_Some. intros c Hc%elem_of_range.
    unfold BOARD_SIZE in Hc.
    destruct (check_cell_cases h b Hwf r c Hr Hc) as [[-> _]|[-> _]]; by eexists. }
  assert (is_Some (for_return (range BOARD_SIZE) (λ row_idx,
            for_return (range BOARD_SIZE) (check_cell h b row_idx)))) as [res Hres].
  { apply for_return_is_Some. intros r Hr%elem_of_range. by apply Hrow. }
  rewrite Hres. bind_step. destruct res as [v|].
  - apply for_return_Some_inv in Hres as (r & Hr%elem_of_range & Hres).
    apply for_return_Some_inv in Hres as (c & Hc%elem_of_range & Hres).
    unfold BOARD_SIZE in Hr, Hc.
    destruct (check_cell_cases h b Hwf r c Hr Hc)
      as [(Hb & Hq & r2 & c2 & Hr2 & Hc2 & Hq2 & Hatt)|[Hb _]]; [|congruence].
    exists false. split; [simpl; congruence|]. split; [done|].
    intros Hsafe. exfalso. by apply (Hsafe r c r2 c2).
  - exists true. split; [done|]. split; [|done]. intros _.
    intros r1 c1 r2 c2 Hr1 Hc1 Hr2 Hc2 Hq1 Hq2.
    pose proof (for_return_None_inv _ _ Hres r1 (proj2 (elem_of_range _ _) Hr1)) as Hres1.
    pose proof (for_return_None_inv _ _ Hres1 c1 (proj2 (elem_of_range _ _) Hc1)) as Hcell.
    destruct (check_cell_cases h b Hwf r1 c1 Hr1 Hc1) as [[Hb _]|[_ Hm]]; [congruence|].
    by apply Hm.
Qed.

(** *** Writing a cell *)

(** What [board[r][c] = v] changes: the cell itself, and nothing in
    another column, in an object that is no row of the board, or (when the
    rows are distinct objects) in another row. *)
Lemma assign_frame (h : store) (b : board) (r c : Z) (v : bool) :
  well_formed h b → 0 ≤ r < 8 → 0 ≤ c < 8 →
  ∃ h1, assign h b r c v = Some h1
        ∧ well_formed h1 b
        ∧ load h1 b r c = Some v
        ∧ (∀ r' c', 0 ≤ r' < 8 → 0 ≤ c' < 8 → c' ≠ c →
             load h1 b r' c' = load h b r' c')
        ∧ (NoDup b → ∀ r' c', 0 ≤ r' < 8 → 0 ≤ c' < 8 → r' ≠ r →
             load h1 b r' c' = load h b r' c')
        ∧ (∀ l, l ∉ b → h1 !! l = h !! l).
Proof.
  intros Hwf Hr Hc.
  destruct (assign_in_range h b r c v Hwf Hr Hc) as (l & row & Hl & Hh & Hlen & Ha).
  set (row1 := <[Z.to_nat c := v]> row) in *.
  assert (well_formed (<[l:=row1]> h) b) as Hwf1
    by (apply well_formed_insert; [done|]; unfold row1; by rewrite length_insert).
  exists (<[l:=row1]> h). split; [done|]. split; [done|].
  assert (∀ r' c', 0 ≤ r' < 8 → 0 ≤ c' < 8 →
            ∃ l2 row2 v2 v3, b !! Z.to_nat r' = Some l2 ∧ h !! l2 = Some row2
              ∧ row2 !! Z.to_nat c' = Some v2 ∧ load h b r' c' = Some v2
              ∧ (if decide (l = l2) then row1 else row2) !! Z.to_nat c' = Some v3
              ∧ load (<[l:=row1]> h) b r' c' = Some v3) as Hcell.
  { intros r' c' Hr' Hc'.
    destruct (load_in_range h b r' c' Hwf Hr' Hc') as (l2 & row2 & v2 & Hl2 & Hh2 & Hv2 & Hload).
    destruct (load_in_range _ b r' c' Hwf1 Hr' Hc') as (l3 & row3 & v3 & Hl3 & Hh3 & Hv3 & Hload3).
    assert (l3 = l2) as -> by congruence.
    exists l2, row2, v2, v3. repeat split; try done.
    destruct (decide (l = l2)) as [->|Hne].
    - rewrite lookup_insert_eq in Hh3. congruence.
    - rewrite lookup_insert_ne in Hh3 by done. congruence. }
  split; [|split; [|split]].
  - destruct (Hcell r c Hr Hc) as (l2 & row2 & v2 & v3 & Hl2 & _ & _ & _ & Hv3 & ->).
    assert (l2 = l) as -> by congruence. rewrite decide_True in Hv3 by done.
    unfold row1 in Hv3. rewrite list_lookup_insert_eq in Hv3 by lia. done.
  - intros r' c' Hr' Hc' Hne.
    destruct (Hcell r' c' Hr' Hc') as (l2 & row2 & v2 & v3 & Hl2 & Hh2 & Hv2 & -> & Hv3 & ->).
    destruct (decide (l = l2)) as [->|Hll]; [|congruence].
    unfold row1 in Hv3. rewrite list_lookup_insert_ne in Hv3 by lia. congruence.
  - intros Hnd r' c' Hr' Hc' Hne.
    destruct (Hcell r' c' Hr' Hc') as (l2 & row2 & v2 & v3 & Hl2 & Hh2 & Hv2 & -> & Hv3 & ->).
    destruct (decide (l = l2)) as [->|Hll]; [|congruence].
    exfalso. apply Hne. apply Z2Nat.inj; [lia..|].
    by eapply NoDup_lookup.
  - intros l' Hl'. apply lookup_insert_ne. intros ->. apply Hl'.
    by eapply list_elem_of_lookup_2.
Qed.

(** *** What a call of backtracking leaves *)

Lemma keeps_left_refl h b col : well_formed h b → keeps_left h b col h.
Proof. by intros. Qed.

Lemma keeps_left_trans h1 h2 h3 b col col' :
  col ≤ col' → keeps_left h1 b col h2 → keeps_left h2 b col' h3 →
  keeps_left h1 b col h3.
Proof.
  intros Hle (_ & H12 & F12) (Hwf & H23 & F23). split; [done|]. split.
  - intros r c Hr Hc. rewrite H23 by lia. by apply H12.
  - intros l Hl. rewrite F23 by done. by apply F12.
Qed.

Lemma assign_keeps_left h b r col v h1 :
  well_formed h b → 0 ≤ r < 8 → 0 ≤ col < 8 →
  assign h b r col v = Some h1 → keeps_left h b col h1.
Proof.
  intros Hwf Hr Hc Ha.
  destruct (assign_frame h b r col v Hwf Hr Hc) as (h1' & Ha' & Hwf1 & _ & Hcols & _ & Hout).
  assert (h1' = h1) as -> by congruence. split; [done|]. split; [|done].
  intros r' c' Hr' Hc'. apply Hcols; lia.
Qed.

Section place_rows_post.
Variable b : board.
Variable self : store → Z → outcome (bool * store).
Variable col : Z.
Hypothesis col_range : 0 ≤ col < 8.
Hypothesis Hself : col + 1 < 8 → ∀ h1 res h1', well_formed h1 b →
  self h1 (col + 1) = Returned (res, h1') → post h1 b (col + 1) res h1'.

Lemma place_rows_post (rs : list Z) (h h' : store) (res : bool) :
  (∀ r, r ∈ rs → 0 ≤ r < 8) →
  well_formed h b →
  place_rows self b col rs h = Returned (res, h') → post h b col res h'.
Proof.
  revert h. induction rs as [|r rs IH]; intros h Hrs Hwf; simpl.
  - intros [= <- <-]. split; [by apply keeps_left_refl|done].
  - assert (0 ≤ r < 8) as Hr by (apply Hrs; by left).
    assert (∀ r', r' ∈ rs → 0 ≤ r' < 8) as Hrs' by (intros; apply Hrs; by right).
    destruct (assign_frame h b r col true Hwf Hr col_range)
      as (h1 & Ha & Hwf1 & Hq & _).
    pose proof (assign_keeps_left h b r col true h1 Hwf Hr col_range Ha) as Hk1.
    rewrite Ha.
    assert (∀ h2 h3, keeps_left h b col h2 →
              assign h2 b r col false = Some h3 →
              place_rows self b col rs h3 = Returned (res, h') →
              post h b col res h') as Hnext.
    { intros h2 h3 Hk2 Ha3 Hrest.
      pose proof (assign_keeps_left h2 b r col false h3 (proj1 Hk2) Hr col_range Ha3) as Hk3.
      pose proof (keeps_left_trans h h2 h3 b col col ltac:(lia) Hk2 Hk3) as Hk.
      destruct (IH h3 Hrs' (proj1 Hk3) Hrest) as [Hk' Hres]. split; [|done].
      by eapply (keeps_left_trans h h3 h' b col col). }
    destruct (is_configuration_valid_safe h1 b Hwf1) as (v & -> & Hv).
    destruct v.
    + destruct (col + 1 >=? BOARD_SIZE) eqn:Hnextcol.
      * intros [= <- <-]. split; [done|]. intros _. split; [by apply Hv|].
        rewrite Z.geb_leb in Hnextcol. apply Z.leb_le in Hnextcol.
        unfold BOARD_SIZE in Hnextcol.
        intros c Hc. assert (c = col) as -> by lia. by exists r.
      * rewrite Z.geb_leb in Hnextcol. apply Z.leb_gt in Hnextcol.
        unfold BOARD_SIZE in Hnextcol.
        destruct (self h1 (col + 1)) as [[[] h2]| |] eqn:Hs; try done.
        -- intros [= <- <-].
           destruct (Hself Hnextcol h1 true h2 Hwf1 Hs) as [Hk2 Hres].
           destruct (Hres eq_refl) as [Hsafe Hfill].
           split; [by eapply (keeps_left_trans h h1 h2 b col (col + 1)); [lia|..]|].
           intros _. split; [done|]. intros c Hc.
           destruct (decide (c = col)) as [->|Hne]; [|apply Hfill; lia].
           exists r. split; [done|]. unfold queen.
           destruct Hk2 as (_ & Hsame & _). rewrite Hsame by lia. done.
        -- destruct (Hself Hnextcol h1 false h2 Hwf1 Hs) as [Hk2 _].
           destruct (assign h2 b r col false) as [h3|] eqn:Ha3; [|done].
           apply (Hnext h2 h3); [|done].
           by eapply (keeps_left_trans h h1 h2 b col (col + 1)); [lia|..].
    + destruct (assign h1 b r col false) as [h3|] eqn:Ha3; [|done].
      by apply (Hnext h1 h3).
Qed.

End place_rows_post.

Lemma backtracking_post (fuel : nat) (b : board) (col : Z) (h h' : store) (res : bool) :
  0 ≤ col < 8 → well_formed h b →
  backtracking fuel h b col = Returned (res, h') → post h b col res h'.
Proof.
  revert col h h' res. induction fuel as [|fuel IH]; intros col h h' res Hcol Hwf; [done|].
  rewrite backtracking_S. apply place_rows_post; try done; [|apply range_board].
  intros Hlt h1 res1 h1' Hwf1 Hs. apply (IH (col + 1)) in Hs; [done|lia|done].
Qed.

(** *** A failed search has tried everything *)

Lemma load_bool (h : store) (b : board) (r c : Z) :
  well_formed h b → 0 ≤ r < 8 → 0 ≤ c < 8 →
  load h b r c = Some false ∨ queen h b r c.
Proof.
  intros Hwf Hr Hc. destruct (load_total h b Hwf r c Hr Hc) as [[] Hl]; auto.
Qed.

(** A completion of the placement of [h] that has its queen of column
    [col] in row [r] is a completion of the placement with that queen
    added, and contains it. *)
Lemma completes_step (h h1 h2 : store) (b : board) (r col : Z) :
  NoDup b → well_formed h b → 0 ≤ r < 8 → 0 ≤ col < 8 →
  empty_from h b col →
  assign h b r col true = Some h1 →
  completes h b col h2 → queen h2 b r col →
  completes h1 b (col + 1) h2
  ∧ (∀ r' c', 0 ≤ r' < 8 → 0 ≤ c' < 8 → queen h1 b r' c' → queen h2 b r' c').
Proof.
  intros Hnd Hwf Hr Hcol He Ha (Hwf2 & Hsafe & Hleft & Hfill) Hq.
  destruct (assign_frame h b r col true Hwf Hr Hcol)
    as (h1' & Ha' & Hwf1 & Hq1 & Hcols & Hrows & _).
  assert (h1' = h1) as -> by congruence. specialize (Hrows Hnd).
  assert (∀ r' c', 0 ≤ r' < 8 → 0 ≤ c' < 8 → queen h1 b r' c' → queen h2 b r' c')
    as Hsub.
  { intros r' c' Hr' Hc' Hq'. unfold queen in *.
    destruct (decide (c' = col)) as [->|Hne].
    - destruct (decide (r' = r)) as [->|Hner]; [done|].
      rewrite Hrows in Hq' by done.
      rewrite (empty_from_load h b col r' col) in Hq'; [done|done|done|lia].
    - rewrite Hcols in Hq' by done.
      destruct (decide (c' < col)) as [Hlt|Hge]; [by rewrite Hleft by lia|].
      rewrite (empty_from_load h b col r' c') in Hq'; [done|done|done|lia]. }
  split; [|done]. split; [done|]. split; [done|]. split; [|intros c Hc; apply Hfill; lia].
  intros r' c' Hr' Hc'.
  destruct (decide (c' = col)) as [->|Hne]; [|rewrite Hcols by lia; apply Hleft; lia].
  destruct (decide (r' = r)) as [->|Hner]; [by rewrite Hq1|].
  rewrite Hrows by done.
  rewrite (empty_from_load h b col r' col) by (done || lia).
  destruct (load_bool h2 b r' col Hwf2 Hr' Hcol) as [|Hq']; [done|].
  exfalso. apply (Hsafe r col r' col); try done. split; [intros [=]; lia|].
  right. by left.
Qed.

Section place_rows_complete.
Variable b : board.
Variable self : store → Z → outcome (bool * store).
Variable col : Z.
Hypothesis col_range : 0 ≤ col < 8.
Hypothesis Hnd : NoDup b.
Hypothesis Hself : col + 1 < 8 → ∀ h1 h1', well_formed h1 b →
  empty_from h1 b (col + 1) → self h1 (col + 1) = Returned (false, h1') →
  h1' = h1 ∧ ∀ h2, ¬ completes h1 b (col + 1) h2.

Lemma place_rows_complete (rs : list Z) (h h' : store) :
  (∀ r, r ∈ rs → 0 ≤ r < 8) →
  well_formed h b → empty_from h b col →
  place_rows self b col rs h = Returned (false, h') →
  ∀ h2 r, r ∈ rs → completes h b col h2 → ¬ queen h2 b r col.
Proof.
  induction rs as [|r rs IH]; intros Hrs Hwf He; simpl.
  - by intros _ h2 r ?%elem_of_nil.
  - assert (0 ≤ r < 8) as Hr by (apply Hrs; by left).
    assert (∀ r', r' ∈ rs → 0 ≤ r' < 8) as Hrs' by (intros; apply Hrs; by right).
    destruct (assign_revert h b r col Hwf Hr col_range) as (h1 & Ha & Hwf1 & Hback & Hsame).
    { apply (empty_from_load h b col); [done|done|lia]. }
    rewrite Ha.
    assert (empty_from h1 b (col + 1)) as He1.
    { apply empty_from_intro. intros r' c' Hr' Hc'.
      rewrite Hsame by lia. apply (empty_from_load h b col); [done|done|lia]. }
    destruct (is_configuration_valid_safe h1 b Hwf1) as (v & -> & Hv).
    assert (∀ h2, completes h b col h2 → queen h2 b r col → safe h1 b) as Hsafe1.
    { intros h2 Hc2 Hq2.
      destruct (completes_step h h1 h2 b r col Hnd Hwf Hr col_range He Ha Hc2 Hq2)
        as [_ Hsub].
      destruct Hc2 as (_ & Hsafe2 & _).
      intros r1 c1 r2 c2 Hr1 Hc1 Hr2 Hc2' Hq1 Hq2'.
      apply Hsafe2; auto. }
    destruct v.
    + destruct (col + 1 >=? BOARD_SIZE) eqn:Hnext; [done|].
      rewrite Z.geb_leb in Hnext. apply Z.leb_gt in Hnext.
      unfold BOARD_SIZE in Hnext.
      destruct (self h1 (col + 1)) as [[[] h2']| |] eqn:Hs; try done.
      destruct (Hself Hnext h1 h2' Hwf1 He1 Hs) as [-> Hnone].
      rewrite Hback. intros Hrest h2 r' [->|Hin]%elem_of_cons Hc2 Hq2.
      * apply (Hnone h2).
        by destruct (completes_step h h1 h2 b r col Hnd Hwf Hr col_range He Ha Hc2 Hq2).
      * by apply (IH Hrs' Hwf He Hrest h2 r').
    + rewrite Hback. intros Hrest h2 r' [->|Hin]%elem_of_cons Hc2 Hq2.
      * assert (false = true) as Hf by (apply Hv; by eapply Hsafe1). done.
      * by apply (IH Hrs' Hwf He Hrest h2 r').
Qed.

End place_rows_complete.

Lemma backtracking_complete (fuel : nat) (b : board) (col : Z) (h h' : store) :
  NoDup b → 0 ≤ col < 8 → well_formed h b → empty_from h b col →
  backtracking fuel h b col = Returned (false, h') →
  h' = h ∧ ∀ h2, ¬ completes h b col h2.
Proof.
  intros Hnd. revert col h h'.
  induction fuel as [|fuel IH]; intros col h h' Hcol Hwf He; [done|].
  intros Hb. split; [by eapply backtracking_restores|].
  rewrite backtracking_S in Hb. intros h2 Hc2.
  destruct Hc2 as (Hwf2 & Hsafe & Hleft & Hfill).
  destruct (Hfill col ltac:(lia)) as (r & Hr & Hq).
  eapply (place_rows_complete b _ col Hcol Hnd); [| | | |exact Hb| |done|exact Hq];
    try done.
  - intros Hlt h1 h1' Hwf1 He1 Hs. apply (IH (col + 1)); [lia|done..].
  - apply range_board.
  - by apply elem_of_range.
Qed.

(** *** The first solution *)

Section place_rows_first.
Variable b : board.
Variable self : store → Z → outcome (bool * store).
Variable col : Z.
Hypothesis col_range : 0 ≤ col < 8.
Hypothesis Hnd : NoDup b.
Hypothesis Hfalse : col + 1 < 8 → ∀ h1 h1', well_formed h1 b →
  empty_from h1 b (col + 1) → self h1 (col + 1) = Returned (false, h1') →
  h1' = h1 ∧ ∀ h2, ¬ completes h1 b (col + 1) h2.
Hypothesis Htrue : col + 1 < 8 → ∀ h1 h1', well_formed h1 b →
  empty_from h1 b (col + 1) → self h1 (col + 1) = Returned (true, h1') →
  keeps_left h1 b (col + 1) h1' ∧ first_of h1 b (col + 1) h1'.

Lemma place_rows_first (rs : list Z) (h h' : store) :
  (∀ r, r ∈ rs → 0 ≤ r < 8) →
  (∀ i j x y, (i < j)%nat → rs !! i = Some x → rs !! j = Some y → x < y) →
  well_formed h b → empty_from h b col →
  place_rows self b col rs h = Returned (true, h') →
  ∀ h2 r2, r2 ∈ rs → completes h b col h2 → queen h2 b r2 col →
    same_columns h' h2 b col 8 ∨ before h' h2 b col.
Proof.
  induction rs as [|r rs IH]; intros Hrs Hsorted Hwf He; simpl; [done|].
  assert (0 ≤ r < 8) as Hr by (apply Hrs; by left).
  assert (∀ r', r' ∈ rs → 0 ≤ r' < 8) as Hrs' by (intros; apply Hrs; by right).
  assert (∀ r', r' ∈ rs → r < r') as Hlater.
  { intros r' [j Hj]%list_elem_of_lookup.
    apply (Hsorted 0%nat (S j)); [lia|done..]. }
  assert (∀ i j x y, (i < j)%nat → rs !! i = Some x → rs !! j = Some y → x < y)
    as Hsorted'.
  { intros i j x y Hij Hx Hy. apply (Hsorted (S i) (S j)); [lia|done..]. }
  destruct (assign_revert h b r col Hwf Hr col_range) as (h1 & Ha & Hwf1 & Hback & Hsame).
  { apply (empty_from_load h b col); [done|done|lia]. }
  rewrite Ha.
  assert (queen h1 b r col) as Hq1.
  { destruct (assign_frame h b r col true Hwf Hr col_range) as (h1' & Ha' & _ & Hq & _).
    congruence. }
  assert (empty_from h1 b (col + 1)) as He1.
  { apply empty_from_intro. intros r' c' Hr' Hc'.
    rewrite Hsame by lia. apply (empty_from_load h b col); [done|done|lia]. }
  destruct (is_configuration_valid_safe h1 b Hwf1) as (v & -> & Hv).
  assert (∀ h2, completes h b col h2 → queen h2 b r col →
            completes h1 b (col + 1) h2 ∧ safe h1 b) as Hstep.
  { intros h2 Hc2 Hq2.
    destruct (completes_step h h1 h2 b r col Hnd Hwf Hr col_range He Ha Hc2 Hq2)
      as [Hc1 Hsub].
    split; [done|]. destruct Hc2 as (_ & Hsafe2 & _).
    intros r1 c1 r2 c2 Hr1 Hc1' Hr2 Hc2' Hqa Hqb. apply Hsafe2; auto. }
  assert (∀ h'' h2 r2, (∀ r', 0 ≤ r' < 8 → load h'' b r' col = load h1 b r' col) →
            r2 ∈ rs → 0 ≤ r2 < 8 → queen h2 b r2 col → before h'' h2 b col)
    as Hbefore.
  { intros h'' h2 r2 Hcol Hin Hr2 Hq2. exists col, r, r2.
    split; [lia|]. split; [intros r' c' ? ?; lia|].
    split; [done|]. split; [done|]. split; [|split; [done|by apply Hlater]].
    unfold queen. by rewrite Hcol. }
  destruct v.
  - destruct (col + 1 >=? BOARD_SIZE) eqn:Hnext.
    + rewrite Z.geb_leb in Hnext. apply Z.leb_le in Hnext.
      unfold BOARD_SIZE in Hnext.
      intros [= <-] h2 r2 [->|Hin]%elem_of_cons Hc2 Hq2.
      * left. destruct (Hstep h2 Hc2 Hq2) as [(_ & _ & Hleft & _) _].
        intros r' c' Hr' Hc'. symmetry. apply Hleft; lia.
      * right. apply (Hbefore h1 h2 r2); auto.
    + rewrite Z.geb_leb in Hnext. apply Z.leb_gt in Hnext.
      unfold BOARD_SIZE in Hnext.
      destruct (self h1 (col + 1)) as [[[] h3]| |] eqn:Hs; try done.
      * intros [= <-] h2 r2 [->|Hin]%elem_of_cons Hc2 Hq2.
        -- destruct (Htrue Hnext h1 h3 Hwf1 He1 Hs) as [(_ & Hk & _) Hfirst].
           destruct (Hstep h2 Hc2 Hq2) as [Hc1 _].
           pose proof Hc1 as (_ & _ & Hleft & _).
           assert (∀ r', 0 ≤ r' < 8 → load h3 b r' col = load h2 b r' col) as Hcol.
           { intros r' Hr'. rewrite Hk by lia. symmetry. apply Hleft; lia. }
           destruct (Hfirst h2 Hc1) as [Hsamec|(c & r1 & r2 & Hc & Hsamec & ?)].
           ++ left. intros r' c' Hr' Hc'.
              destruct (decide (c' = col)) as [->|Hne]; [by apply Hcol|].
              apply Hsamec; lia.
           ++ right. exists c, r1, r2. split; [lia|]. split; [|done].
              intros r' c' Hr' Hc'.
              destruct (decide (c' = col)) as [->|Hne]; [by apply Hcol|].
              apply Hsamec; lia.
        -- right. destruct (Htrue Hnext h1 h3 Hwf1 He1 Hs) as [(_ & Hk & _) _].
           apply (Hbefore h3 h2 r2); auto. intros r' Hr'. apply Hk; lia.
      * destruct (Hfalse Hnext h1 h3 Hwf1 He1 Hs) as [-> Hnone].
        rewrite Hback. intros Hrest h2 r2 [->|Hin]%elem_of_cons Hc2 Hq2.
        -- exfalso. apply (Hnone h2). by apply Hstep.
        -- by apply (IH Hrs' Hsorted' Hwf He Hrest h2 r2).
  - rewrite Hback. intros Hrest h2 r2 [->|Hin]%elem_of_cons Hc2 Hq2.
    + assert (false = true) as Hf by (apply Hv; by apply (Hstep h2)). done.
    + by apply (IH Hrs' Hsorted' Hwf He Hrest h2 r2).
Qed.

End place_rows_first.

Lemma range2_lookup (lo hi : Z) (i : nat) (x : Z) :
  range2 lo hi !! i = Some x → x = lo + Z.of_nat i.
Proof.
  unfold range2. rewrite list_lookup_fmap.
  destruct (seq 0 (Z.to_nat (hi - lo)) !! i) as [k|] eqn:E; [|done].
  apply lookup_seq in E as [-> _]. simpl. intros [= <-]. lia.
Qed.

Lemma backtracking_first (fuel : nat) (b : board) (col : Z) (h h' : store) :
  NoDup b → 0 ≤ col < 8 → well_formed h b → empty_from h b col →
  backtracking fuel h b col = Returned (true, h') →
  first_of h b col h'.
Proof.
  intros Hnd. revert col h h'.
  induction fuel as [|fuel IH]; intros col h h' Hcol Hwf He; [done|].
  rewrite backtracking_S. intros Hb h2 Hc2.
  pose proof Hc2 as (_ & _ & _ & Hfill).
  destruct (Hfill col ltac:(lia)) as (r2 & Hr2 & Hq2).
  eapply (place_rows_first b _ col Hcol Hnd); [| | | | | |exact Hb| |done|exact Hq2];
    try done.
  - intros Hlt h1 h1' Hwf1 He1 Hs.
    apply (backtracking_complete fuel b (col + 1)); [done|lia|done..].
  - intros Hlt h1 h1' Hwf1 He1 Hs. split.
    + by destruct (backtracking_post fuel b (col + 1) h1 h1' true ltac:(lia) Hwf1 Hs).
    + apply (IH (col + 1)); [lia|done..].
  - apply range_board.
  - intros i j x y Hij Hx%range2_lookup Hy%range2_lookup. lia.
  - by apply elem_of_range.
Qed.

(** *** create_board *)

Lemma create_rows_spec (n : nat) (h : store) :
  length (create_rows n h).2 = n
  ∧ NoDup (create_rows n h).2
  ∧ (∀ l, l ∈ (create_rows n h).2 →
       (l ∉ dom h)
       ∧ (create_rows n h).1 !! l = Some (replicate (Z.to_nat BOARD_SIZE) false))
  ∧ h ⊆ (create_rows n h).1.
Proof.
  revert h. induction n as [|n IH]; intros h; cbn [create_rows].
  - split; [done|]. split; [constructor|]. split; [|done].
    by intros l ?%elem_of_nil.
  - set (l := fresh (dom h)).
    set (row := replicate (Z.to_nat BOARD_SIZE) false).
    specialize (IH (<[l:=row]> h)).
    destruct (create_rows n (<[l:=row]> h)) as [h' b]. cbn [fst snd] in *.
    destruct IH as (Hlen & Hnd & Hrows & Hsub).
    assert (l ∉ dom h) as Hfresh by apply is_fresh.
    assert (h' !! l = Some row) as Hl.
    { eapply lookup_weaken; [|exact Hsub]. apply lookup_insert_eq. }
    split; [by rewrite <- Hlen|]. split; [|split].
    + constructor; [|done]. intros Hin. destruct (Hrows l Hin) as [Hnot _].
      apply Hnot, elem_of_dom. rewrite lookup_insert_eq. by eexists.
    + intros l' [->|Hin]%elem_of_cons; [done|].
      destruct (Hrows l' Hin) as [Hnot Hrow]. split; [|done].
      intros Hd. apply Hnot. rewrite dom_insert. apply elem_of_union. by right.
    + etrans; [|exact Hsub]. apply insert_subseteq. by apply not_elem_of_dom.
Qed.

(** X19.  [create_board] builds a board of eight rows of eight cells, all
    [False]; the rows are eight different objects, none of which existed
    before, and no object that existed is changed. *)
Theorem create_board_fresh (h : store) :
  well_formed (create_board h).1 (create_board h).2
  ∧ NoDup (create_board h).2
  ∧ empty_from (create_board h).1 (create_board h).2 0
  ∧ (∀ l, l ∈ (create_board h).2 → l ∉ dom h)
  ∧ h ⊆ (create_board h).1.
Proof.
  unfold create_board.
  destruct (create_rows_spec (Z.to_nat BOARD_SIZE) h) as (Hlen & Hnd & Hrows & Hsub).
  destruct (create_rows (Z.to_nat BOARD_SIZE) h) as [h' b]. cbn [fst snd] in *.
  assert (well_formed h' b) as Hwf.
  { split; [done|]. apply Forall_forall. intros l Hl.
    destruct (Hrows l Hl) as [_ ->]. done. }
  split; [done|]. split; [done|]. split; [|split; [|done]].
  - apply empty_from_intro. intros r c Hr Hc.
    destruct (load_in_range h' b r c Hwf Hr ltac:(lia))
      as (l & row & v & Hl & Hh & Hv & ->).
    destruct (Hrows l) as [_ Hrow]; [by eapply list_elem_of_lookup_2|].
    rewrite Hh in Hrow. injection Hrow as ->.
    change (replicate 8 false !! Z.to_nat c = Some v) in Hv.
    apply lookup_replicate in Hv as [-> _]. done.
  - intros l Hl. by destruct (Hrows l Hl).
Qed.

(** *** What is_configuration_valid decides *)

(** X20.  On a board of eight rows of eight cells [is_configuration_valid]
    returns, and it returns [True] exactly when no two queens stand on a
    common row, column or diagonal. *)
Theorem is_configuration_valid_iff_safe (h : store) (b : board) :
  well_formed h b →
  ∃ v : bool, is_configuration_valid h b = Some v ∧ (v = true ↔ safe h b).
Proof. apply is_configuration_valid_safe. Qed.

Lemma is_configuration_valid_iff_safe_witness :
  ∃ v : bool, is_configuration_valid blocked.1 blocked.2 = Some v
              ∧ (v = true ↔ safe blocked.1 blocked.2).
Proof.
  apply (is_configuration_valid_iff_safe blocked.1 blocked.2).
  apply (bool_decide_unpack _). by vm_compute.
Defined.

(** *** backtracking *)

(** X21.  A call of [backtracking] for a column of the board that returns
    leaves a board of the same shape, has written nothing left of its
    column, and has changed no object outside the board. *)
Theorem backtracking_keeps_left (fuel : nat) (h h' : store) (b : board)
    (col_idx : Z) (res : bool) :
  well_formed h b → 0 ≤ col_idx < BOARD_SIZE →
  backtracking fuel h b col_idx = Returned (res, h') →
  well_formed h' b
  ∧ (∀ r c, 0 ≤ r < BOARD_SIZE → 0 ≤ c < col_idx → load h' b r c = load h b r c)
  ∧ (∀ l, l ∉ b → h' !! l = h !! l).
Proof.
  intros Hwf Hcol Hb.
  by destruct (backtracking_post fuel b col_idx h h' res Hcol Hwf Hb) as [Hk _].
Qed.

Lemma backtracking_keeps_left_witness :
  ∃ h', backtracking 7 cornered.1 cornered.2 1 = Returned (true, h')
        ∧ well_formed h' cornered.2
        ∧ (∀ r c, 0 ≤ r < BOARD_SIZE → 0 ≤ c < 1 →
             load h' cornered.2 r c = load cornered.1 cornered.2 r c)
        ∧ (∀ l, l ∉ cornered.2 → h' !! l = cornered.1 !! l).
Proof.
  eexists. split; [by vm_compute|].
  apply (backtracking_keeps_left 7 cornered.1 _ cornered.2 1 true).
  - apply (bool_decide_unpack _). by vm_compute.
  - unfold BOARD_SIZE. lia.
  - by vm_compute.
Defined.

(** X22.  If [backtracking] returns [True], the board it leaves completes
    the placement it was given: the columns left of [col_idx] are as they
    were, every column from [col_idx] on holds a queen, and no two queens
    of the board attack each other. *)
Theorem backtracking_success_completes (fuel : nat) (h h' : store) (b : board)
    (col_idx : Z) :
  well_formed h b → 0 ≤ col_idx < BOARD_SIZE →
  backtracking fuel h b col_idx = Returned (true, h') →
  completes h b col_idx h'.
Proof.
  intros Hwf Hcol Hb.
  destruct (backtracking_post fuel b col_idx h h' true Hcol Hwf Hb)
    as [(Hwf' & Hleft & _) Hres].
  destruct (Hres eq_refl) as [Hsafe Hfill]. done.
Qed.

Lemma backtracking_success_completes_witness :
  ∃ h', backtracking 7 cornered.1 cornered.2 1 = Returned (true, h')
        ∧ completes cornered.1 cornered.2 1 h'.
Proof.
  eexists. split; [by vm_compute|].
  apply (backtracking_success_completes 7).
  - apply (bool_decide_unpack _). by vm_compute.
  - unfold BOARD_SIZE. lia.
  - by vm_compute.
Defined.

(** X23.  If [backtracking] returns [False] on a board of distinct rows
    that holds no queen in column [col_idx] or to its right, the placement
    cannot be completed: no board with the same columns left of [col_idx]
    and a queen in every column from [col_idx] on is free of attacks. *)
Theorem backtracking_failure_is_final (fuel : nat) (h h' : store) (b : board)
    (col_idx : Z) :
  well_formed h b → NoDup b → 0 ≤ col_idx < BOARD_SIZE →
  empty_from h b col_idx →
  backtracking fuel h b col_idx = Returned (false, h') →
  ∀ h2, ¬ completes h b col_idx h2.
Proof.
  intros Hwf Hnd Hcol He Hb.
  by destruct (backtracking_complete fuel b col_idx h h' Hnd Hcol Hwf He Hb).
Qed.

Lemma backtracking_failure_is_final_witness :
  backtracking 7 blocked.1 blocked.2 1 = Returned (false, blocked.1)
  ∧ ∀ h2, ¬ completes blocked.1 blocked.2 1 h2.
Proof.
  split; [by vm_compute|].
  apply (backtracking_failure_is_final 7 blocked.1 blocked.1 blocked.2 1).
  - apply (bool_decide_unpack _). by vm_compute.
  - apply (bool_decide_unpack _). by vm_compute.
  - unfold BOARD_SIZE. lia.
  - apply (bool_decide_unpack _). by vm_compute.
  - by vm_compute.
Defined.

(** X24.  The solution that [backtracking] returns is the first in the
    order of its search.  On a board of distinct rows with no queen in
    column [col_idx] or to its right, every completion of the placement
    either has the same queens from [col_idx] on as the board returned, or
    has, in the first column where they differ, its queen in a higher
    row. *)
Theorem backtracking_finds_first (fuel : nat) (h h' : store) (b : board)
    (col_idx : Z) :
  well_formed h b → NoDup b → 0 ≤ col_idx < BOARD_SIZE →
  empty_from h b col_idx →
  backtracking fuel h b col_idx = Returned (true, h') →
  ∀ h2, completes h b col_idx h2 →
    same_columns h' h2 b col_idx 8 ∨ before h' h2 b col_idx.
Proof.
  intros Hwf Hnd Hcol He Hb. by apply (backtracking_first fuel b col_idx h h').
Qed.

Lemma backtracking_finds_first_witness :
  ∃ h', backtracking 7 cornered.1 cornered.2 1 = Returned (true, h')
        ∧ ∀ h2, completes cornered.1 cornered.2 1 h2 →
            same_columns h' h2 cornered.2 1 8 ∨ before h' h2 cornered.2 1.
Proof.
  eexists. split; [by vm_compute|].
  apply (backtracking_finds_first 7 cornered.1 _ cornered.2 1).
  - apply (bool_decide_unpack _). by vm_compute.
  - apply (bool_decide_unpack _). by vm_compute.
  - unfold BOARD_SIZE. lia.
  - apply (bool_decide_unpack _). by vm_compute.
  - by vm_compute.
Defined.

(** X25.  A column index that is no subscript of a row, 8 or more or below
    -8, makes the first assignment of [backtracking] raise [IndexError]. *)
Theorem backtracking_column_out_of_range (fuel : nat) (h : store) (b : board)
    (col_idx : Z) :
  well_formed h b → 8 ≤ col_idx ∨ col_idx < -8 →
  backtracking (S fuel) h b col_idx = Raised.
Proof.
  intros Hwf Hcol. rewrite backtracking_S.
  change (range BOARD_SIZE) with (0 :: range2 1 8). cbn [place_rows].
  destruct (well_formed_row h b 0 Hwf ltac:(lia)) as (l & row & _ & Hg & Hh & Hlen).
  unfold assign. rewrite Hg. bind_step. rewrite Hh. bind_step.
  unfold setitem, norm_index. rewrite Hlen.
  destruct (Z.leb_spec 0 col_idx), (Z.ltb_spec col_idx (Z.of_nat 8)),
    (Z.leb_spec (- Z.of_nat 8) col_idx), (Z.ltb_spec col_idx 0); try lia; done.
Qed.

Lemma backtracking_column_out_of_range_witness :
  backtracking 1 blocked.1 blocked.2 8 = Raised.
Proof.
  apply (backtracking_column_out_of_range 0 blocked.1 blocked.2 8).
  - apply (bool_decide_unpack _). by vm_compute.
  - left. lia.
Defined.

(** *** print_board and main *)

Lemma show_row_get (row : list bool) (c : nat) (v : bool) :
  row !! c = Some v →
  String.substring (2 * c) 1 (String.concat " " (show_queen <$> row))
  = show_queen v.
Proof.
  revert c. induction row as [|x row IH]; intros c; [done|].
  destruct c as [|c]; simpl.
  - intros [= ->]. destruct row; by destruct v.
  - intros Hc. destruct row as [|y row]; [done|].
    specialize (IH c Hc). cbn [fmap list_fmap] in *.
    replace (c + S (c + 0))%nat with (S (2 * c)) by lia.
    destruct x; simpl; exact IH.
Qed.

Lemma length_append (s1 s2 : string) :
  String.length (s1 +:+ s2) = (String.length s1 + String.length s2)%nat.
Proof.
  induction s1 as [|a s1 IH]; [done|].
  change (String a s1 +:+ s2) with (String a (s1 +:+ s2)).
  cbn [String.length]. by rewrite IH.
Qed.

Lemma show_row_length (row : list bool) :
  String.length (String.concat " " (show_queen <$> row))
  = (2 * length row - 1)%nat.
Proof.
  induction row as [|x row IH]; [done|].
  destruct row as [|y row]; [by destruct x|].
  change (String.concat " " (show_queen <$> x :: y :: row))
    with (show_queen x +:+ " " +:+ String.concat " " (show_queen <$> y :: row)).
  remember (String.concat " " (show_queen <$> y :: row)) as rest.
  clear Heqrest. rewrite !length_append, IH. destruct x; cbn; lia.
Qed.

(** X26.  [print_board] prints eight lines of fifteen characters, one for
    each of the first eight rows; in line [r] the character [2 c] is [Q]
    when the cell ([r], [c]) holds a queen and [_] when it does not. *)
Theorem print_board_cells (h : store) (b : board) (out : list string) :
  well_formed h b →
  ∃ lines, print_board h b out = Some (out ++ lines) ∧ length lines = 8%nat
    ∧ ∀ r c, 0 ≤ r < 8 → 0 ≤ c < 8 →
        ∃ line v, lines !! Z.to_nat r = Some line
          ∧ String.length line = 15%nat
          ∧ load h b r c = Some v
          ∧ String.substring (2 * Z.to_nat c) 1 line = show_queen v.
Proof.
  intros Hwf.
  exists ((λ r, default "" (l ← getitem b r; row ← h !! l;
                            Some (String.concat " " (show_queen <$> row))))
          <$> range BOARD_SIZE).
  split; [|split].
  - unfold print_board. generalize (range_board). revert out.
    induction (range BOARD_SIZE) as [|r rs IH]; intros out Hrs; simpl.
    + by rewrite app_nil_r.
    + destruct (well_formed_row h b r Hwf) as (l & row & _ & Hg & Hh & _).
      { apply Hrs. by left. }
      rewrite Hg. simpl. rewrite Hh. simpl. rewrite IH.
      * unfold print. by rewrite <- app_assoc.
      * intros r' Hr'. apply Hrs. by right.
  - unfold range. by rewrite length_fmap, length_range2.
  - intros r c Hr Hc.
    destruct (load_in_range h b r c Hwf Hr Hc) as (l & row & v & Hl & Hh & Hv & Hload).
    destruct (well_formed_row h b r Hwf Hr) as (l' & row' & Hl' & Hg & Hh' & Hlen).
    assert (l' = l) as -> by congruence. assert (row' = row) as -> by congruence.
    exists (String.concat " " (show_queen <$> row)), v.
    split; [|split; [|split]].
    + unfold range, range2.
      rewrite !list_lookup_fmap, lookup_seq_lt by (unfold BOARD_SIZE; lia).
      cbn [fmap option_fmap option_map Nat.add].
      rewrite Z.add_0_l, Z2Nat.id by lia. rewrite Hg. bind_step. by rewrite Hh.
    + by rewrite show_row_length, Hlen.
    + done.
    + by apply show_row_get.
Qed.

Lemma print_board_cells_witness :
  ∃ lines, print_board blocked.1 blocked.2 [] = Some ([] ++ lines)
    ∧ length lines = 8%nat
    ∧ ∀ r c, 0 ≤ r < 8 → 0 ≤ c < 8 →
        ∃ line v, lines !! Z.to_nat r = Some line
          ∧ String.length line = 15%nat
          ∧ load blocked.1 blocked.2 r c = Some v
          ∧ String.substring (2 * Z.to_nat c) 1 line = show_queen v.
Proof.
  apply (print_board_cells blocked.1 blocked.2 []).
  apply (bool_decide_unpack _). by vm_compute.
Defined.

(** X27.  [main] returns after printing a solution of the puzzle: the
    first one in the order of the search, with the queens of the columns
    0 to 7 in the rows 0, 4, 7, 5, 2, 6, 1 and 3. *)
Theorem main_prints_solution (fuel : nat) :
  main (8 + fuel)
  = Returned
      ["Q _ _ _ _ _ _ _"; "_ _ _ _ _ _ Q _"; "_ _ _ _ Q _ _ _";
       "_ _ _ _ _ _ _ Q"; "_ Q _ _ _ _ _ _"; "_ _ _ Q _ _ _ _";
       "_ _ _ _ _ Q _ _"; "_ _ Q _ _ _ _ _"].
Proof. by vm_compute. Qed.

End QueensFacts.
